(** * Carry-divergence backtester: a shallow embedding of [src/backtester.py]

    The pipeline of the [Backtest] class (signals, positions, transaction
    costs, P&L, yearly statistics) is embedded as functions on an explicit
    instance record.  Conventions of the embedding:

    - a floating cell is an exact rational or one of the three special
      values of the floating format (the two infinities and the missing
      value NaN); rounding, overflow and the sign of zero are not modelled
      (a zero divisor is the positive zero).  Statements that repeat the
      operations of the code read the same in binary64; where a statement
      needs an algebraic law of the exact numbers, the module [Binary64]
      embeds the same lines over the floating-point numbers of the kernel
      and shows what rounding does to it;
    - a table is an ordered list of labelled columns over the time axis
      shared by all the tables of one instance; labels are taken distinct;
      a cell read outside a column, or in a column the table lacks, is NaN;
    - a lookup of a missing column or attribute is the exception the
      interpreter raises, carried in a small error monad. *)

From Stdlib Require Import QArith Qabs Qreduction Lqa.
From Stdlib Require Import ZArith Lia Bool List String Ascii.
From Stdlib Require PrimFloat.
Import ListNotations.

Open Scope Q_scope.

(* ================================================================== *)
(** ** Floating cells *)

Module FVal.

Inductive fval : Type :=
| Fin (q : Q)
| PInf
| NInf
| NaN.

Definition Qltb (a b : Q) : bool := negb (Qle_bool b a).

Definition fzero : fval := Fin 0.
Definition fone : fval := Fin 1.
Definition of_nat (n : nat) : fval := Fin (inject_Z (Z.of_nat n)).

Definition is_nan (x : fval) : bool :=
  match x with NaN => true | _ => false end.

Definition is_fin (x : fval) : bool :=
  match x with Fin _ => true | _ => false end.

Definition fneg (x : fval) : fval :=
  match x with
  | Fin q => Fin (- q)
  | PInf => NInf
  | NInf => PInf
  | NaN => NaN
  end.

Definition fabs (x : fval) : fval :=
  match x with
  | Fin q => Fin (Qabs q)
  | PInf | NInf => PInf
  | NaN => NaN
  end.

Definition fadd (x y : fval) : fval :=
  match x, y with
  | NaN, _ | _, NaN => NaN
  | Fin a, Fin b => Fin (a + b)
  | PInf, NInf | NInf, PInf => NaN
  | PInf, _ | _, PInf => PInf
  | NInf, _ | _, NInf => NInf
  end.

Definition fsub (x y : fval) : fval := fadd x (fneg y).

(** An infinity times a finite value: NaN at zero, else the sign rule. *)
Definition inf_times (pos : bool) (q : Q) : fval :=
  if Qeq_bool q 0 then NaN
  else if Bool.eqb pos (Qltb 0 q) then PInf else NInf.

Definition fmul (x y : fval) : fval :=
  match x, y with
  | NaN, _ | _, NaN => NaN
  | Fin a, Fin b => Fin (a * b)
  | PInf, Fin q | Fin q, PInf => inf_times true q
  | NInf, Fin q | Fin q, NInf => inf_times false q
  | PInf, PInf | NInf, NInf => PInf
  | PInf, NInf | NInf, PInf => NInf
  end.

Definition fdiv (x y : fval) : fval :=
  match x, y with
  | NaN, _ | _, NaN => NaN
  | Fin a, Fin b =>
      if Qeq_bool b 0 then
        if Qeq_bool a 0 then NaN
        else if Qltb 0 a then PInf else NInf
      else Fin (a / b)
  | Fin _, (PInf | NInf) => Fin 0
  | PInf, Fin b => if Qle_bool 0 b then PInf else NInf
  | NInf, Fin b => if Qle_bool 0 b then NInf else PInf
  | (PInf | NInf), (PInf | NInf) => NaN
  end.

(** Comparisons: every comparison with NaN is false, except [!=]. *)
Definition fltb (x y : fval) : bool :=
  match x, y with
  | NaN, _ | _, NaN => false
  | Fin a, Fin b => Qltb a b
  | NInf, (Fin _ | PInf) => true
  | Fin _, PInf => true
  | _, _ => false
  end.

Definition fleb (x y : fval) : bool :=
  match x, y with
  | NaN, _ | _, NaN => false
  | Fin a, Fin b => Qle_bool a b
  | NInf, _ => true
  | _, PInf => true
  | _, _ => false
  end.

Definition fgtb (x y : fval) : bool := fltb y x.
Definition fgeb (x y : fval) : bool := fleb y x.

Definition feqb (x y : fval) : bool :=
  match x, y with
  | Fin a, Fin b => Qeq_bool a b
  | PInf, PInf | NInf, NInf => true
  | _, _ => false
  end.

Definition fneb (x y : fval) : bool := negb (feqb x y).

(** Equality of cells as numbers: rationals up to [Qeq], the special values
    up to identity (so NaN is related to NaN: the relation compares what a
    cell holds, it is not the [==] of the floating format). *)
Definition feq (x y : fval) : Prop :=
  match x, y with
  | Fin a, Fin b => a == b
  | PInf, PInf | NInf, NInf | NaN, NaN => True
  | _, _ => False
  end.

(** [np.sqrt]: the rational square root is a parameter of the model. *)
Definition fsqrt (sqrtQ : Q -> Q) (x : fval) : fval :=
  match x with
  | Fin q => if Qltb q 0 then NaN else Fin (sqrtQ q)
  | PInf => PInf
  | NInf | NaN => NaN
  end.

End FVal.
Export FVal.

Declare Scope fval_scope.
Delimit Scope fval_scope with F.
Infix "+" := fadd : fval_scope.
Infix "-" := fsub : fval_scope.
Infix "*" := fmul : fval_scope.
Infix "/" := fdiv : fval_scope.
Infix "=~" := feq (at level 70, no associativity).

(* ================================================================== *)
(** ** Exceptions *)

Inductive exn : Type :=
| KeyError (key : string)
| AttributeError (attr : string)
| ValueError (msg : string).

Inductive result (A : Type) : Type :=
| Ok (a : A)
| Raise (e : exn).

Arguments Ok {A} a.
Arguments Raise {A} e.

Definition bind {A B : Type} (m : result A) (k : A -> result B) : result B :=
  match m with
  | Ok a => k a
  | Raise e => Raise e
  end.

Notation "x <- m ;; k" := (bind m (fun x => k))
  (at level 61, m at next level, right associativity).

(* ================================================================== *)
(** ** Series and tables *)

Module Frame.

Definition column : Type := list fval.
Definition frame : Type := list (string * column).

Definition cell (col : column) (t : nat) : fval := nth t col NaN.

Definition labels (f : frame) : list string := map fst f.

Fixpoint get (c : string) (f : frame) : option column :=
  match f with
  | [] => None
  | (l, col) :: rest => if String.eqb l c then Some col else get c rest
  end.

(** [df[c]]: the column, or [KeyError]. *)
Definition getitem (f : frame) (c : string) : result column :=
  match get c f with
  | Some col => Ok col
  | None => Raise (KeyError c)
  end.

(** [df[c] = col]: replaces the column in place, appends a new one. *)
Fixpoint setitem (f : frame) (c : string) (col : column) : frame :=
  match f with
  | [] => [(c, col)]
  | (l, old) :: rest =>
      if String.eqb l c then (l, col) :: rest
      else (l, old) :: setitem rest c col
  end.

(** [df.drop(c, axis=1)]. *)
Definition drop (c : string) (f : frame) : frame :=
  filter (fun p => negb (String.eqb (fst p) c)) f.

(** The value of table [f] at column [c] and row [t]. *)
Definition at_ (f : frame) (c : string) (t : nat) : fval :=
  match get c f with
  | Some col => cell col t
  | None => NaN
  end.

Fixpoint map2 {A B C : Type} (g : A -> B -> C) (xs : list A) (ys : list B)
  : list C :=
  match xs, ys with
  | x :: xs', y :: ys' => g x y :: map2 g xs' ys'
  | _, _ => []
  end.

Definition col_add : column -> column -> column := map2 fadd.
Definition col_sub : column -> column -> column := map2 fsub.
Definition col_mul : column -> column -> column := map2 fmul.
Definition col_div : column -> column -> column := map2 fdiv.
Definition col_abs : column -> column := map fabs.

(** [s.shift(1)]: every value moves one row down, the first row is NaN. *)
Definition shift1 (col : column) : column :=
  match col with
  | [] => []
  | _ :: _ => NaN :: removelast col
  end.

(** [s.diff()] is [s - s.shift(1)]. *)
Definition diff (col : column) : column := col_sub col (shift1 col).

(** [s.ffill()]: a missing cell takes the last value present above it. *)
Fixpoint ffill_from (last : fval) (col : column) : column :=
  match col with
  | [] => []
  | x :: rest =>
      let y := if is_nan x then last else x in
      y :: ffill_from y rest
  end.

Definition ffill (col : column) : column := ffill_from NaN col.

(** [s.pct_change()]: with the default [fill_method="pad"] the missing
    prices are forward filled first, then the result is
    [data / data.shift(1) - 1]. *)
Definition pct_change (col : column) : column :=
  let data := ffill col in
  map (fun x => fsub x fone) (col_div data (shift1 data)).

(** Sum skipping NaN ([skipna=True], the default of [sum]). *)
Definition nansum (xs : list fval) : fval :=
  fold_right fadd fzero (filter (fun x => negb (is_nan x)) xs).

(** [s.rolling(w).mean()]: NaN until [w] observations are available and
    whenever the window holds a cell that is not finite. *)
Definition window (w t : nat) (col : column) : list fval :=
  firstn w (skipn (t + 1 - w) col).

Definition window_mean (xs : list fval) : fval :=
  if forallb is_fin xs then fdiv (nansum xs) (of_nat (List.length xs))
  else NaN.

Definition rolling_mean (w : nat) (col : column) : column :=
  map (fun t => if (t + 1 <? w)%nat then NaN else window_mean (window w t col))
      (seq 0 (List.length col)).

(** Row [t] of a table, across its columns. *)
Definition row (f : frame) (t : nat) : list fval :=
  map (fun p => cell (snd p) t) f.

(** [df.sum(axis=1)] over a time axis of [T] rows. *)
Definition sum_axis1 (T : nat) (f : frame) : column :=
  map (fun t => nansum (row f t)) (seq 0 T).

Definition frame_map (g : column -> column) (f : frame) : frame :=
  map (fun p => (fst p, g (snd p))) f.

Definition frame_abs : frame -> frame := frame_map col_abs.

(** Ascending insertion sort of cells that are not NaN. *)
Fixpoint insert_sorted (x : fval) (xs : list fval) : list fval :=
  match xs with
  | [] => [x]
  | y :: ys => if fleb x y then x :: xs else y :: insert_sorted x ys
  end.

Definition sort_cells (xs : list fval) : list fval :=
  fold_right insert_sorted [] xs.

(** Linear interpolation between two order statistics, as the percentile
    routine computes it: in cell arithmetic, so an infinite neighbour
    yields NaN. *)
Definition lerp (a b : fval) (t : Q) : fval :=
  let d := fsub b a in
  if Qle_bool (1 # 2) t then fsub b (fmul d (Fin (1 - t)))
  else fadd a (fmul d (Fin t)).

(** The median ([q=0.5], linear interpolation) of the cells that are not
    NaN; NaN when there is none. *)
Definition nanmedian (xs : list fval) : fval :=
  let v := sort_cells (filter (fun x => negb (is_nan x)) xs) in
  let n := List.length v in
  match n with
  | O => NaN
  | S m =>
      let lo := Nat.div2 m in
      let hi := if (n <=? 1)%nat then lo else S lo in
      let gamma := if Nat.even m then 0 else 1 # 2 in
      lerp (cell v lo) (cell v hi) gamma
  end.

(** [df.quantile(axis=1, q=0.5)] over a time axis of [T] rows. *)
Definition quantile_axis1 (T : nat) (f : frame) : column :=
  map (fun t => nanmedian (row f t)) (seq 0 T).

End Frame.
Export Frame.

(* ================================================================== *)
(** ** The [Backtest] class *)

Open Scope string_scope.

(** Modelled from the spec: the enumeration [Fixes] of the two fixing
    sessions, which the methods take and compare with [Fixes.LON]; its
    declaration is not part of the source file. *)
Inductive Fixes : Type := LON | NY.

(** A row label of the time axis; the pipeline reads only its year. *)
Record timestamp : Type := mkTimestamp { year : Z; day_of_year : nat }.

(** The module-level table [spreads]: one row, a column per pair. *)
Definition spreads_dict : frame :=
  [ ("AUDUSD", [Fin ((6 # 1000) / 100)]);
    ("CADUSD", [Fin ((10 # 1000) / 100)]);
    ("CHFUSD", [Fin ((11 # 1000) / 100)]);
    ("DKKUSD", [Fin ((5 # 1000) / 100)]);
    ("EURUSD", [Fin ((36 # 10000) / 100)]);
    ("GBPUSD", [Fin ((5 # 1000) / 100)]);
    ("JPYUSD", [Fin ((6 # 1000) / 100)]);
    ("NOKUSD", [Fin ((35 # 1000) / 100)]);
    ("NZDUSD", [Fin ((14 # 1000) / 100)]);
    ("SEKUSD", [Fin ((32 # 1000) / 100)]) ].

(** The attributes of an instance.  [index] is the time axis of
    [fx_lon_fixes], which every table of the instance shares.  [spreads]
    and [pnl] are attributes the constructor does not create: [pnl] is set
    by [compute_pnl], [spreads] by the caller. *)
Record Backtest : Type := mkBacktest {
  index : list timestamp;
  fx_lon_fixes : frame;
  fx_ny_fixes : frame;
  swaps_lon_fixes : frame;
  swaps_ny_fixes : frame;
  ma_window : nat;
  currencies : list string;
  countries : list string;
  positions : frame;
  signals_lon : frame;
  signals_ny : frame;
  spreads : option frame;
  pnl : option frame
}.

Definition nrows (self : Backtest) : nat := List.length (index self).

(** A table of the given labels with every cell equal to [v]. *)
Definition full (T : nat) (ls : list string) (v : fval) : frame :=
  map (fun l => (l, repeat v T)) ls.

(** [Backtest.__init__]. *)
Definition init (idx : list timestamp)
    (fx_lon_fixes fx_ny_fixes swaps_lon_fixes swaps_ny_fixes : frame)
    (ma_window : nat) : Backtest :=
  let currencies := labels fx_lon_fixes in
  let zeros := full (List.length idx) currencies fzero in
  {| index := idx;
     fx_lon_fixes := fx_lon_fixes;
     fx_ny_fixes := fx_ny_fixes;
     swaps_lon_fixes := swaps_lon_fixes;
     swaps_ny_fixes := swaps_ny_fixes;
     ma_window := ma_window;
     currencies := currencies;
     countries := map (substring 0 3) currencies;
     positions := zeros;
     signals_lon := zeros;
     signals_ny := zeros;
     spreads := None;
     pnl := None |}.

Definition signals_of (fixing : Fixes) (self : Backtest) : frame :=
  match fixing with LON => signals_lon self | NY => signals_ny self end.

Definition swaps_of (fixing : Fixes) (self : Backtest) : frame :=
  match fixing with LON => swaps_lon_fixes self | NY => swaps_ny_fixes self end.

Definition set_signals (fixing : Fixes) (s : frame) (self : Backtest)
  : Backtest :=
  match fixing with
  | LON =>
      mkBacktest (index self) (fx_lon_fixes self) (fx_ny_fixes self)
        (swaps_lon_fixes self) (swaps_ny_fixes self) (ma_window self)
        (currencies self) (countries self) (positions self)
        s (signals_ny self) (spreads self) (pnl self)
  | NY =>
      mkBacktest (index self) (fx_lon_fixes self) (fx_ny_fixes self)
        (swaps_lon_fixes self) (swaps_ny_fixes self) (ma_window self)
        (currencies self) (countries self) (positions self)
        (signals_lon self) s (spreads self) (pnl self)
  end.

Definition set_positions (p : frame) (self : Backtest) : Backtest :=
  mkBacktest (index self) (fx_lon_fixes self) (fx_ny_fixes self)
    (swaps_lon_fixes self) (swaps_ny_fixes self) (ma_window self)
    (currencies self) (countries self) p
    (signals_lon self) (signals_ny self) (spreads self) (pnl self).

(** [self.spreads = s], the assignment a caller makes before it asks for
    transaction costs. *)
Definition set_spreads (s : frame) (self : Backtest) : Backtest :=
  mkBacktest (index self) (fx_lon_fixes self) (fx_ny_fixes self)
    (swaps_lon_fixes self) (swaps_ny_fixes self) (ma_window self)
    (currencies self) (countries self) (positions self)
    (signals_lon self) (signals_ny self) (Some s) (pnl self).

Definition set_pnl (p : frame) (self : Backtest) : Backtest :=
  mkBacktest (index self) (fx_lon_fixes self) (fx_ny_fixes self)
    (swaps_lon_fixes self) (swaps_ny_fixes self) (ma_window self)
    (currencies self) (countries self) (positions self)
    (signals_lon self) (signals_ny self) (spreads self) (Some p).

(** *** compute_signals *)

(** [itertools.combinations(l, 2)]. *)
Fixpoint combinations2 (l : list string) : list (string * string) :=
  match l with
  | [] => []
  | x :: rest => map (pair x) rest ++ combinations2 rest
  end.

(** The body of the pair loop: the raw subsignal of one pair. *)
Definition pair_subsignal (ma_window : nat) (swaps_data : frame)
    (country1 country2 : string) : result column :=
  a <- getitem swaps_data (country1 ++ "USD") ;;
  b <- getitem swaps_data (country2 ++ "USD") ;;
  let diff := col_sub a b in
  let avg := rolling_mean ma_window diff in
  Ok (col_div (col_sub diff avg) (col_abs avg)).

(** [for country2 in countries[i + 1 :]]. *)
Fixpoint inner_loop (ma_window : nat) (swaps_data : frame)
    (country1 : string) (rest : list string) (subsignals : frame)
  : result frame :=
  match rest with
  | [] => Ok subsignals
  | country2 :: rest' =>
      subsignals_col <- pair_subsignal ma_window swaps_data country1 country2 ;;
      inner_loop ma_window swaps_data country1 rest'
        (setitem subsignals (country1 ++ country2) subsignals_col)
  end.

(** [for i, country1 in enumerate(countries)]. *)
Fixpoint outer_loop (ma_window : nat) (swaps_data : frame)
    (countries : list string) (subsignals : frame) : result frame :=
  match countries with
  | [] => Ok subsignals
  | country1 :: rest =>
      subsignals' <- inner_loop ma_window swaps_data country1 rest subsignals ;;
      outer_loop ma_window swaps_data rest subsignals'
  end.

(** [col[mask] = v] with a boolean mask. *)
Definition mask_set (mask : list bool) (v : fval) (col : column) : column :=
  map2 (fun (m : bool) x => if m then v else x) mask col.

(** The three masked assignments on [col_data], in the order of the source. *)
Definition discretize (col_data thresholds : column) : column :=
  let col_data :=
    mask_set (map2 andb (map2 fgtb (col_abs col_data) thresholds)
                        (map (fun x => fgeb x fzero) col_data))
             fone col_data in
  let col_data :=
    mask_set (map2 andb (map2 fgtb (col_abs col_data) thresholds)
                        (map (fun x => fltb x fzero) col_data))
             (Fin (-1)) col_data in
  mask_set (map (fun x => fneb x fone) (col_abs col_data)) fzero col_data.

(** The body of the composite loop for the pair column [col]. *)
Definition accumulate (subsignals : frame) (signals : frame) (col : string)
  : result frame :=
  let country1 := substring 0 3 col in
  let country2 := substring 3 (String.length col - 3) col in
  thresholds <- getitem subsignals "threshold" ;;
  col_data <- getitem subsignals col ;;
  let col_data := discretize col_data thresholds in
  s1 <- getitem signals (country1 ++ "USD") ;;
  let signals := setitem signals (country1 ++ "USD") (col_add s1 col_data) in
  s2 <- getitem signals (country2 ++ "USD") ;;
  Ok (setitem signals (country2 ++ "USD") (col_sub s2 col_data)).

Fixpoint composite_loop (subsignals : frame) (cols : list string)
    (signals : frame) : result frame :=
  match cols with
  | [] => Ok signals
  | col :: cols' =>
      signals' <- accumulate subsignals signals col ;;
      composite_loop subsignals cols' signals'
  end.

(** The table of raw subsignals with its [threshold] column. *)
Definition subsignals_table (T ma_window : nat) (swaps_data : frame)
    (countries : list string) : result frame :=
  let pairs := map (fun p => fst p ++ snd p) (combinations2 countries) in
  let subsignals := full T pairs NaN in
  subsignals <- outer_loop ma_window swaps_data countries subsignals ;;
  Ok (setitem subsignals "threshold"
        (quantile_axis1 T (frame_abs subsignals))).

Definition compute_signals (fixing : Fixes) (self : Backtest)
  : result Backtest :=
  let swaps_data := swaps_of fixing self in
  let signals := signals_of fixing self in
  subsignals <-
    subsignals_table (nrows self) (ma_window self) swaps_data (countries self) ;;
  signals' <-
    composite_loop subsignals (labels (drop "threshold" subsignals)) signals ;;
  Ok (set_signals fixing signals' self).

(** *** compute_positions *)

(** The two tables are built over the same [currencies] labels, so the
    assignment [self.positions[:] = nominal_exposures] replaces the cells
    of the position table by those of [nominal_exposures]. *)
Definition compute_positions (fixing : Fixes) (target_gross_exposure : Q)
    (self : Backtest) : Backtest :=
  let signal := signals_of fixing self in
  let base_amt :=
    map (fun s => fdiv (Fin target_gross_exposure) s)
        (sum_axis1 (nrows self) (frame_abs signal)) in
  let nominal_exposures := frame_map (fun col => col_mul col base_amt) signal in
  set_positions nominal_exposures self.

(** *** compute_transaction_costs *)

(** [df.reindex(columns=ls)] on a table of [R] rows: the columns of [ls] in
    that order, a column of NaN for a label the table lacks. *)
Definition reindex (R : nat) (ls : list string) (f : frame) : frame :=
  map (fun l => (l, match get l f with
                    | Some col => col
                    | None => repeat NaN R
                    end)) ls.

(** The number of rows of a table, read off its first column; the table
    without columns stands for the empty table, which has no rows. *)
Definition frame_rows (f : frame) : nat :=
  match f with
  | [] => 0
  | p :: _ => List.length (snd p)
  end.

(** [df * a] for a one-row array [a]: the row is broadcast over the time
    axis, column by position. *)
Definition mul_row (f : frame) (a : list fval) : frame :=
  map2 (fun p s => (fst p, map (fun x => fmul x s) (snd p))) f a.

(** The first row of [df.to_numpy()]. *)
Definition first_row (f : frame) : list fval := row f 0.

(** [df * a] for an array [a] with the shape of [df]: cell by cell, column
    by position. *)
Definition mul_cells (f a : frame) : frame :=
  map2 (fun p q => (fst p, col_mul (snd p) (snd q))) f a.

(** [df * a.to_numpy()] for a table [df] of [T] rows and a table [a] of [R]
    rows with the same number of columns: cell by cell when the shapes are
    equal, the single row broadcast over the time axis when [R] is 1, and
    the exception for a shape that cannot be coerced otherwise. *)
Definition mul_array (T R : nat) (f a : frame) : result frame :=
  if (R =? T)%nat then Ok (mul_cells f a)
  else if (R =? 1)%nat then Ok (mul_row f (first_row a))
  else Raise (ValueError "Unable to coerce to DataFrame").

Definition compute_transaction_costs (self : Backtest) : result frame :=
  let positions := positions self in
  match spreads self with
  | None => Raise (AttributeError "spreads")
  | Some spreads =>
      let R := frame_rows spreads in
      let spreads := reindex R (labels positions) spreads in
      let position_chg := frame_map (fun col => col_abs (diff col)) positions in
      mul_array (nrows self) R position_chg spreads
  end.

(** *** compute_pnl *)

Fixpoint insert_label (x : string) (xs : list string) : list string :=
  match xs with
  | [] => [x]
  | y :: ys => if String.leb x y then x :: xs else y :: insert_label x ys
  end.

Definition sort_labels (xs : list string) : list string :=
  fold_right insert_label [] xs.

Definition labels_eqb (a b : list string) : bool :=
  if list_eq_dec string_dec a b then true else false.

(** The outer join of two label lists: their union, sorted unless the two
    lists are equal or one of them is empty. *)
Definition union_labels (a b : list string) : list string :=
  if labels_eqb a b then a
  else match a, b with
       | [], _ => b
       | _, [] => a
       | _, _ => sort_labels (nodup string_dec (a ++ b))
       end.

(** [left.align(right, join="outer", axis=1)]. *)
Definition align (T : nat) (left right : frame) : frame * frame :=
  let ls := union_labels (labels left) (labels right) in
  (reindex T ls left, reindex T ls right).

(** [a * b] on two tables with the same labels. *)
Definition frame_mul (a b : frame) : frame :=
  map (fun p => (fst p, col_mul (snd p)
                          match get (fst p) b with
                          | Some col => col
                          | None => map (fun _ => NaN) (snd p)
                          end)) a.

Definition compute_pnl (self : Backtest) : Backtest :=
  let positions := positions self in
  let returns := frame_map pct_change (fx_lon_fixes self) in
  let '(positions, returns) := align (nrows self) positions returns in
  let pnl := frame_mul returns (frame_map shift1 positions) in
  let total := sum_axis1 (nrows self) pnl in
  let pnl := setitem pnl "total" total in
  let pnl := setitem pnl "total_pct"
               (map (fun x => fdiv x (Fin 1000000)) total) in
  set_pnl pnl self.

(** *** compute_stats *)

Section Stats.

(** The square root on the rationals that [np.sqrt] and [std] stand for. *)
Variable sqrtQ : Q -> Q.

Definition notnan (col : column) : column :=
  filter (fun x => negb (is_nan x)) col.

(** [col.mean()], skipping NaN. *)
Definition mean (col : column) : fval :=
  fdiv (nansum col) (of_nat (List.length (notnan col))).

(** [col.std()]: the sample standard deviation ([ddof=1]) of the cells
    that are not NaN; NaN with fewer than two of them.  The squared
    deviations are summed as they are, so an infinite cell (whose deviation
    from the infinite mean is NaN) makes the result NaN. *)
Definition std (col : column) : fval :=
  let xs := notnan col in
  let n := List.length xs in
  if (n <=? 1)%nat then NaN
  else
    let m := mean col in
    let sq := map (fun x => fmul (fsub m x) (fsub m x)) xs in
    fsqrt sqrtQ (fdiv (fold_right fadd fzero sq) (of_nat (n - 1))).

Definition compute_return (col : column) : fval :=
  fmul (mean col) (of_nat (List.length col)).

Definition compute_vol (col : column) : fval :=
  fmul (std col) (fsqrt sqrtQ (of_nat (List.length col))).

(** [s.resample("Y")]: one bin per calendar year from the first to the last
    year of the axis, each with the rows of that year (possibly none). *)
Definition year_range (idx : list timestamp) : list Z :=
  match map year idx with
  | [] => []
  | y :: ys =>
      let lo := fold_right Z.min y ys in
      let hi := fold_right Z.max y ys in
      map (fun k => (lo + Z.of_nat k)%Z) (seq 0 (Z.to_nat (hi - lo + 1)))
  end.

Definition year_bin (idx : list timestamp) (col : column) (y : Z) : column :=
  map snd (filter (fun p => Z.eqb (year (fst p)) y) (combine idx col)).

Definition resample_Y (idx : list timestamp) (col : column)
  : list (Z * column) :=
  map (fun y => (y, year_bin idx col y)) (year_range idx).

(** The table that [compute_stats] prints: its yearly index and its three
    columns. *)
Record stats_table : Type := mkStats {
  stats_years : list Z;
  stats_columns : frame
}.

Definition compute_stats (self : Backtest) : result stats_table :=
  match pnl self with
  | None => Raise (AttributeError "pnl")
  | Some pnl =>
      _total <- getitem pnl "total" ;;
      total_pct <- getitem pnl "total_pct" ;;
      let bins := resample_Y (index self) total_pct in
      let y_return := map (fun b => compute_return (snd b)) bins in
      let y_vol := map (fun b => compute_vol (snd b)) bins in
      let sharpe := col_div y_return y_vol in
      Ok (mkStats (map fst bins)
            [("return", y_return); ("vol", y_vol); ("sharpe", sharpe)])
  end.

End Stats.

(** *** run *)

Definition run (self : Backtest) : result Backtest :=
  self <- compute_signals LON self ;;
  let self := compute_positions LON 1000000 self in
  Ok (compute_pnl self).

(* ================================================================== *)
(** ** Position sizing in binary64

    The lines of [compute_positions] once more, over binary64 numbers: the
    sum of the absolute signals of a row (NaN skipped, from the first
    column on), the base amount of the row, the signals times the base
    amount. *)

Module Binary64.

Import PrimFloat.
Local Open Scope float_scope.

Definition column : Type := list float.
Definition frame : Type := list (string * column).

Definition cell (col : column) (t : nat) : float := nth t col nan.

Definition row (f : frame) (t : nat) : list float :=
  map (fun p => cell (snd p) t) f.

Definition is_nan (x : float) : bool := negb (x =? x).

Definition nansum (xs : list float) : float :=
  fold_left (fun acc x => if is_nan x then acc else acc + x) xs 0.

Definition sum_axis1 (T : nat) (f : frame) : column :=
  map (fun t => nansum (row f t)) (seq 0 T).

Definition frame_map (g : column -> column) (f : frame) : frame :=
  map (fun p => (fst p, g (snd p))) f.

Definition frame_abs : frame -> frame := frame_map (map abs).

(** [compute_positions] on the signal table of the session, over a time
    axis of [T] rows. *)
Definition compute_positions (T : nat) (target_gross_exposure : float)
    (signal : frame) : frame :=
  let base_amt :=
    map (fun s => target_gross_exposure / s)
        (sum_axis1 T (frame_abs signal)) in
  frame_map (fun col => map2 mul col base_amt) signal.

(** The sum over the instruments of the absolute cells of row [t]. *)
Definition gross_exposure (f : frame) (t : nat) : float :=
  nansum (map abs (row f t)).

(** The binary64 number of a whole number, and of a cell that holds one
    (the composite signals are small whole numbers, exact in binary64). *)
Fixpoint of_positive (p : positive) : float :=
  match p with
  | xH => 1
  | xO p' => 2 * of_positive p'
  | xI p' => 2 * of_positive p' + 1
  end.

Definition of_Z (z : Z) : float :=
  match z with
  | Z0 => 0
  | Zpos p => of_positive p
  | Zneg p => - of_positive p
  end.

Definition of_cell (x : fval) : float :=
  match x with
  | Fin q => of_Z (Qnum q) / of_Z (Zpos (Qden q))
  | PInf => infinity
  | NInf => neg_infinity
  | NaN => nan
  end.

Definition of_frame (f : Frame.frame) : frame :=
  map (fun p => (fst p, map of_cell (snd p))) f.

(** The default target of [compute_positions], and the binary64 number
    just below it. *)
Definition default_target : float := 1000000.
Definition below_default_target : float := 0x1.e847fffffffffp+19.

End Binary64.

(* ================================================================== *)
(** ** Vocabulary of the statements *)

(** Every column of the table has one cell per row of the time axis. *)
Definition on_axis (T : nat) (f : frame) : Prop :=
  forall c col, get c f = Some col -> List.length col = T.

(** The column a label has after [reindex]. *)
Definition column_or_nan (T : nat) (f : frame) (c : string) : column :=
  match get c f with
  | Some col => col
  | None => repeat NaN T
  end.

(** The per-instrument part of the P&L table, before the summary columns. *)
Definition instrument_pnl (self : Backtest) : frame :=
  let returns := frame_map pct_change (fx_lon_fixes self) in
  let ls := union_labels (labels (positions self)) (labels returns) in
  frame_mul (reindex (nrows self) ls returns)
            (frame_map shift1 (reindex (nrows self) ls (positions self))).

Definition pnl_total (self : Backtest) : column :=
  sum_axis1 (nrows self) (instrument_pnl self).


(** The sum over the instruments of the absolute cells of row [t]. *)
Definition gross_exposure (f : frame) (t : nat) : fval :=
  fold_right fadd fzero (map fabs (row f t)).

(** The base amount of row [t]: the target over the sum of the absolute
    signals of the row. *)
Definition base_amt (tge : Q) (signal : frame) (t : nat) : fval :=
  fdiv (Fin tge) (nansum (map fabs (row signal t))).

(** The last price present at or before row [t] of a column, NaN when
    there is none. *)
Fixpoint last_valid (col : column) (t : nat) : fval :=
  match t with
  | O => cell col 0
  | S s => if is_nan (cell col t) then last_valid col s else cell col t
  end.

(** The return of row [t + 1] in the words of the specification: the price
    of the row over the price of the row before, minus one. *)
Definition spec_ret (price : column) (t : nat) : fval :=
  fsub (fdiv (cell price (S t)) (cell price t)) fone.

(** The unit cost of an instrument at a row: the cell of the row in a
    spread table with one row per timestamp, the cell of the single row
    otherwise. *)
Definition unit_cost (T : nat) (sp : frame) (i : string) (t : nat) : fval :=
  if (frame_rows sp =? T)%nat then at_ sp i t else at_ sp i 0.

Definition Qsum (l : list Q) : Q := fold_right Qplus 0 l.

Definition on_axisb (T : nat) (f : frame) : bool :=
  forallb (fun p => (List.length (snd p) =? T)%nat) f.

(** What the three masked assignments of [discretize] do to one cell [x]
    of the pair column, against the threshold [h] of its row. *)
Definition discretize_cell (x h : fval) : fval :=
  let x1 := if fgtb (fabs x) h && fgeb x fzero then fone else x in
  let x2 := if fgtb (fabs x1) h && fltb x1 fzero then Fin (-1) else x1 in
  if fneb (fabs x2) fone then fzero else x2.

(** The labels of the two signal columns the pair column [col] updates. *)
Definition pair_keys (col : string) : string * string :=
  (substring 0 3 col ++ "USD",
   substring 3 (String.length col - 3) col ++ "USD").

(** The discretized column of the pair column [col]. *)
Definition pair_data (subsignals : frame) (col : string) : column :=
  discretize (column_or_nan 0 subsignals col)
             (column_or_nan 0 subsignals "threshold").

(** What one pass of the composite loop adds to the cell of signal column
    [c] at row [t]. *)
Definition step_delta (subsignals : frame) (col c : string) (t : nat) : fval :=
  let d := cell (pair_data subsignals col) t in
  fadd (if String.eqb (fst (pair_keys col)) c then d else fzero)
       (fneg (if String.eqb (snd (pair_keys col)) c then d else fzero)).

Fixpoint loop_delta (subsignals : frame) (cols : list string) (c : string)
    (t : nat) : fval :=
  match cols with
  | [] => fzero
  | col :: rest =>
      fadd (step_delta subsignals col c t) (loop_delta subsignals rest c t)
  end.

(** Two tables with the same column labels. *)
Definition same_dom (a b : frame) : Prop :=
  forall c, get c a = None <-> get c b = None.

(** A table whose cells are all zero, as the constructor leaves the signal
    tables. *)
Definition zero_table (f : frame) : Prop :=
  forall p, In p f -> Forall (fun x => x = Fin 0) (snd p).


Definition other (fixing : Fixes) : Fixes :=
  match fixing with LON => NY | NY => LON end.

(** A cell that holds an integer, and a table of such cells. *)
Definition integer_cell (x : fval) : Prop :=
  exists z : Z, x =~ Fin (inject_Z z).

Definition integral (f : frame) : Prop :=
  forall p, In p f -> Forall integer_cell (snd p).

(** The P&L table of an instance (empty before [compute_pnl]). *)
Definition pnl_of (self : Backtest) : frame :=
  match pnl self with Some p => p | None => [] end.

(** The instance a call leaves behind (the instance itself if it raises). *)
Definition after (r : result Backtest) (self : Backtest) : Backtest :=
  match r with Ok s => s | Raise _ => self end.

(* ================================================================== *)
(** ** Sample instances *)

Module Sample.

Definition axis (n : nat) : list timestamp :=
  map (fun k => mkTimestamp 2020 k) (seq 0 n).

Definition series (l : list Q) : column := map Fin l.

(** Two instruments, three rows. *)
Definition fx2 : frame :=
  [ ("EURUSD", series [1; 2; 3]); ("GBPUSD", series [4; 4; 5]) ].

Definition swaps2 : frame :=
  [ ("EURUSD", series [1; 3; 3]); ("GBPUSD", series [1; 1; 1]) ].

Definition two : Backtest := init (axis 3) fx2 fx2 swaps2 swaps2 2.

(** Three instruments, three rows: at the second row the pair of the first
    and the third instrument is the only one above the median. *)
Definition fx3 : frame :=
  [ ("AUDUSD", series [1; 1; 2]); ("CADUSD", series [1; 1; 1]);
    ("EURUSD", series [2; 2; 1]) ].

Definition swaps3 : frame :=
  [ ("AUDUSD", series [2; 3; 3]); ("CADUSD", series [1; 1; 1]);
    ("EURUSD", series [5; 4; 4]) ].

Definition three : Backtest := init (axis 3) fx3 fx3 swaps3 swaps3 2.

(** Four instruments, two rows: the difference of the first two swap
    columns averages to zero over the window at the second row. *)
Definition swaps4 : frame :=
  [ ("AUDUSD", series [0; 1]); ("CADUSD", series [1; 0]);
    ("CHFUSD", series [5; 7]); ("DKKUSD", series [10; 20]) ].

Definition four : Backtest := init (axis 2) swaps4 swaps4 swaps4 swaps4 2.

(** The same three instruments with NY spot fixes that differ from the LON
    ones. *)
Definition fx3_ny : frame :=
  [ ("AUDUSD", series [1; 1; 4]); ("CADUSD", series [1; 1; 1]);
    ("EURUSD", series [2; 2; 2]) ].



(** Three rows over three calendar years, the middle year without a row. *)
Definition gappy_axis : list timestamp :=
  [ mkTimestamp 2020 10; mkTimestamp 2020 11; mkTimestamp 2022 3 ].

Definition gappy : Backtest := init gappy_axis fx3 fx3 swaps3 swaps3 2.

Definition three_signals : Backtest := after (compute_signals LON three) three.

(** The three instruments with the second LON fix of the first one
    missing, and the positions the pipeline computes for them. *)
Definition fx3_gap : frame :=
  [ ("AUDUSD", [Fin 1; NaN; Fin 2]); ("CADUSD", series [1; 1; 1]);
    ("EURUSD", series [2; 2; 1]) ].

Definition gap : Backtest := init (axis 3) fx3_gap fx3_gap swaps3 swaps3 2.

Definition gap_positions : Backtest :=
  compute_positions LON 1000000 (after (compute_signals LON gap) gap).

(** Four instruments, two rows: at the second row the first instrument is
    above the median against each of the other three. *)
Definition swaps4_wide : frame :=
  [ ("AUDUSD", series [1; 5]); ("CADUSD", series [1; 1]);
    ("CHFUSD", series [2; 2]); ("DKKUSD", series [4; 4]) ].

Definition wide : Backtest :=
  init (axis 2) swaps4_wide swaps4_wide swaps4_wide swaps4_wide 2.

Definition wide_signals : Backtest := after (compute_signals LON wide) wide.

(** A signal table of six instruments over one row: three long, three
    short. *)
Definition signals6 : frame :=
  [ ("AUDUSD", series [1]); ("CADUSD", series [-1]); ("CHFUSD", series [1]);
    ("DKKUSD", series [-1]); ("EURUSD", series [1]); ("GBPUSD", series [-1]) ].

Definition six : Backtest :=
  set_signals LON signals6
    (init (axis 1) signals6 signals6 signals6 signals6 2).

(** The three rows of [three] with a position table of two instruments
    that changes at every row. *)
Definition held : Backtest :=
  set_positions
    [ ("AUDUSD", series [0; 500000; 250000]);
      ("CADUSD", series [0; -500000; -750000]) ] three.

(** A spread table with one row per timestamp of [three]. *)
Definition spreads3 : frame :=
  [ ("AUDUSD", series [1 # 1000; 2 # 1000; 3 # 1000]);
    ("EURUSD", series [1 # 1000; 1 # 1000; 1 # 1000]) ].

End Sample.



(* ================================================================== *)
(** ** Vocabulary of the further statements *)

(** A cell that is zero or missing. *)
Definition zero_or_nan (x : fval) : Prop := x = NaN \/ x =~ Fin 0.

(** Every column of the table is NaN (or has no cell) at row [t]. *)
Definition nan_row (t : nat) (f : frame) : Prop :=
  forall c col, get c f = Some col -> cell col t = NaN.

(** Two tables with the same labels whose columns have the same first [n]
    cells. *)
Definition prefix_agree (n : nat) (f f' : frame) : Prop :=
  Forall2 (fun p p' : string * column =>
             fst p = fst p' /\ firstn n (snd p) = firstn n (snd p'))
          f f'.

(** Two tables with the same labels whose columns have the same cell (or
    both none) at row [t]. *)
Definition agree_at (t : nat) (f f' : frame) : Prop :=
  Forall2 (fun p p' : string * column =>
             fst p = fst p' /\ nth_error (snd p) t = nth_error (snd p') t)
          f f'.

(** Two outcomes of a call: the same exception, or results that are
    related. *)
Definition result_rel {A : Type} (R : A -> A -> Prop) (r r' : result A)
  : Prop :=
  match r, r' with
  | Ok a, Ok a' => R a a'
  | Raise e, Raise e' => e = e'
  | _, _ => False
  end.

(** The instance with another swap table for the session. *)
Definition set_swaps (fixing : Fixes) (sw : frame) (self : Backtest)
  : Backtest :=
  match fixing with
  | LON =>
      mkBacktest (index self) (fx_lon_fixes self) (fx_ny_fixes self)
        sw (swaps_ny_fixes self) (ma_window self)
        (currencies self) (countries self) (positions self)
        (signals_lon self) (signals_ny self) (spreads self) (pnl self)
  | NY =>
      mkBacktest (index self) (fx_lon_fixes self) (fx_ny_fixes self)
        (swaps_lon_fixes self) sw (ma_window self)
        (currencies self) (countries self) (positions self)
        (signals_lon self) (signals_ny self) (spreads self) (pnl self)
  end.

(** Every label of the table is the concatenation of two of the codes
    [cs]. *)
Definition pair_labelled (cs : list string) (f : frame) : Prop :=
  forall x, In x (labels f) ->
    exists c1 c2, In c1 cs /\ In c2 cs /\ x = c1 ++ c2.

(** The sum of row [t] of a table over the columns [ls]. *)
Definition row_sum (f : frame) (ls : list string) (t : nat) : fval :=
  fold_right fadd fzero (map (fun c => at_ f c t) ls).

(** The sum over the instruments of the cells of row [t], with their
    signs. *)
Definition net_exposure (f : frame) (t : nat) : fval :=
  fold_right fadd fzero (row f t).

(* ================================================================== *)
(** ** Sample runs *)

Module Runs.

(** The gappy sample after signals and positions for LON. *)
Definition gappy_positions : Backtest :=
  compute_positions LON 1000000
    (after (compute_signals LON Sample.gappy) Sample.gappy).

(** The three-instrument sample with other swap rates in the last row. *)
Definition swaps3_late : frame :=
  [ ("AUDUSD", Sample.series [2; 3; 9]); ("CADUSD", Sample.series [1; 1; 7]);
    ("EURUSD", Sample.series [5; 4; 0]) ].

Definition three_late : Backtest := set_swaps LON swaps3_late Sample.three.

Definition three_late_signals : Backtest :=
  after (compute_signals LON three_late) three_late.

Definition two_signals : Backtest :=
  after (compute_signals LON Sample.two) Sample.two.

(** The raw subsignal of the pair of the two-instrument sample. *)
Definition two_subsignal : column :=
  match pair_subsignal 2 Sample.swaps2 "EUR" "GBP" with
  | Ok s => s
  | Raise _ => []
  end.

End Runs.
(* ================================================================== *)
(** * Properties *)

(** ** Cell arithmetic *)

Section CellFacts.

Lemma feq_refl x : x =~ x.
Proof. destruct x; simpl; auto. reflexivity. Qed.

Lemma feq_sym x y : x =~ y -> y =~ x.
Proof. destruct x, y; simpl; auto. intros H; symmetry; exact H. Qed.

Lemma feq_trans x y z : x =~ y -> y =~ z -> x =~ z.
Proof.
  destruct x, y, z; simpl; auto; try contradiction.
  intros H1 H2; rewrite H1; exact H2.
Qed.

Lemma fadd_nan_l x : fadd NaN x = NaN.
Proof. reflexivity. Qed.

Lemma fadd_nan_r x : fadd x NaN = NaN.
Proof. destruct x; reflexivity. Qed.

Lemma fsub_nan_l x : fsub NaN x = NaN.
Proof. reflexivity. Qed.

Lemma fsub_nan_r x : fsub x NaN = NaN.
Proof. destruct x; reflexivity. Qed.

Lemma fmul_nan_l x : fmul NaN x = NaN.
Proof. reflexivity. Qed.

Lemma fmul_nan_r x : fmul x NaN = NaN.
Proof. destruct x; reflexivity. Qed.

Lemma fdiv_nan_l x : fdiv NaN x = NaN.
Proof. reflexivity. Qed.

Lemma fdiv_nan_r x : fdiv x NaN = NaN.
Proof. destruct x; reflexivity. Qed.

Lemma fabs_nan_inv x : fabs x = NaN -> x = NaN.
Proof. destruct x; simpl; congruence. Qed.

Lemma Qeq_bool_true a b : a == b -> Qeq_bool a b = true.
Proof. intros H; apply Qeq_bool_iff; exact H. Qed.

Lemma Qeq_bool_false a b : ~ a == b -> Qeq_bool a b = false.
Proof.
  intros H; destruct (Qeq_bool a b) eqn:E; auto.
  apply Qeq_bool_iff in E; contradiction.
Qed.

Lemma Qltb_true a b : a < b -> Qltb a b = true.
Proof.
  intros H; unfold Qltb; destruct (Qle_bool b a) eqn:E; auto.
  apply Qle_bool_iff in E; lra.
Qed.

Lemma Qltb_false a b : b <= a -> Qltb a b = false.
Proof.
  intros H; unfold Qltb. apply Qle_bool_iff in H. rewrite H; reflexivity.
Qed.

(** A zero cell times anything that a division by zero can give is NaN. *)
Lemma fmul_zero_div_zero q tge s :
  q == 0 -> s == 0 -> fmul (Fin q) (fdiv (Fin tge) (Fin s)) = NaN.
Proof.
  intros Hq Hs; simpl. rewrite (Qeq_bool_true _ _ Hs).
  destruct (Qeq_bool tge 0); [reflexivity|].
  destruct (Qltb 0 tge); simpl; unfold inf_times;
    rewrite (Qeq_bool_true _ _ Hq); reflexivity.
Qed.

Lemma fadd_comm x y : fadd x y =~ fadd y x.
Proof. destruct x, y; simpl; auto. ring. Qed.

Lemma fadd_assoc x y z : fadd (fadd x y) z =~ fadd x (fadd y z).
Proof. destruct x, y, z; simpl; auto. ring. Qed.

Lemma fadd_feq x x' y y' : x =~ x' -> y =~ y' -> fadd x y =~ fadd x' y'.
Proof.
  destruct x, x', y, y'; simpl; auto; try contradiction.
  intros H1 H2; rewrite H1, H2; reflexivity.
Qed.

Lemma fneg_feq x x' : x =~ x' -> fneg x =~ fneg x'.
Proof.
  destruct x, x'; simpl; auto. intros H; rewrite H; reflexivity.
Qed.

Lemma fsub_feq x x' y y' : x =~ x' -> y =~ y' -> fsub x y =~ fsub x' y'.
Proof. intros; unfold fsub; apply fadd_feq; auto using fneg_feq. Qed.

Lemma fadd_zero_l x : fadd fzero x =~ x.
Proof. destruct x; simpl; auto. ring. Qed.

Lemma fmul_two x : fmul (Fin 2) x =~ fadd x x.
Proof. destruct x; simpl; auto. ring. Qed.

End CellFacts.

(** ** Series and tables *)

Section FrameFacts.

Lemma cell_nil t : cell [] t = NaN.
Proof. destruct t; reflexivity. Qed.

Lemma cell_overflow col t : (List.length col <= t)%nat -> cell col t = NaN.
Proof. intros H; unfold cell; apply nth_overflow; exact H. Qed.

Lemma cell_nth_error col t x : nth_error col t = Some x -> cell col t = x.
Proof. intros H; unfold cell; apply nth_error_nth; exact H. Qed.

(** A cell of an elementwise operation that propagates NaN is the
    operation on the cells, also outside the columns. *)
Lemma cell_map2 (g : fval -> fval -> fval) a b t :
  (forall y, g NaN y = NaN) -> (forall x, g x NaN = NaN) ->
  cell (map2 g a b) t = g (cell a t) (cell b t).
Proof.
  intros Hl Hr; revert b t.
  induction a as [|x a IH]; intros b t.
  - simpl; rewrite !cell_nil, Hl; reflexivity.
  - destruct b as [|y b].
    + simpl; rewrite !cell_nil, Hr; reflexivity.
    + destruct t as [|t]; [reflexivity|].
      change (cell (map2 g a b) t = g (cell a t) (cell b t)). apply IH.
Qed.

Lemma cell_map (g : fval -> fval) a t :
  g NaN = NaN -> cell (map g a) t = g (cell a t).
Proof.
  intros Hg; revert t; induction a as [|x a IH]; intros t.
  - simpl; rewrite !cell_nil, Hg; reflexivity.
  - destruct t as [|t]; [reflexivity|].
    change (cell (map g a) t = g (cell a t)). apply IH.
Qed.

Lemma cell_col_mul a b t : cell (col_mul a b) t = fmul (cell a t) (cell b t).
Proof. apply cell_map2; [apply fmul_nan_l | apply fmul_nan_r]. Qed.

Lemma cell_col_add a b t : cell (col_add a b) t = fadd (cell a t) (cell b t).
Proof. apply cell_map2; [apply fadd_nan_l | apply fadd_nan_r]. Qed.

Lemma cell_col_sub a b t : cell (col_sub a b) t = fsub (cell a t) (cell b t).
Proof. apply cell_map2; [apply fsub_nan_l | apply fsub_nan_r]. Qed.

Lemma cell_col_div a b t : cell (col_div a b) t = fdiv (cell a t) (cell b t).
Proof. apply cell_map2; [apply fdiv_nan_l | apply fdiv_nan_r]. Qed.

Lemma cell_col_abs a t : cell (col_abs a) t = fabs (cell a t).
Proof. apply cell_map; reflexivity. Qed.

Lemma cell_removelast col t :
  (S t < List.length col)%nat -> cell (removelast col) t = cell col t.
Proof.
  revert t; induction col as [|x col IH]; intros t H; simpl in H; [lia|].
  destruct col as [|y col]; [simpl in H; lia|].
  destruct t as [|t]; [reflexivity|].
  change (cell (removelast (y :: col)) t = cell (y :: col) t).
  apply IH; simpl in *; lia.
Qed.

Lemma length_removelast (col : column) :
  List.length (removelast col) = pred (List.length col).
Proof.
  induction col as [|x col IH]; [reflexivity|].
  destruct col as [|y col]; [reflexivity|].
  change (S (List.length (removelast (y :: col))) = S (@List.length fval col)).
  rewrite IH; reflexivity.
Qed.

Lemma length_shift1 col : List.length (shift1 col) = List.length col.
Proof.
  destruct col as [|x col]; [reflexivity|].
  unfold shift1. cbn [List.length]. rewrite length_removelast. reflexivity.
Qed.

Lemma cell_shift1_0 col : cell (shift1 col) 0 = NaN.
Proof. destruct col; reflexivity. Qed.

(** Inside the column the shifted cell is the cell one row above; the
    shifted column has no cell outside. *)
Lemma cell_shift1_S col t :
  cell (shift1 col) (S t) =
  if (S t <? List.length col)%nat then cell col t else NaN.
Proof.
  destruct (S t <? List.length col)%nat eqn:E.
  - apply Nat.ltb_lt in E. destruct col as [|x col]; [simpl in E; lia|].
    change (cell (removelast (x :: col)) t = cell (x :: col) t).
    apply cell_removelast; exact E.
  - apply Nat.ltb_ge in E. apply cell_overflow.
    rewrite length_shift1; exact E.
Qed.

(** A NaN cell stays NaN one row below in the shifted column. *)
Lemma cell_shift1_nan col t : cell col t = NaN -> cell (shift1 col) (S t) = NaN.
Proof.
  intros H; rewrite cell_shift1_S.
  destruct (S t <? List.length col)%nat; auto.
Qed.

Lemma cell_diff_0 col : cell (diff col) 0 = NaN.
Proof.
  unfold diff; rewrite cell_col_sub, cell_shift1_0. apply fsub_nan_r.
Qed.

Lemma cell_diff_S col t :
  cell (diff col) (S t) = fsub (cell col (S t)) (cell col t).
Proof.
  unfold diff; rewrite cell_col_sub, cell_shift1_S.
  destruct (S t <? List.length col)%nat eqn:E; [reflexivity|].
  apply Nat.ltb_ge in E. rewrite (cell_overflow col (S t) E). reflexivity.
Qed.

Lemma cell_ffill_from last col t :
  cell col t <> NaN -> cell (ffill_from last col) t = cell col t.
Proof.
  revert last t; induction col as [|x col IH]; intros last t H.
  - rewrite cell_nil in H. congruence.
  - destruct t as [|t].
    + cbn [ffill_from]. unfold cell in *. cbn [nth] in *.
      destruct x; try reflexivity. congruence.
    + cbn [ffill_from].
      change (cell (ffill_from (if is_nan x then last else x) col) t = cell col t).
      apply IH. exact H.
Qed.

(** Forward filling keeps every price that is present. *)
Lemma cell_ffill col t : cell col t <> NaN -> cell (ffill col) t = cell col t.
Proof. apply cell_ffill_from. Qed.

Lemma cell_pct_change_0 col : cell (pct_change col) 0 = NaN.
Proof.
  unfold pct_change. rewrite cell_map by reflexivity.
  rewrite cell_col_div, cell_shift1_0, fdiv_nan_r. reflexivity.
Qed.

(** Between two prices that are present the return is their ratio minus
    one. *)
Lemma cell_pct_change_S col t :
  cell col t <> NaN -> cell col (S t) <> NaN ->
  cell (pct_change col) (S t) =
  fsub (fdiv (cell col (S t)) (cell col t)) fone.
Proof.
  intros H0 H1. unfold pct_change. rewrite cell_map by reflexivity.
  rewrite cell_col_div, cell_shift1_S.
  destruct (S t <? List.length (ffill col))%nat eqn:E.
  - rewrite !cell_ffill by assumption. reflexivity.
  - apply Nat.ltb_ge in E.
    rewrite <- (cell_ffill col (S t) H1), (cell_overflow _ (S t) E). reflexivity.
Qed.

(** Forward filling, row by row: a cell that is present stays, a missing
    one takes the filled cell of the row above. *)
Lemma cell_ffill_from_S last col t :
  (S t < List.length col)%nat ->
  cell (ffill_from last col) (S t) =
  if is_nan (cell col (S t)) then cell (ffill_from last col) t
  else cell col (S t).
Proof.
  revert last t; induction col as [|x col IH]; intros last t H;
    [simpl in H; lia|].
  cbn [ffill_from].
  change (cell (ffill_from (if is_nan x then last else x) col) t =
          if is_nan (cell col t)
          then cell ((if is_nan x then last else x)
                       :: ffill_from (if is_nan x then last else x) col) t
          else cell col t).
  destruct t as [|t].
  - destruct col as [|y col]; [simpl in H; lia|]. reflexivity.
  - apply IH. simpl in H. lia.
Qed.

(** The filled price of a row is the last price present at or before it. *)
Lemma cell_ffill_last col t :
  (t < List.length col)%nat -> cell (ffill col) t = last_valid col t.
Proof.
  induction t as [|t IH]; intros H.
  - destruct col as [|x col]; [simpl in H; lia|].
    unfold ffill. cbn [ffill_from last_valid]. unfold cell; cbn [nth].
    destruct x; reflexivity.
  - unfold ffill. rewrite cell_ffill_from_S by exact H.
    cbn [last_valid]. fold (ffill col). rewrite IH by lia. reflexivity.
Qed.

Lemma length_ffill_from last col :
  List.length (ffill_from last col) = List.length col.
Proof.
  revert last; induction col as [|x col IH]; intros last; [reflexivity|].
  simpl. rewrite IH. reflexivity.
Qed.

(** The return of a row inside the column, on the filled prices. *)
Lemma cell_pct_change_last col t :
  (S t < List.length col)%nat ->
  cell (pct_change col) (S t) =
  fsub (fdiv (last_valid col (S t)) (last_valid col t)) fone.
Proof.
  intros H. unfold pct_change. rewrite cell_map by reflexivity.
  rewrite cell_col_div, cell_shift1_S.
  replace (List.length (ffill col)) with (List.length col)
    by (symmetry; apply length_ffill_from).
  apply Nat.ltb_lt in H. rewrite H. apply Nat.ltb_lt in H.
  rewrite !cell_ffill_last by lia. reflexivity.
Qed.

Lemma cell_repeat_nan n t : cell (repeat NaN n) t = NaN.
Proof.
  revert t; induction n as [|n IH]; intros t; simpl; [apply cell_nil|].
  destruct t as [|t]; [reflexivity|].
  change (cell (repeat NaN n) t = NaN). apply IH.
Qed.

Lemma last_valid_repeat_nan n t : last_valid (repeat NaN n) t = NaN.
Proof.
  induction t as [|t IH]; cbn [last_valid]; rewrite cell_repeat_nan;
    [reflexivity | exact IH].
Qed.

Lemma cell_seq_map (g : nat -> fval) T t :
  (t < T)%nat -> cell (map g (seq 0 T)) t = g t.
Proof.
  intros H; unfold cell.
  rewrite (nth_indep _ NaN (g 0%nat)) by (rewrite length_map, length_seq; exact H).
  rewrite map_nth, seq_nth by exact H. reflexivity.
Qed.

Lemma get_frame_map g c f : get c (frame_map g f) = option_map g (get c f).
Proof.
  induction f as [|[l col] f IH]; [reflexivity|].
  simpl; destruct (String.eqb l c); [reflexivity | exact IH].
Qed.

Lemma get_setitem_eq f c col : get c (setitem f c col) = Some col.
Proof.
  induction f as [|[l old] f IH]; simpl.
  - rewrite String.eqb_refl; reflexivity.
  - destruct (String.eqb l c) eqn:E; simpl; rewrite E; [reflexivity | exact IH].
Qed.

Lemma get_setitem_neq f c c' col :
  c <> c' -> get c (setitem f c' col) = get c f.
Proof.
  intros Hne; induction f as [|[l old] f IH]; simpl.
  - destruct (String.eqb c' c) eqn:E; [|reflexivity].
    apply String.eqb_eq in E; congruence.
  - destruct (String.eqb l c') eqn:E; simpl.
    + apply String.eqb_eq in E; subst l.
      destruct (String.eqb c' c) eqn:E'; [|reflexivity].
      apply String.eqb_eq in E'; congruence.
    + destruct (String.eqb l c); [reflexivity | exact IH].
Qed.

Lemma get_map_label (g : string -> column) c ls :
  get c (map (fun l => (l, g l)) ls) =
  if in_dec string_dec c ls then Some (g c) else None.
Proof.
  induction ls as [|l ls IH]; [reflexivity|].
  simpl. destruct (String.eqb l c) eqn:E.
  - apply String.eqb_eq in E; subst l.
    destruct (string_dec c c); [reflexivity | congruence].
  - apply String.eqb_neq in E.
    destruct (string_dec l c); [congruence|].
    rewrite IH. destruct (in_dec string_dec c ls); reflexivity.
Qed.

Lemma get_in_labels c f col : get c f = Some col -> In c (labels f).
Proof.
  induction f as [|[l old] f IH]; simpl; [discriminate|].
  destruct (String.eqb l c) eqn:E; intros H.
  - left; apply String.eqb_eq; exact E.
  - right; apply IH; exact H.
Qed.

Lemma get_in c f col : get c f = Some col -> In (c, col) f.
Proof.
  induction f as [|[l old] f IH]; simpl; [discriminate|].
  destruct (String.eqb l c) eqn:E; intros H.
  - apply String.eqb_eq in E; inversion H; subst; left; reflexivity.
  - right; apply IH; exact H.
Qed.

Lemma at_missing f c t : get c f = None -> at_ f c t = NaN.
Proof. intros H; unfold at_; rewrite H; reflexivity. Qed.

End FrameFacts.

(** ** P&L: the one-row lag (C1) *)

Section PnL.

Lemma pnl_compute_pnl self :
  pnl (compute_pnl self) =
  Some (setitem (setitem (instrument_pnl self) "total" (pnl_total self))
          "total_pct" (map (fun x => fdiv x (Fin 1000000)) (pnl_total self))).
Proof. reflexivity. Qed.

Lemma In_insert_label x y l : In x (insert_label y l) <-> x = y \/ In x l.
Proof.
  induction l as [|z l IH]; simpl.
  - split; intros [H|H]; auto.
  - destruct (String.leb y z); simpl; [intuition|].
    rewrite IH; intuition.
Qed.

Lemma In_sort_labels x l : In x (sort_labels l) <-> In x l.
Proof.
  induction l as [|y l IH]; simpl; [tauto|].
  rewrite In_insert_label, IH. intuition.
Qed.

Lemma In_union_labels x a b : In x (union_labels a b) <-> In x a \/ In x b.
Proof.
  unfold union_labels, labels_eqb.
  destruct (list_eq_dec string_dec a b) as [E|E].
  - subst b; tauto.
  - destruct a as [|y a]; [simpl; tauto|].
    destruct b as [|z b]; [simpl; tauto|].
    rewrite In_sort_labels, nodup_In, in_app_iff. tauto.
Qed.

Lemma get_none_not_in c f : get c f = None <-> ~ In c (labels f).
Proof.
  induction f as [|[l col] f IH]; simpl; [tauto|].
  destruct (String.eqb l c) eqn:E.
  - apply String.eqb_eq in E. split; [discriminate | intros H; exfalso; auto].
  - apply String.eqb_neq in E. rewrite IH. tauto.
Qed.

Lemma get_reindex R ls f c :
  get c (reindex R ls f) =
  if in_dec string_dec c ls then Some (column_or_nan R f c) else None.
Proof. unfold reindex, column_or_nan. apply (get_map_label (fun l => match get l f with Some col => col | None => repeat NaN R end)). Qed.

Lemma get_frame_mul a b c :
  get c (frame_mul a b) =
  match get c a with
  | Some ca => Some (col_mul ca match get c b with
                               | Some cb => cb
                               | None => map (fun _ => NaN) ca
                               end)
  | None => None
  end.
Proof.
  induction a as [|[l ca] a IH]; [reflexivity|].
  simpl. destruct (String.eqb l c) eqn:E; [|exact IH].
  apply String.eqb_eq in E; subst l; reflexivity.
Qed.

Lemma labels_frame_map g f : labels (frame_map g f) = labels f.
Proof. unfold labels, frame_map; rewrite map_map; reflexivity. Qed.

Lemma length_column_or_nan T f c :
  on_axis T f -> List.length (column_or_nan T f c) = T.
Proof.
  intros H; unfold column_or_nan. destruct (get c f) eqn:E.
  - apply (H c); exact E.
  - apply repeat_length.
Qed.

Lemma cell_column_or_nan T f c t : cell (column_or_nan T f c) t = at_ f c t.
Proof.
  unfold column_or_nan, at_. destruct (get c f); [reflexivity|].
  apply cell_repeat_nan.
Qed.

(** The cell of an instrument column of the P&L table: the return of the
    row times the cell of the shifted position column. *)
Lemma at_instrument_pnl self i t :
  at_ (instrument_pnl self) i t =
  fmul (at_ (frame_map pct_change (fx_lon_fixes self)) i t)
       (cell (shift1 (column_or_nan (nrows self) (positions self) i)) t).
Proof.
  unfold instrument_pnl, at_ at 1.
  rewrite get_frame_mul, get_frame_map, !get_reindex.
  destruct (in_dec string_dec i _) as [Hin|Hout]; simpl.
  - rewrite cell_col_mul, cell_column_or_nan. reflexivity.
  - assert (Hn : get i (frame_map pct_change (fx_lon_fixes self)) = None).
    { apply get_none_not_in. intros H; apply Hout.
      apply In_union_labels; right; exact H. }
    rewrite (at_missing _ _ t Hn). reflexivity.
Qed.

Lemma at_returns f i t :
  at_ f i t <> NaN -> at_ f i (S t) <> NaN ->
  at_ (frame_map pct_change f) i (S t) =
  fsub (fdiv (at_ f i (S t)) (at_ f i t)) fone.
Proof.
  unfold at_. rewrite get_frame_map. destruct (get i f); simpl.
  - apply cell_pct_change_S.
  - congruence.
Qed.

Lemma at_returns_0 f i : at_ (frame_map pct_change f) i 0 = NaN.
Proof.
  unfold at_. rewrite get_frame_map. destruct (get i f); simpl.
  - apply cell_pct_change_0.
  - reflexivity.
Qed.

(** On a spot table that fills the time axis, the return of a row is the
    ratio of the padded prices, minus one. *)
Lemma at_returns_last T f i t :
  on_axis T f -> (S t < T)%nat ->
  at_ (frame_map pct_change f) i (S t) =
  fsub (fdiv (last_valid (column_or_nan T f i) (S t))
             (last_valid (column_or_nan T f i) t)) fone.
Proof.
  intros Hax Ht. unfold at_, column_or_nan. rewrite get_frame_map.
  destruct (get i f) as [col|] eqn:E; cbn [option_map].
  - apply cell_pct_change_last. rewrite (Hax i col E). exact Ht.
  - rewrite !last_valid_repeat_nan. reflexivity.
Qed.

(** On a table that fills the time axis the shifted cell of row [t+1] is
    the cell of row [t]. *)
Lemma cell_shift1_on_axis T f c t :
  on_axis T f ->
  cell (shift1 (column_or_nan T f c)) t =
  match t with
  | O => NaN
  | S s => if (S s <? T)%nat then at_ f c s else NaN
  end.
Proof.
  intros H. destruct t as [|s]; [apply cell_shift1_0|].
  rewrite cell_shift1_S, (length_column_or_nan T f c H), cell_column_or_nan.
  reflexivity.
Qed.

Lemma at_pnl_instrument self i t :
  i <> "total" -> i <> "total_pct" ->
  at_ (setitem (setitem (instrument_pnl self) "total" (pnl_total self))
         "total_pct" (map (fun x => fdiv x (Fin 1000000)) (pnl_total self))) i t
  = at_ (instrument_pnl self) i t.
Proof.
  intros H1 H2. unfold at_.
  rewrite !get_setitem_neq by assumption. reflexivity.
Qed.

Lemma at_pnl_total self t :
  at_ (setitem (setitem (instrument_pnl self) "total" (pnl_total self))
         "total_pct" (map (fun x => fdiv x (Fin 1000000)) (pnl_total self)))
      "total" t
  = cell (pnl_total self) t.
Proof.
  unfold at_. rewrite get_setitem_neq by discriminate.
  rewrite get_setitem_eq. reflexivity.
Qed.

Lemma at_pnl_total_pct self t :
  at_ (setitem (setitem (instrument_pnl self) "total" (pnl_total self))
         "total_pct" (map (fun x => fdiv x (Fin 1000000)) (pnl_total self)))
      "total_pct" t
  = fdiv (cell (pnl_total self) t) (Fin 1000000).
Proof.
  unfold at_. rewrite get_setitem_eq. apply cell_map. reflexivity.
Qed.

End PnL.

Section PnLLag.

Lemma row_frame_mul_reindex T ls r b t :
  row (frame_mul (reindex T ls r) b) t =
  map (fun l =>
         cell (col_mul (column_or_nan T r l)
                 match get l b with
                 | Some cb => cb
                 | None => map (fun _ => NaN) (column_or_nan T r l)
                 end) t) ls.
Proof.
  unfold row, frame_mul, reindex, column_or_nan.
  rewrite !map_map. reflexivity.
Qed.

Lemma row_instrument_pnl self t :
  row (instrument_pnl self) t =
  map (fun l =>
         fmul (cell (column_or_nan (nrows self)
                       (frame_map pct_change (fx_lon_fixes self)) l) t)
              (cell (shift1 (column_or_nan (nrows self) (positions self) l)) t))
      (union_labels (labels (positions self))
         (labels (frame_map pct_change (fx_lon_fixes self)))).
Proof.
  unfold instrument_pnl. rewrite row_frame_mul_reindex.
  apply map_ext_in. intros l Hl.
  rewrite get_frame_map, get_reindex.
  destruct (in_dec string_dec l _) as [_|Hout]; [|contradiction].
  cbn [option_map]. rewrite cell_col_mul. reflexivity.
Qed.

Lemma cell_pnl_total self t :
  cell (pnl_total self) t =
  if (t <? nrows self)%nat then nansum (row (instrument_pnl self) t) else NaN.
Proof.
  unfold pnl_total, sum_axis1.
  destruct (t <? nrows self)%nat eqn:E.
  - apply Nat.ltb_lt in E.
    apply (cell_seq_map (fun t => nansum (row (instrument_pnl self) t))); exact E.
  - apply Nat.ltb_ge in E. apply cell_overflow.
    rewrite length_map, length_seq; exact E.
Qed.

(** C1, as the code has it: every instrument cell of the P&L table is the
    return of its row times the position of the row before, the first row
    being NaN; the return is the padded price of the row (the last price
    present at or before it) over the padded price of the row before,
    minus one, which between two prices that are present is the price over
    the previous price, minus one; hence row [t] of the whole table (the
    two summary columns included) is unchanged when the position table is
    replaced by one that agrees with it on the rows before [t]. *)
Theorem compute_pnl_lagged_position (self : Backtest) :
  on_axis (nrows self) (positions self) ->
  exists p, pnl (compute_pnl self) = Some p /\
    (forall i, i <> "total" -> i <> "total_pct" ->
       at_ p i 0 = NaN /\
       forall t, (S t < nrows self)%nat ->
         at_ p i (S t) =
         fmul (at_ (frame_map pct_change (fx_lon_fixes self)) i (S t))
              (at_ (positions self) i t) /\
         (on_axis (nrows self) (fx_lon_fixes self) ->
          at_ p i (S t) =
          fmul (fsub (fdiv (last_valid
                              (column_or_nan (nrows self) (fx_lon_fixes self) i)
                              (S t))
                           (last_valid
                              (column_or_nan (nrows self) (fx_lon_fixes self) i)
                              t)) fone)
               (at_ (positions self) i t)) /\
         (at_ (fx_lon_fixes self) i t <> NaN ->
          at_ (fx_lon_fixes self) i (S t) <> NaN ->
          at_ p i (S t) =
          fmul (fsub (fdiv (at_ (fx_lon_fixes self) i (S t))
                           (at_ (fx_lon_fixes self) i t)) fone)
               (at_ (positions self) i t))) /\
    (forall q t,
       on_axis (nrows self) q -> labels q = labels (positions self) ->
       (forall i s, (s < t)%nat -> at_ q i s = at_ (positions self) i s) ->
       exists p', pnl (compute_pnl (set_positions q self)) = Some p' /\
         forall c, at_ p' c t = at_ p c t).
Proof.
  intros Hax. eexists; split; [apply pnl_compute_pnl|]. split.
  - intros i H1 H2. split.
    + rewrite at_pnl_instrument, at_instrument_pnl, at_returns_0 by assumption.
      reflexivity.
    + intros t Ht.
      rewrite at_pnl_instrument, at_instrument_pnl by assumption.
      rewrite (cell_shift1_on_axis _ _ i (S t) Hax).
      pose proof Ht as Hlt. apply Nat.ltb_lt in Ht; rewrite Ht.
      split; [reflexivity|]. split.
      * intros Hfx. rewrite (at_returns_last _ _ i t Hfx Hlt). reflexivity.
      * intros Hp0 Hp1. rewrite at_returns by assumption. reflexivity.
  - intros q t Hq Hl Hagree.
    eexists; split; [apply pnl_compute_pnl|].
    assert (Hshift : forall l,
      cell (shift1 (column_or_nan (nrows self) q l)) t =
      cell (shift1 (column_or_nan (nrows self) (positions self) l)) t).
    { intros l. rewrite !cell_shift1_on_axis by assumption.
      destruct t as [|s]; [reflexivity|].
      destruct (S s <? nrows self)%nat; [|reflexivity].
      apply Hagree; lia. }
    assert (Htot : cell (pnl_total (set_positions q self)) t =
                   cell (pnl_total self) t).
    { rewrite !cell_pnl_total. change (nrows (set_positions q self)) with (nrows self).
      destruct (t <? nrows self)%nat; [|reflexivity].
      f_equal. rewrite !row_instrument_pnl.
      change (positions (set_positions q self)) with q.
      change (fx_lon_fixes (set_positions q self)) with (fx_lon_fixes self).
      change (nrows (set_positions q self)) with (nrows self).
      rewrite Hl. apply map_ext. intros l. rewrite Hshift. reflexivity. }
    intros c.
    destruct (string_dec c "total") as [->|H1].
    { rewrite !at_pnl_total. exact Htot. }
    destruct (string_dec c "total_pct") as [->|H2].
    { rewrite !at_pnl_total_pct, Htot. reflexivity. }
    rewrite !at_pnl_instrument, !at_instrument_pnl by assumption.
    change (positions (set_positions q self)) with q.
    change (fx_lon_fixes (set_positions q self)) with (fx_lon_fixes self).
    change (nrows (set_positions q self)) with (nrows self).
    rewrite Hshift. reflexivity.
Qed.

End PnLLag.

Lemma on_axisb_correct T f : on_axisb T f = true -> on_axis T f.
Proof.
  unfold on_axisb; intros H c col Hget.
  rewrite forallb_forall in H.
  apply get_in in Hget. apply H in Hget. apply Nat.eqb_eq in Hget. exact Hget.
Qed.

Lemma compute_pnl_lagged_position_witness :
  exists p,
    pnl (compute_pnl Sample.gap_positions) = Some p /\
    at_ (fx_lon_fixes Sample.gap_positions) "AUDUSD" 1 = NaN /\
    at_ p "AUDUSD" 2 =
    fmul (fsub (fdiv (Fin 2) (Fin 1)) fone)
         (at_ (positions Sample.gap_positions) "AUDUSD" 1) /\
    at_ p "AUDUSD" 2 =~ Fin 500000 /\
    at_ p "EURUSD" 2 =
    fmul (fsub (fdiv (Fin 1) (Fin 2)) fone)
         (at_ (positions Sample.gap_positions) "EURUSD" 1).
Proof.
  destruct (compute_pnl_lagged_position Sample.gap_positions)
    as [p [Hp [Hcell _]]].
  - apply on_axisb_correct. reflexivity.
  - exists p. split; [exact Hp|]. split; [reflexivity|].
    destruct (Hcell "AUDUSD") as [_ Haud]; [discriminate | discriminate |].
    destruct (Haud 1%nat) as [_ [Hpad _]]; [vm_compute; lia|].
    assert (E : at_ p "AUDUSD" 2 =
                fmul (fsub (fdiv (Fin 2) (Fin 1)) fone)
                     (at_ (positions Sample.gap_positions) "AUDUSD" 1)).
    { apply Hpad. apply on_axisb_correct. reflexivity. }
    split; [exact E|]. split; [rewrite E; vm_compute; reflexivity|].
    destruct (Hcell "EURUSD") as [_ Heur]; [discriminate | discriminate |].
    destruct (Heur 1%nat) as [_ [_ Hratio]]; [vm_compute; lia|].
    apply Hratio; discriminate.
Defined.

(** C1 fails as stated next to a missing price: the second fix of the
    first instrument is missing, so the return of the third row in the
    words of the claim, the price over the previous price minus one, is
    NaN and so is its product with the position of the second row; the
    P&L cell of the table is the padded return 2/1 - 1 times that
    position. *)
Lemma pnl_beside_missing_price :
  at_ (fx_lon_fixes Sample.gap_positions) "AUDUSD" 1 = NaN /\
  at_ (positions Sample.gap_positions) "AUDUSD" 1 =~ Fin 500000 /\
  spec_ret (column_or_nan 3 (fx_lon_fixes Sample.gap_positions) "AUDUSD") 1
    = NaN /\
  fmul (spec_ret (column_or_nan 3 (fx_lon_fixes Sample.gap_positions) "AUDUSD") 1)
       (at_ (positions Sample.gap_positions) "AUDUSD" 1) = NaN /\
  at_ (pnl_of (compute_pnl Sample.gap_positions)) "AUDUSD" 2 =~ Fin 500000 /\
  at_ (pnl_of (compute_pnl Sample.gap_positions)) "AUDUSD" 2 <> NaN.
Proof.
  vm_compute. repeat split; try reflexivity; discriminate.
Qed.

(** ** Positions: the gross exposure (C2) *)

Section GrossExposure.

Lemma Qsum_cons q l : Qsum (q :: l) = q + Qsum l.
Proof. reflexivity. Qed.

Lemma nansum_fins qs : nansum (map Fin qs) = Fin (Qsum qs).
Proof.
  unfold nansum. induction qs as [|q qs IH]; [reflexivity|].
  cbn [map filter is_nan negb fold_right]. rewrite IH. reflexivity.
Qed.

Lemma fsum_fins qs : fold_right fadd fzero (map Fin qs) = Fin (Qsum qs).
Proof.
  induction qs as [|q qs IH]; [reflexivity|].
  cbn [map fold_right]. rewrite IH. reflexivity.
Qed.

Lemma Qsum_abs_nonneg qs : 0 <= Qsum (map Qabs qs).
Proof.
  induction qs as [|q qs IH]; [unfold Qsum; simpl; lra|].
  cbn [map]. rewrite Qsum_cons.
  pose proof (Qabs_nonneg q). lra.
Qed.

Lemma Qsum_abs_ge q qs : In q qs -> Qabs q <= Qsum (map Qabs qs).
Proof.
  induction qs as [|r qs IH]; [intros []|].
  cbn [map]. rewrite Qsum_cons. intros [->|H].
  - pose proof (Qsum_abs_nonneg qs). lra.
  - pose proof (Qabs_nonneg r). specialize (IH H). lra.
Qed.

Lemma Qsum_abs_scale b qs :
  Qsum (map Qabs (map (fun q => q * b) qs)) == Qabs b * Qsum (map Qabs qs).
Proof.
  induction qs as [|q qs IH]; [unfold Qsum; simpl; ring|].
  cbn [map]. rewrite !Qsum_cons, IH, Qabs_Qmult. ring.
Qed.

Lemma Qabs_pos_lt q : ~ q == 0 -> 0 < Qabs q.
Proof.
  intros Hq. destruct (Qlt_le_dec q 0) as [H|H].
  - rewrite Qabs_neg by lra. lra.
  - rewrite Qabs_pos by exact H.
    destruct (Qlt_le_dec 0 q) as [H'|H']; [exact H'|].
    exfalso; apply Hq; lra.
Qed.

Lemma row_finite f t :
  (forall p, In p f -> exists q, cell (snd p) t = Fin q) ->
  exists qs, row f t = map Fin qs.
Proof.
  induction f as [|p f IH]; intros H.
  - exists []; reflexivity.
  - destruct (H p (or_introl eq_refl)) as [q Hq].
    destruct IH as [qs Hqs]; [intros p' Hp'; apply H; right; exact Hp'|].
    exists (q :: qs). simpl. rewrite Hq. f_equal. exact Hqs.
Qed.

Lemma row_frame_abs f t : row (frame_abs f) t = map fabs (row f t).
Proof.
  unfold row, frame_abs, frame_map. rewrite !map_map.
  apply map_ext. intros p. apply cell_col_abs.
Qed.

Lemma row_scaled f base t :
  row (frame_map (fun col => col_mul col base) f) t =
  map (fun x => fmul x (cell base t)) (row f t).
Proof.
  unfold row, frame_map. rewrite !map_map.
  apply map_ext. intros p. apply cell_col_mul.
Qed.

Lemma cell_base_amt tge T f t :
  (t < T)%nat ->
  cell (map (fun s => fdiv (Fin tge) s) (sum_axis1 T (frame_abs f))) t =
  fdiv (Fin tge) (nansum (map fabs (row f t))).
Proof.
  intros Ht. rewrite cell_map by reflexivity.
  unfold sum_axis1.
  rewrite (cell_seq_map (fun t => nansum (row (frame_abs f) t))) by exact Ht.
  rewrite row_frame_abs. reflexivity.
Qed.

Lemma row_positions fixing tge self t :
  (t < nrows self)%nat ->
  row (positions (compute_positions fixing tge self)) t =
  map (fun x => fmul x (fdiv (Fin tge)
                          (nansum (map fabs (row (signals_of fixing self) t)))))
      (row (signals_of fixing self) t).
Proof.
  intros Ht. unfold compute_positions, set_positions; cbn [positions].
  rewrite row_scaled, cell_base_amt by exact Ht. reflexivity.
Qed.

Lemma map_fabs_fins qs : map fabs (map Fin qs) = map Fin (map Qabs qs).
Proof. rewrite !map_map. reflexivity. Qed.

Lemma gross_scaled qs b :
  fold_right fadd fzero
    (map fabs (map (fun x => fmul x (Fin b)) (map Fin qs))) =
  Fin (Qsum (map Qabs (map (fun q => q * b) qs))).
Proof.
  induction qs as [|q qs IH]; [reflexivity|].
  cbn [map fold_right]. rewrite IH. reflexivity.
Qed.

(** The cell of a position is the signal of the cell times the base
    amount of its row. *)
Lemma at_positions fixing tge self i t :
  (t < nrows self)%nat ->
  at_ (positions (compute_positions fixing tge self)) i t =
  fmul (at_ (signals_of fixing self) i t)
       (base_amt tge (signals_of fixing self) t).
Proof.
  intros Ht. unfold compute_positions, set_positions, base_amt; cbn [positions].
  unfold at_. rewrite get_frame_map.
  destruct (get i (signals_of fixing self)) as [col|]; [|reflexivity].
  cbn [option_map]. rewrite cell_col_mul, cell_base_amt by exact Ht.
  reflexivity.
Qed.

(** C2, as the code has it: at a row where every composite signal is a
    number and one of them is not zero, every position (one column per
    signal column) is its signal times the base amount of the row, the
    target (a non-negative amount) over the sum of the absolute signals;
    on the exact numbers the absolute positions then sum to the target. *)
Theorem compute_positions_gross_exposure
    (fixing : Fixes) (tge : Q) (self : Backtest) (t : nat) :
  0 <= tge ->
  (t < nrows self)%nat ->
  (forall p, In p (signals_of fixing self) -> exists q, cell (snd p) t = Fin q) ->
  (exists i q, at_ (signals_of fixing self) i t = Fin q /\ ~ q == 0) ->
  labels (positions (compute_positions fixing tge self))
    = labels (signals_of fixing self) /\
  (forall i,
     at_ (positions (compute_positions fixing tge self)) i t =
     fmul (at_ (signals_of fixing self) i t)
          (base_amt tge (signals_of fixing self) t)) /\
  gross_exposure (positions (compute_positions fixing tge self)) t =~ Fin tge.
Proof.
  intros Htge Ht Hfin [i [q [Hi Hq]]].
  split.
  { unfold compute_positions, set_positions; cbn [positions].
    apply labels_frame_map. }
  split; [intros j; apply at_positions; exact Ht|].
  destruct (row_finite _ t Hfin) as [qs Hqs].
  assert (Hin : In q qs).
  { unfold at_ in Hi. destruct (get i (signals_of fixing self)) as [col|] eqn:E;
      [|discriminate].
    apply get_in in E.
    assert (Hr : In (Fin q) (row (signals_of fixing self) t)).
    { unfold row. rewrite <- Hi. apply (in_map (fun p => cell (snd p) t) _ _ E). }
    rewrite Hqs in Hr. apply in_map_iff in Hr. destruct Hr as [q' [Hq' Hin']].
    inversion Hq'; subst; exact Hin'. }
  assert (Hpos : 0 < Qsum (map Qabs qs)).
  { pose proof (Qsum_abs_ge q qs Hin). pose proof (Qabs_pos_lt q Hq). lra. }
  unfold gross_exposure.
  rewrite row_positions by exact Ht.
  rewrite Hqs, map_fabs_fins, nansum_fins.
  cbn [fdiv]. rewrite Qeq_bool_false by lra.
  rewrite gross_scaled.
  cbn [feq]. rewrite Qsum_abs_scale.
  rewrite Qabs_pos.
  - field. lra.
  - apply Qle_shift_div_l; [exact Hpos | lra].
Qed.

End GrossExposure.

Lemma compute_positions_gross_exposure_witness :
  at_ (positions (compute_positions LON 1000000 Sample.wide_signals))
      "AUDUSD" 1
  = fmul (Fin 3) (base_amt 1000000 (signals_lon Sample.wide_signals) 1) /\
  at_ (positions (compute_positions LON 1000000 Sample.wide_signals))
      "AUDUSD" 1 =~ Fin 500000 /\
  gross_exposure
    (positions (compute_positions LON 1000000 Sample.wide_signals)) 1
  =~ Fin 1000000.
Proof.
  destruct (compute_positions_gross_exposure LON 1000000 Sample.wide_signals 1)
    as [_ [Hcell Hgross]].
  - discriminate.
  - vm_compute. lia.
  - intros p Hp. vm_compute in Hp.
    repeat (destruct Hp as [<-|Hp]; [eexists; vm_compute; reflexivity|]).
    destruct Hp.
  - exists "AUDUSD", 3. split; [vm_compute; reflexivity | discriminate].
  - split; [exact (Hcell "AUDUSD")|].
    split; [rewrite (Hcell "AUDUSD"); vm_compute; reflexivity | exact Hgross].
Defined.

(** C2 fails as stated in binary64.  For six instruments with the signals
    1, -1, 1, -1, 1, -1 and the default target, the absolute positions sum
    to 1,000,000 on the exact numbers; in binary64 the base amount
    1,000,000 / 6 is rounded, the six absolute positions are that one
    number, and their sum is the number just below 1,000,000.  The same
    happens at the second row of four instruments, where the pipeline
    gives the signals 3, -1, -1, -1. *)
Lemma gross_exposure_rounds_below_target :
  gross_exposure (positions (compute_positions LON 1000000 Sample.six)) 0
    =~ Fin 1000000 /\
  Binary64.gross_exposure
    (Binary64.compute_positions 1 Binary64.default_target
       (Binary64.of_frame (signals_lon Sample.six))) 0
    = Binary64.below_default_target /\
  PrimFloat.ltb Binary64.below_default_target Binary64.default_target = true /\
  PrimFloat.eqb
    (Binary64.gross_exposure
       (Binary64.compute_positions 1 Binary64.default_target
          (Binary64.of_frame (signals_lon Sample.six))) 0)
    Binary64.default_target = false /\
  row (signals_lon Sample.wide_signals) 1
    = [Fin 3; Fin (-1); Fin (-1); Fin (-1)] /\
  gross_exposure
    (positions (compute_positions LON 1000000 Sample.wide_signals)) 1
    =~ Fin 1000000 /\
  Binary64.gross_exposure
    (Binary64.compute_positions 2 Binary64.default_target
       (Binary64.of_frame (signals_lon Sample.wide_signals))) 1
    = Binary64.below_default_target.
Proof.
  vm_compute. repeat split; reflexivity.
Qed.

(** ** Transaction costs (C5) *)

Section TransactionCosts.

Lemma get_map_frame (F : string -> column -> column) c f :
  get c (map (fun p => (fst p, F (fst p) (snd p))) f) =
  option_map (F c) (get c f).
Proof.
  induction f as [|[l col] f IH]; [reflexivity|].
  simpl. destruct (String.eqb l c) eqn:E; [|exact IH].
  apply String.eqb_eq in E; subst l; reflexivity.
Qed.

(** The positional product with the first row of the reindexed spread
    table multiplies every column by the unit cost of its own label. *)
Lemma mul_row_reindex g f sp R :
  mul_row (frame_map g f) (first_row (reindex R (labels f) sp)) =
  map (fun p => (fst p, map (fun x => fmul x (at_ sp (fst p) 0)) (g (snd p)))) f.
Proof.
  induction f as [|[l col] f IH]; [reflexivity|].
  unfold mul_row, first_row, row in *. cbn [labels frame_map reindex map map2 fst snd].
  f_equal.
  - f_equal. apply map_ext. intros x. f_equal.
    unfold at_. destruct (get l sp); [reflexivity | apply cell_repeat_nan].
  - exact IH.
Qed.

(** The positional product with the whole reindexed table multiplies every
    column by the spread column of its own label. *)
Lemma mul_cells_reindex g f sp R :
  mul_cells (frame_map g f) (reindex R (labels f) sp) =
  map (fun p => (fst p, col_mul (g (snd p)) (column_or_nan R sp (fst p)))) f.
Proof.
  induction f as [|[l col] f IH]; [reflexivity|].
  unfold mul_cells in *. cbn [labels frame_map reindex map map2 fst snd].
  f_equal. exact IH.
Qed.

(** The three ways the product with the spread array goes, by the number
    of rows of the attached table. *)
Lemma compute_transaction_costs_cases self sp :
  spreads self = Some sp ->
  compute_transaction_costs self =
  if (frame_rows sp =? nrows self)%nat then
    Ok (map (fun p => (fst p, col_mul (col_abs (diff (snd p)))
                                (column_or_nan (frame_rows sp) sp (fst p))))
            (positions self))
  else if (frame_rows sp =? 1)%nat then
    Ok (map (fun p => (fst p, map (fun x => fmul x (at_ sp (fst p) 0))
                                (col_abs (diff (snd p)))))
            (positions self))
  else Raise (ValueError "Unable to coerce to DataFrame").
Proof.
  intros H. unfold compute_transaction_costs, mul_array. rewrite H.
  destruct (frame_rows sp =? nrows self)%nat.
  - f_equal. apply (mul_cells_reindex (fun col => col_abs (diff col))).
  - destruct (frame_rows sp =? 1)%nat; [|reflexivity].
    f_equal. apply (mul_row_reindex (fun col => col_abs (diff col))).
Qed.

Lemma at_costs f sp i t :
  at_ (map (fun p => (fst p, map (fun x => fmul x (at_ sp (fst p) 0))
                               (col_abs (diff (snd p))))) f) i t =
  match t with
  | O => NaN
  | S s => fmul (fabs (fsub (at_ f i (S s)) (at_ f i s))) (at_ sp i 0)
  end.
Proof.
  unfold at_ at 1.
  rewrite (get_map_frame
             (fun l col => map (fun x => fmul x (at_ sp l 0)) (col_abs (diff col)))).
  unfold at_ at 2 3. destruct (get i f) as [col|]; cbn [option_map].
  - rewrite (cell_map (fun x => fmul x (at_ sp i 0))) by reflexivity.
    rewrite cell_col_abs. destruct t as [|s].
    + rewrite cell_diff_0. reflexivity.
    + rewrite cell_diff_S. reflexivity.
  - destruct t; reflexivity.
Qed.

Lemma at_costs_cells f sp R i t :
  at_ (map (fun p => (fst p, col_mul (col_abs (diff (snd p)))
                               (column_or_nan R sp (fst p)))) f) i t =
  match t with
  | O => NaN
  | S s => fmul (fabs (fsub (at_ f i (S s)) (at_ f i s))) (at_ sp i (S s))
  end.
Proof.
  unfold at_ at 1.
  rewrite (get_map_frame
             (fun l col => col_mul (col_abs (diff col)) (column_or_nan R sp l))).
  destruct t as [|s].
  - destruct (get i f) as [col|]; cbn [option_map]; [|reflexivity].
    rewrite cell_col_mul, cell_col_abs, cell_diff_0. reflexivity.
  - unfold at_ at 1 2. destruct (get i f) as [col|]; cbn [option_map].
    + rewrite cell_col_mul, cell_col_abs, cell_column_or_nan, cell_diff_S.
      reflexivity.
    + reflexivity.
Qed.

(** With a spread table of one row, or of one row per timestamp, attached
    to the instance, the cost table has the columns of the position table
    and the cost of an instrument at a row is the absolute change of its
    position since the row before times its unit cost; the first row is
    NaN. *)
Lemma transaction_costs_table self sp :
  spreads self = Some sp ->
  frame_rows sp = 1%nat \/ frame_rows sp = nrows self ->
  exists tc,
    compute_transaction_costs self = Ok tc /\
    labels tc = labels (positions self) /\
    forall i,
      at_ tc i 0 = NaN /\
      forall t, at_ tc i (S t) =
                fmul (fabs (fsub (at_ (positions self) i (S t))
                                 (at_ (positions self) i t)))
                     (unit_cost (nrows self) sp i (S t)).
Proof.
  intros H Hrows. rewrite (compute_transaction_costs_cases self sp H).
  unfold unit_cost.
  destruct (frame_rows sp =? nrows self)%nat eqn:E.
  - eexists. split; [reflexivity|]. split.
    + unfold labels. rewrite map_map. reflexivity.
    + intros i. split; [|intros t]; rewrite at_costs_cells; reflexivity.
  - destruct Hrows as [H1|HT];
      [|rewrite HT, Nat.eqb_refl in E; discriminate].
    rewrite H1. cbn [Nat.eqb].
    eexists. split; [reflexivity|]. split.
    + unfold labels. rewrite map_map. reflexivity.
    + intros i. split; [|intros t]; rewrite at_costs; reflexivity.
Qed.

(** A spread table of another number of rows cannot be multiplied with
    the position changes. *)
Lemma transaction_costs_shape self sp :
  spreads self = Some sp ->
  frame_rows sp <> 1%nat -> frame_rows sp <> nrows self ->
  compute_transaction_costs self
  = Raise (ValueError "Unable to coerce to DataFrame").
Proof.
  intros H H1 HT. rewrite (compute_transaction_costs_cases self sp H).
  apply Nat.eqb_neq in H1, HT. rewrite HT, H1. reflexivity.
Qed.

(** [compute_signals] does not touch the [spreads] attribute. *)
Lemma spreads_after_compute_signals fixing self :
  spreads (after (compute_signals fixing self) self) = spreads self.
Proof.
  unfold after, compute_signals.
  destruct (subsignals_table (nrows self) (ma_window self)
              (swaps_of fixing self) (countries self)) as [sub|];
    [|reflexivity].
  cbn [bind].
  destruct (composite_loop sub (labels (drop "threshold" sub))
              (signals_of fixing self)) as [s1|]; [|reflexivity].
  cbn [bind]. destruct fixing; reflexivity.
Qed.

(** C5 fails on every instance the class builds: the constructor sets no
    [spreads] attribute and no method does, so [compute_transaction_costs]
    raises [AttributeError] on a fresh instance, after [compute_signals]
    and [compute_positions] for either session, and after [run], where the
    claim has it return the cost table. *)
Theorem compute_transaction_costs_unset_spreads
    (idx : list timestamp) (fx_lon fx_ny swaps_lon swaps_ny : frame)
    (w : nat) (fixing : Fixes) (tge : Q) :
  compute_transaction_costs (init idx fx_lon fx_ny swaps_lon swaps_ny w)
    = Raise (AttributeError "spreads") /\
  compute_transaction_costs
    (compute_positions fixing tge
       (after (compute_signals fixing
                 (init idx fx_lon fx_ny swaps_lon swaps_ny w))
              (init idx fx_lon fx_ny swaps_lon swaps_ny w)))
    = Raise (AttributeError "spreads") /\
  compute_transaction_costs
    (after (run (init idx fx_lon fx_ny swaps_lon swaps_ny w))
           (init idx fx_lon fx_ny swaps_lon swaps_ny w))
    = Raise (AttributeError "spreads").
Proof.
  set (self := init idx fx_lon fx_ny swaps_lon swaps_ny w).
  assert (Hsig : forall fx, spreads (after (compute_signals fx self) self) = None).
  { intros fx. rewrite spreads_after_compute_signals. reflexivity. }
  assert (Hnone : forall s, spreads s = None ->
            compute_transaction_costs s = Raise (AttributeError "spreads")).
  { intros s Hs. unfold compute_transaction_costs. rewrite Hs. reflexivity. }
  split; [reflexivity|]. split.
  - apply Hnone. exact (Hsig fixing).
  - apply Hnone. unfold after, run.
    pose proof (Hsig LON) as HL. unfold after in HL.
    destruct (compute_signals LON self) as [s|]; [|reflexivity].
    cbn [bind]. exact HL.
Qed.

End TransactionCosts.

(** The three shapes on the three rows of [Sample.held]: the module's
    one-row table is broadcast, a table with a row per timestamp is
    multiplied row by row (and has no cost for the instrument it lacks),
    and a two-row table is refused. *)
Lemma transaction_costs_by_shape :
  (exists tc,
     compute_transaction_costs (set_spreads spreads_dict Sample.held) = Ok tc /\
     labels tc = ["AUDUSD"; "CADUSD"] /\
     at_ tc "AUDUSD" 0 = NaN /\
     at_ tc "AUDUSD" 1 =~ Fin 30 /\
     at_ tc "AUDUSD" 2 =~ Fin 15 /\
     at_ tc "CADUSD" 2 =~ Fin 25) /\
  (exists tc,
     compute_transaction_costs (set_spreads Sample.spreads3 Sample.held)
     = Ok tc /\
     labels tc = ["AUDUSD"; "CADUSD"] /\
     at_ tc "AUDUSD" 0 = NaN /\
     at_ tc "AUDUSD" 1 =~ Fin 1000 /\
     at_ tc "AUDUSD" 2 =~ Fin 750 /\
     at_ tc "CADUSD" 2 = NaN) /\
  compute_transaction_costs
    (set_spreads [("AUDUSD", [Fin 1; Fin 1])] Sample.held)
  = Raise (ValueError "Unable to coerce to DataFrame").
Proof.
  split; [eexists; split; [vm_compute; reflexivity|];
          vm_compute; repeat split; reflexivity|].
  split; [eexists; split; [vm_compute; reflexivity|];
          vm_compute; repeat split; reflexivity|].
  vm_compute. reflexivity.
Qed.

(** ** Rows without signal (C3) *)

Section ZeroSignal.

Lemma row_zero f t :
  (forall p, In p f -> exists q, cell (snd p) t = Fin q /\ q == 0) ->
  exists qs, row f t = map Fin qs /\ Qsum (map Qabs qs) == 0.
Proof.
  induction f as [|p f IH]; intros H.
  - exists []; split; reflexivity.
  - destruct (H p (or_introl eq_refl)) as [q [Hq Hz]].
    destruct IH as [qs [Hqs Hs]]; [intros p' Hp'; apply H; right; exact Hp'|].
    exists (q :: qs). split.
    + cbn [row map] in *. rewrite Hq. f_equal. exact Hqs.
    + cbn [map]. rewrite Qsum_cons, Hs, Hz. reflexivity.
Qed.

Lemma nansum_nans (A : Type) (ls : list A) :
  nansum (map (fun _ => NaN) ls) = fzero.
Proof. induction ls as [|l ls IH]; [reflexivity | exact IH]. Qed.

(** With every signal of row [t] at zero, every position of row [t] is
    NaN: the base amount is a division by zero, and zero times it is NaN. *)
Lemma zero_row_positions fixing tge self t :
  (t < nrows self)%nat ->
  (forall p, In p (signals_of fixing self) ->
             exists q, cell (snd p) t = Fin q /\ q == 0) ->
  forall i, at_ (positions (compute_positions fixing tge self)) i t = NaN.
Proof.
  intros Ht Hz i. unfold compute_positions, set_positions; cbn [positions].
  unfold at_. rewrite get_frame_map.
  destruct (get i (signals_of fixing self)) as [col|] eqn:E; [|reflexivity].
  cbn [option_map]. rewrite cell_col_mul, cell_base_amt by exact Ht.
  destruct (row_zero _ t Hz) as [qs [Hqs Hs]].
  rewrite Hqs, map_fabs_fins, nansum_fins.
  destruct (Hz _ (get_in _ _ _ E)) as [q [Hq Hq0]]. cbn [snd] in Hq.
  rewrite Hq. apply fmul_zero_div_zero; assumption.
Qed.

(** C3, as the code has it: at a row where every composite signal is zero
    the positions (one column per signal column) are NaN; the NaN reaches
    the instrument cells of the P&L of the next row, and the costs of that
    row and of the next one in the cost table that is returned once a
    spread table of one row, or of one row per timestamp, is attached
    (without one the call raises [AttributeError]); the [total] of that
    next row, a sum that skips NaN, is 0 and [total_pct] is 0. *)
Theorem zero_signals_propagation
    (fixing : Fixes) (tge : Q) (self : Backtest) (t : nat) :
  (S t < nrows self)%nat ->
  (forall p, In p (signals_of fixing self) ->
             exists q, cell (snd p) t = Fin q /\ q == 0) ->
  labels (positions (compute_positions fixing tge self))
    = labels (signals_of fixing self) /\
  (forall i, at_ (positions (compute_positions fixing tge self)) i t = NaN) /\
  (spreads self = None ->
   compute_transaction_costs (compute_positions fixing tge self)
   = Raise (AttributeError "spreads")) /\
  (forall sp,
     spreads self = Some sp ->
     frame_rows sp = 1%nat \/ frame_rows sp = nrows self ->
     exists tc,
       compute_transaction_costs (compute_positions fixing tge self) = Ok tc /\
       labels tc = labels (signals_of fixing self) /\
       forall i, at_ tc i t = NaN /\ at_ tc i (S t) = NaN) /\
  exists p,
    pnl (compute_pnl (compute_positions fixing tge self)) = Some p /\
    (forall i, i <> "total" -> i <> "total_pct" -> at_ p i (S t) = NaN) /\
    at_ p "total" (S t) = Fin 0 /\
    at_ p "total_pct" (S t) =~ Fin 0.
Proof.
  intros Ht Hz.
  assert (Hpos := zero_row_positions fixing tge self t (Nat.lt_succ_l _ _ Ht) Hz).
  assert (Hlab : labels (positions (compute_positions fixing tge self))
                 = labels (signals_of fixing self)).
  { unfold compute_positions, set_positions; cbn [positions].
    apply labels_frame_map. }
  set (self' := compute_positions fixing tge self) in *.
  assert (Hshift : forall l,
    cell (shift1 (column_or_nan (nrows self') (positions self') l)) (S t) = NaN).
  { intros l. apply cell_shift1_nan. rewrite cell_column_or_nan. apply Hpos. }
  assert (Htot : cell (pnl_total self') (S t) = Fin 0).
  { rewrite cell_pnl_total. change (nrows self') with (nrows self).
    apply Nat.ltb_lt in Ht; rewrite Ht.
    rewrite row_instrument_pnl.
    erewrite map_ext; [apply nansum_nans|].
    intros l. cbv beta. rewrite Hshift. apply fmul_nan_r. }
  split; [exact Hlab|]. split; [exact Hpos|]. split.
  { intros Hnone. unfold compute_transaction_costs.
    change (spreads self') with (spreads self). rewrite Hnone. reflexivity. }
  split.
  - intros sp Hsp Hrows.
    destruct (transaction_costs_table self' sp Hsp Hrows)
      as [tc [Htc [Hl Hcells]]].
    exists tc. split; [exact Htc|]. split; [rewrite Hl; exact Hlab|].
    intros i. destruct (Hcells i) as [H0 HS]. split.
    + destruct t as [|s]; [exact H0|].
      rewrite HS, (Hpos i). reflexivity.
    + rewrite HS, (Hpos i), fsub_nan_r. reflexivity.
  - eexists. split; [apply pnl_compute_pnl|]. split; [|split].
    + intros i H1 H2.
      rewrite at_pnl_instrument, at_instrument_pnl by assumption.
      rewrite Hshift. apply fmul_nan_r.
    + rewrite at_pnl_total. exact Htot.
    + rewrite at_pnl_total_pct, Htot. vm_compute. reflexivity.
Qed.

End ZeroSignal.

Lemma zero_signals_propagation_witness :
  row (positions
         (compute_positions LON 1000000
            (set_spreads spreads_dict Sample.three))) 1 = [NaN; NaN; NaN] /\
  (exists tc,
     compute_transaction_costs
       (compute_positions LON 1000000 (set_spreads spreads_dict Sample.three))
     = Ok tc /\
     labels tc = ["AUDUSD"; "CADUSD"; "EURUSD"] /\
     at_ tc "AUDUSD" 1 = NaN /\ at_ tc "AUDUSD" 2 = NaN) /\
  (exists p,
     pnl (compute_pnl
            (compute_positions LON 1000000
               (set_spreads spreads_dict Sample.three))) = Some p /\
     at_ p "AUDUSD" 2 = NaN /\
     at_ p "total" 2 = Fin 0).
Proof.
  destruct (zero_signals_propagation LON 1000000
              (set_spreads spreads_dict Sample.three) 1)
    as [_ [_ [_ [Hc [p [Hp [Hi [Ht _]]]]]]]].
  - vm_compute. lia.
  - intros q Hq. vm_compute in Hq.
    repeat (destruct Hq as [<-|Hq];
            [exists 0; split; [vm_compute; reflexivity | reflexivity]|]).
    destruct Hq.
  - split; [vm_compute; reflexivity|]. split.
    + destruct (Hc spreads_dict eq_refl (or_introl eq_refl))
        as [tc [Htc [Hl Hcells]]].
      exists tc. split; [exact Htc|]. split; [exact Hl|].
      exact (Hcells "AUDUSD").
    + exists p. split; [exact Hp|].
      split; [apply Hi; discriminate | exact Ht].
Defined.

(** C3 fails as stated on a fresh instance: all the signals of the second
    row are zero, its positions and the instrument cells of the P&L of the
    third row are NaN, and yet [total] and [total_pct] of that row are 0. *)
Lemma zero_signals_total_is_zero :
  row (signals_lon Sample.three) 1 = [Fin 0; Fin 0; Fin 0] /\
  row (positions (compute_positions LON 1000000 Sample.three)) 1
    = [NaN; NaN; NaN] /\
  row (instrument_pnl (compute_positions LON 1000000 Sample.three)) 2
    = [NaN; NaN; NaN] /\
  at_ (pnl_of (compute_pnl (compute_positions LON 1000000 Sample.three)))
      "total" 2 = Fin 0 /\
  at_ (pnl_of (compute_pnl (compute_positions LON 1000000 Sample.three)))
      "total" 2 <> NaN /\
  at_ (pnl_of (compute_pnl (compute_positions LON 1000000 Sample.three)))
      "total_pct" 2 <> NaN.
Proof.
  vm_compute. repeat split; try reflexivity; discriminate.
Qed.

(** ** The percentage column (C4) *)

(** Whatever exposure the positions were sized with, [total_pct] is
    [total] over the literal 1,000,000. *)
Lemma total_pct_over_million fixing tge self t :
  at_ (pnl_of (compute_pnl (compute_positions fixing tge self))) "total_pct" t =
  fdiv (at_ (pnl_of (compute_pnl (compute_positions fixing tge self))) "total" t)
       (Fin 1000000).
Proof.
  unfold pnl_of. rewrite pnl_compute_pnl, at_pnl_total_pct, at_pnl_total.
  reflexivity.
Qed.

(** C4 at a target gross exposure of 2,000,000: the positions of the second
    row sum to 2,000,000, the [total] of the third row is 1,500,000, and
    [total_pct] is 3/2, not [total] over the exposure supplied (3/4). *)
Theorem total_pct_ignores_target_gross_exposure :
  gross_exposure (positions (compute_positions LON 2000000 Sample.three_signals)) 1
    =~ Fin 2000000 /\
  at_ (pnl_of (compute_pnl (compute_positions LON 2000000 Sample.three_signals)))
      "total" 2 =~ Fin 1500000 /\
  at_ (pnl_of (compute_pnl (compute_positions LON 2000000 Sample.three_signals)))
      "total_pct" 2 =~ Fin (3 # 2) /\
  ~ (at_ (pnl_of (compute_pnl (compute_positions LON 2000000 Sample.three_signals)))
         "total_pct" 2
     =~ fdiv (at_ (pnl_of (compute_pnl
                             (compute_positions LON 2000000 Sample.three_signals)))
                  "total" 2)
             (Fin 2000000)).
Proof.
  vm_compute. repeat split; discriminate.
Qed.

(** ** Two instruments (C7) *)

(** C7 at two instruments whose swap difference doubles its average: the
    raw subsignal of the second row is exactly 1, it equals the threshold
    and does not exceed it, and the composite signals of that row are 1
    and -1. *)
Theorem two_instruments_signal_nonzero :
  exists sub self',
    subsignals_table 3 2 (swaps_lon_fixes Sample.two) (countries Sample.two)
      = Ok sub /\
    compute_signals LON Sample.two = Ok self' /\
    at_ sub "EURGBP" 1 =~ Fin 1 /\
    at_ sub "threshold" 1 =~ Fin 1 /\
    fgtb (fabs (at_ sub "EURGBP" 1)) (at_ sub "threshold" 1) = false /\
    at_ (signals_lon self') "EURUSD" 1 =~ Fin 1 /\
    at_ (signals_lon self') "GBPUSD" 1 =~ Fin (-1).
Proof.
  eexists; eexists.
  split; [vm_compute; reflexivity|].
  split; [vm_compute; reflexivity|].
  vm_compute. repeat split; reflexivity.
Qed.

(** ** Raw subsignals and their discretization (C6) *)

Section Subsignals.

Lemma discretize_cellwise col thr :
  discretize col thr = map2 discretize_cell col thr.
Proof.
  revert thr; induction col as [|x col IH]; intros thr; [reflexivity|].
  destruct thr as [|h thr]; [reflexivity|].
  cbn [map2]. rewrite <- IH. reflexivity.
Qed.

Lemma nth_error_map2 (A B C : Type) (g : A -> B -> C) a b t :
  nth_error (map2 g a b) t =
  match nth_error a t, nth_error b t with
  | Some x, Some y => Some (g x y)
  | _, _ => None
  end.
Proof.
  revert b t; induction a as [|x a IH]; intros b t.
  - destruct t; reflexivity.
  - destruct b as [|y b].
    + destruct t as [|t]; [reflexivity|]. simpl. destruct (nth_error a t); reflexivity.
    + destruct t as [|t]; [reflexivity|]. simpl. apply IH.
Qed.

(** A missing subsignal is reset to 0 by the third assignment. *)
Lemma discretize_cell_nan h : discretize_cell NaN h = Fin 0.
Proof. destruct h; reflexivity. Qed.

Lemma discretize_nan col thr t :
  nth_error col t = Some NaN -> (t < List.length thr)%nat ->
  nth_error (discretize col thr) t = Some (Fin 0).
Proof.
  intros Hc Ht. rewrite discretize_cellwise, nth_error_map2, Hc.
  destruct (nth_error thr t) as [h|] eqn:E.
  - rewrite discretize_cell_nan. reflexivity.
  - apply nth_error_None in E. lia.
Qed.

Lemma pair_subsignal_ok w swaps c1 c2 a b :
  get (c1 ++ "USD") swaps = Some a -> get (c2 ++ "USD") swaps = Some b ->
  pair_subsignal w swaps c1 c2 =
  Ok (col_div (col_sub (col_sub a b) (rolling_mean w (col_sub a b)))
              (col_abs (rolling_mean w (col_sub a b)))).
Proof.
  intros Ha Hb. unfold pair_subsignal, getitem. rewrite Ha, Hb. reflexivity.
Qed.

(** C6, as the code has it: the raw subsignal is NaN where the rolling
    average is NaN and where average and difference are both zero; where
    the average is zero and the difference is not, it is an infinity with
    the sign of the difference; a NaN subsignal discretizes to 0. *)
Theorem subsignal_undefined_cases
    (w : nat) (swaps : frame) (c1 c2 : string) (a b : column) :
  get (c1 ++ "USD") swaps = Some a ->
  get (c2 ++ "USD") swaps = Some b ->
  exists sub,
    pair_subsignal w swaps c1 c2 = Ok sub /\
    forall t,
      (cell (rolling_mean w (col_sub a b)) t = NaN -> cell sub t = NaN) /\
      (forall m d,
         cell (rolling_mean w (col_sub a b)) t = Fin m -> m == 0 ->
         cell (col_sub a b) t = Fin d ->
         (d == 0 -> cell sub t = NaN) /\
         (0 < d -> cell sub t = PInf) /\
         (d < 0 -> cell sub t = NInf)) /\
      (forall thr,
         nth_error sub t = Some NaN -> (t < List.length thr)%nat ->
         nth_error (discretize sub thr) t = Some (Fin 0)).
Proof.
  intros Ha Hb. eexists. split; [apply pair_subsignal_ok; eassumption|].
  intros t. split; [|split].
  - intros Havg. rewrite cell_col_div, cell_col_abs, Havg. apply fdiv_nan_r.
  - intros m d Havg Hm Hd.
    rewrite cell_col_div, cell_col_sub, cell_col_abs, Havg, Hd.
    assert (Habs : Qabs m == 0) by (rewrite Hm; reflexivity).
    cbn [fsub fneg fadd fabs fdiv]. rewrite (Qeq_bool_true _ _ Habs).
    split; [|split]; intros Hsign.
    + rewrite Qeq_bool_true; [reflexivity | rewrite Hm, Hsign; reflexivity].
    + rewrite Qeq_bool_false, Qltb_true; [reflexivity | | ];
        rewrite Hm; lra.
    + rewrite Qeq_bool_false, Qltb_false; [reflexivity | | ];
        rewrite Hm; lra.
  - intros thr. apply discretize_nan.
Qed.

End Subsignals.

Lemma subsignal_undefined_cases_witness :
  exists sub,
    pair_subsignal 2 Sample.swaps4 "AUD" "CAD" = Ok sub /\
    cell sub 0 = NaN /\ cell sub 1 = PInf /\
    nth_error (discretize sub [NaN; Fin 1]) 0 = Some (Fin 0).
Proof.
  destruct (subsignal_undefined_cases 2 Sample.swaps4 "AUD" "CAD"
              (Sample.series [0; 1]) (Sample.series [1; 0]) eq_refl eq_refl)
    as [sub [Hsub Hcells]].
  exists sub. split; [exact Hsub|].
  split; [|split].
  - apply (proj1 (Hcells 0%nat)). reflexivity.
  - destruct (Hcells 1%nat) as [_ [Hzero _]].
    apply (Hzero ((-1 + 1) / 2) 1); [reflexivity | reflexivity | reflexivity | reflexivity].
  - destruct (Hcells 0%nat) as [Hnan [_ Hdisc]].
    apply Hdisc; [|simpl; lia].
    assert (E : sub = [NaN; PInf]).
    { vm_compute in Hsub. inversion Hsub. reflexivity. }
    rewrite E. reflexivity.
Defined.

(** C6 fails as stated on four instruments: the average of the first pair
    is zero at the second row, its raw subsignal there is an infinity and
    not NaN, and it discretizes to 1, which enters the composite signal. *)
Lemma zero_average_subsignal_is_infinite :
  exists sub self',
    subsignals_table 2 2 (swaps_lon_fixes Sample.four) (countries Sample.four)
      = Ok sub /\
    compute_signals LON Sample.four = Ok self' /\
    cell (rolling_mean (ma_window Sample.four)
            (col_sub (column_or_nan 2 (swaps_lon_fixes Sample.four) "AUDUSD")
                     (column_or_nan 2 (swaps_lon_fixes Sample.four) "CADUSD"))) 1
      =~ Fin 0 /\
    at_ sub "AUDCAD" 1 = PInf /\
    at_ sub "AUDCAD" 1 <> NaN /\
    cell (discretize (column_or_nan 2 sub "AUDCAD")
                     (column_or_nan 2 sub "threshold")) 1 = Fin 1 /\
    at_ (signals_lon self') "AUDUSD" 1 =~ Fin 1.
Proof.
  eexists; eexists.
  split; [vm_compute; reflexivity|].
  split; [vm_compute; reflexivity|].
  vm_compute. repeat split; try reflexivity; discriminate.
Qed.

(** ** The values of the discretization and of the signal table *)

Section SignalValues.

(** A discretized cell is 0, 1 or -1, whatever the subsignal and the
    threshold are. *)
Lemma discretize_cell_values x h :
  discretize_cell x h = fzero \/
  discretize_cell x h =~ fone \/
  discretize_cell x h =~ Fin (-1).
Proof.
  unfold discretize_cell. cbv zeta.
  match goal with |- context [fneb (fabs ?y) fone] => set (x2 := y) end.
  destruct (fneb (fabs x2) fone) eqn:E; [left; reflexivity|].
  right. unfold fneb in E. apply negb_false_iff in E.
  destruct x2 as [q| | |]; simpl in E; try discriminate.
  apply Qeq_bool_iff in E.
  destruct (Qlt_le_dec q 0) as [Hq|Hq].
  - right. rewrite Qabs_neg in E by lra. simpl. lra.
  - left. rewrite Qabs_pos in E by exact Hq. simpl. lra.
Qed.

Lemma discretize_cell_integer x h : integer_cell (discretize_cell x h).
Proof.
  destruct (discretize_cell_values x h) as [H|[H|H]].
  - exists 0%Z. rewrite H. reflexivity.
  - exists 1%Z. exact H.
  - exists (-1)%Z. exact H.
Qed.

(** With a single pair the threshold of a row is the absolute subsignal of
    the pair itself (or NaN), which the subsignal never exceeds: only the
    third assignment acts, and it keeps a raw subsignal of absolute value
    1. *)
Lemma single_pair_discretize x :
  discretize_cell x (nanmedian [fabs x]) =
  if fneb (fabs x) fone then fzero else x.
Proof.
  destruct x as [q| | |]; try reflexivity.
  unfold discretize_cell, nanmedian, lerp, fgtb. cbn.
  assert (E : Qltb (Qabs q + (Qabs q + - Qabs q) * 0) (Qabs q) = false).
  { apply Qltb_false. lra. }
  rewrite E. cbn.
  destruct (Qle_bool 0 q); cbn; rewrite ?E; cbn; reflexivity.
Qed.

Lemma integer_cell_add x y :
  integer_cell x -> integer_cell y -> integer_cell (fadd x y).
Proof.
  intros [a Ha] [b Hb]. exists (a + b)%Z.
  destruct x, y; simpl in *; try contradiction.
  rewrite inject_Z_plus, Ha, Hb. reflexivity.
Qed.

Lemma integer_cell_sub x y :
  integer_cell x -> integer_cell y -> integer_cell (fsub x y).
Proof.
  intros [a Ha] [b Hb]. exists (a - b)%Z.
  destruct x, y; simpl in *; try contradiction.
  unfold Z.sub. rewrite inject_Z_plus, inject_Z_opp, Ha, Hb. reflexivity.
Qed.

Lemma Forall_map2 (P : fval -> Prop) (g : fval -> fval -> fval) a b :
  (forall x y, P x -> P y -> P (g x y)) ->
  Forall P a -> Forall P b -> Forall P (map2 g a b).
Proof.
  intros Hg Ha; revert b; induction Ha as [|x a Hx Ha IH]; intros b Hb.
  - constructor.
  - destruct Hb as [|y b Hy Hb]; [constructor|].
    cbn [map2]. constructor; [apply Hg; assumption | apply IH; exact Hb].
Qed.

Lemma Forall_discretize col thr : Forall integer_cell (discretize col thr).
Proof.
  rewrite discretize_cellwise. revert thr.
  induction col as [|x col IH]; intros thr; [constructor|].
  destruct thr as [|h thr]; [constructor|].
  cbn [map2]. constructor; [apply discretize_cell_integer | apply IH].
Qed.

Lemma In_setitem p f k v :
  In p (setitem f k v) -> In p f \/ snd p = v.
Proof.
  induction f as [|[l old] f IH]; simpl.
  - intros [<-|[]]. right; reflexivity.
  - destruct (String.eqb l k); simpl.
    + intros [<-|H]; [right; reflexivity | left; right; exact H].
    + intros [<-|H]; [left; left; reflexivity|].
      destruct (IH H) as [H'|H']; [left; right; exact H' | right; exact H'].
Qed.

Lemma integral_setitem f k v :
  integral f -> Forall integer_cell v -> integral (setitem f k v).
Proof.
  intros Hf Hv p Hp. destruct (In_setitem _ _ _ _ Hp) as [H|H].
  - apply Hf; exact H.
  - rewrite H; exact Hv.
Qed.

Lemma integral_get f c col : integral f -> get c f = Some col ->
  Forall integer_cell col.
Proof. intros Hf Hg. apply (Hf (c, col)). eapply get_in; exact Hg. Qed.

End SignalValues.

(** ** Accumulation into the signal table (C10) *)

Section Accumulation.

Lemma get_setitem f k v c :
  get c (setitem f k v) = if String.eqb k c then Some v else get c f.
Proof.
  destruct (String.eqb_spec k c) as [->|Hne].
  - apply get_setitem_eq.
  - apply get_setitem_neq. congruence.
Qed.

Lemma fadd_pad x d : fadd x d =~ fadd x (fadd d (fneg fzero)).
Proof. destruct x, d; simpl; auto. ring. Qed.

Lemma fsub_pad x d : fsub x d =~ fadd x (fadd fzero (fneg d)).
Proof. destruct x, d; simpl; auto. ring. Qed.

Lemma fadd_sub_pad x d : fsub (fadd x d) d =~ fadd x (fadd d (fneg d)).
Proof. destruct x, d; simpl; auto. ring. Qed.

Lemma fadd_none_pad x : x =~ fadd x (fadd fzero (fneg fzero)).
Proof. destruct x; simpl; auto. ring. Qed.

(** What a pass of the composite loop that does not raise has read and
    written. *)
Lemma accumulate_inv sub a col a' :
  accumulate sub a col = Ok a' ->
  exists s1 s2,
    get (fst (pair_keys col)) a = Some s1 /\
    get (snd (pair_keys col))
        (setitem a (fst (pair_keys col)) (col_add s1 (pair_data sub col)))
      = Some s2 /\
    a' = setitem (setitem a (fst (pair_keys col))
                    (col_add s1 (pair_data sub col)))
           (snd (pair_keys col)) (col_sub s2 (pair_data sub col)).
Proof.
  unfold accumulate, getitem, pair_data, pair_keys, column_or_nan. cbn [fst snd].
  destruct (get "threshold" sub) as [th|]; [|discriminate].
  destruct (get col sub) as [cd|]; [|discriminate].
  cbn [bind].
  destruct (get (substring 0 3 col ++ "USD") a) as [s1|]; [|discriminate].
  cbn [bind].
  destruct (get (substring 3 (String.length col - 3) col ++ "USD") _) as [s2|] eqn:E2;
    [|discriminate].
  cbn [bind]. intros H; inversion H; subst.
  exists s1, s2. auto.
Qed.

Lemma accumulate_dom sub a col a' :
  accumulate sub a col = Ok a' -> same_dom a a'.
Proof.
  intros H. destruct (accumulate_inv _ _ _ _ H) as [s1 [s2 [H1 [H2 ->]]]].
  intros c. rewrite !get_setitem.
  rewrite get_setitem in H2.
  destruct (String.eqb_spec (snd (pair_keys col)) c) as [E2|E2].
  - subst c. destruct (String.eqb_spec (fst (pair_keys col)) (snd (pair_keys col)))
      as [E|E].
    + rewrite <- E, H1. split; discriminate.
    + rewrite H2. split; discriminate.
  - destruct (String.eqb_spec (fst (pair_keys col)) c) as [E1|E1].
    + subst c. rewrite H1; split; discriminate.
    + tauto.
Qed.

(** A pass adds its [step_delta] to every cell of the signal table. *)
Lemma accumulate_effect sub a col a' :
  accumulate sub a col = Ok a' ->
  forall c t, at_ a' c t =~ fadd (at_ a c t) (step_delta sub col c t).
Proof.
  intros H c t. destruct (accumulate_inv _ _ _ _ H) as [s1 [s2 [H1 [H2 ->]]]].
  unfold step_delta, at_. rewrite !get_setitem. rewrite get_setitem in H2.
  set (k1 := fst (pair_keys col)) in *. set (k2 := snd (pair_keys col)) in *.
  set (d := pair_data sub col) in *. cbv zeta.
  destruct (String.eqb_spec k2 c) as [E2|E2];
    destruct (String.eqb_spec k1 c) as [E1|E1].
  - assert (E : String.eqb k1 k2 = true) by (apply String.eqb_eq; congruence).
    rewrite E in H2. inversion H2; subst s2.
    rewrite cell_col_sub, cell_col_add, <- E1, H1.
    apply fadd_sub_pad.
  - assert (E : String.eqb k1 k2 = false) by (apply String.eqb_neq; congruence).
    rewrite E in H2. rewrite cell_col_sub, <- E2, H2.
    apply fsub_pad.
  - rewrite cell_col_add, <- E1, H1. apply fadd_pad.
  - apply fadd_none_pad.
Qed.

Lemma same_dom_refl a : same_dom a a.
Proof. intros c; tauto. Qed.

Lemma same_dom_sym a b : same_dom a b -> same_dom b a.
Proof. intros H c; specialize (H c); tauto. Qed.

Lemma same_dom_trans a b c : same_dom a b -> same_dom b c -> same_dom a c.
Proof. intros H1 H2 k; specialize (H1 k); specialize (H2 k); tauto. Qed.

(** Whether a pass raises depends on the labels of the signal table only. *)
Lemma accumulate_total sub a b col a' :
  accumulate sub a col = Ok a' -> same_dom a b ->
  exists b', accumulate sub b col = Ok b'.
Proof.
  intros H Hdom.
  assert (Hk1 : exists s, get (substring 0 3 col ++ "USD") b = Some s).
  { destruct (accumulate_inv _ _ _ _ H) as [s1 [_ [H1 _]]].
    unfold pair_keys in H1; cbn [fst] in H1.
    destruct (get (substring 0 3 col ++ "USD") b) as [s|] eqn:E;
      [exists s; reflexivity|].
    apply Hdom in E. congruence. }
  assert (Hk2 : forall v, exists s,
             get (substring 3 (String.length col - 3) col ++ "USD")
                 (setitem b (substring 0 3 col ++ "USD") v) = Some s).
  { intros v. destruct (accumulate_inv _ _ _ _ H) as [s1 [s2 [_ [H2 _]]]].
    unfold pair_keys in H2; cbn [fst snd] in H2.
    rewrite get_setitem in *.
    destruct (String.eqb _ _); [eexists; reflexivity|].
    destruct (get (substring 3 (String.length col - 3) col ++ "USD") b)
      as [s|] eqn:E; [exists s; reflexivity|].
    apply Hdom in E. congruence. }
  revert H. unfold accumulate, getitem.
  destruct (get "threshold" sub) as [th|]; [|discriminate].
  destruct (get col sub) as [cd|]; [|discriminate].
  cbn [bind]. intros _.
  destruct Hk1 as [s1 Hs1]. rewrite Hs1. cbn [bind].
  destruct (Hk2 (col_add s1 (discretize cd th))) as [s2 Hs2].
  rewrite Hs2. cbn [bind]. eauto.
Qed.

Lemma composite_loop_dom sub cols a a' :
  composite_loop sub cols a = Ok a' -> same_dom a a'.
Proof.
  revert a; induction cols as [|col cols IH]; intros a H.
  - inversion H; apply same_dom_refl.
  - cbn [composite_loop] in H.
    destruct (accumulate sub a col) as [a1|] eqn:E; [|discriminate].
    cbn [bind] in H.
    eapply same_dom_trans; [eapply accumulate_dom; exact E | apply IH; exact H].
Qed.

Lemma composite_loop_total sub cols a b a' :
  composite_loop sub cols a = Ok a' -> same_dom a b ->
  exists b', composite_loop sub cols b = Ok b'.
Proof.
  revert a b; induction cols as [|col cols IH]; intros a b H Hdom.
  - exists b; reflexivity.
  - cbn [composite_loop] in *.
    destruct (accumulate sub a col) as [a1|] eqn:E; [|discriminate].
    cbn [bind] in H.
    destruct (accumulate_total _ _ _ _ _ E Hdom) as [b1 Hb1].
    rewrite Hb1. cbn [bind].
    apply (IH a1 b1 H).
    eapply same_dom_trans; [apply same_dom_sym; eapply accumulate_dom; exact E|].
    eapply same_dom_trans; [exact Hdom | eapply accumulate_dom; exact Hb1].
Qed.

(** The composite loop adds [loop_delta], which it computes from the
    subsignal table alone, to every cell of the signal table. *)
Lemma composite_loop_effect sub cols a a' :
  composite_loop sub cols a = Ok a' ->
  forall c t, at_ a' c t =~ fadd (at_ a c t) (loop_delta sub cols c t).
Proof.
  revert a; induction cols as [|col cols IH]; intros a H c t.
  - inversion H; subst. cbn [loop_delta].
    destruct (at_ a' c t); simpl; auto. ring.
  - cbn [composite_loop] in H.
    destruct (accumulate sub a col) as [a1|] eqn:E; [|discriminate].
    cbn [bind] in H. cbn [loop_delta].
    eapply feq_trans; [apply (IH a1 H)|].
    eapply feq_trans;
      [apply fadd_feq; [apply (accumulate_effect _ _ _ _ E) | apply feq_refl]|].
    apply fadd_assoc.
Qed.

(** The signal table stays integer valued through the composite loop. *)
Lemma accumulate_integral sub a col a' :
  integral a -> accumulate sub a col = Ok a' -> integral a'.
Proof.
  intros Ha H. destruct (accumulate_inv _ _ _ _ H) as [s1 [s2 [H1 [H2 ->]]]].
  assert (Hd : Forall integer_cell (pair_data sub col))
    by apply Forall_discretize.
  assert (Ha1 : integral (setitem a (fst (pair_keys col))
                            (col_add s1 (pair_data sub col)))).
  { apply integral_setitem; [exact Ha|].
    apply Forall_map2; [apply integer_cell_add | | exact Hd].
    eapply integral_get; eassumption. }
  apply integral_setitem; [exact Ha1|].
  apply Forall_map2; [apply integer_cell_sub | | exact Hd].
  eapply integral_get; eassumption.
Qed.

Lemma composite_loop_integral sub cols a a' :
  integral a -> composite_loop sub cols a = Ok a' -> integral a'.
Proof.
  revert a; induction cols as [|col cols IH]; intros a Ha H.
  - inversion H; subst; exact Ha.
  - cbn [composite_loop] in H.
    destruct (accumulate sub a col) as [a1|] eqn:E; [|discriminate].
    cbn [bind] in H. apply (IH a1); [|exact H].
    eapply accumulate_integral; eassumption.
Qed.

Lemma zero_table_cell f c t :
  zero_table f -> at_ f c t = NaN \/ at_ f c t = Fin 0.
Proof.
  intros Hz. unfold at_. destruct (get c f) as [col|] eqn:E; [|left; reflexivity].
  apply get_in in E. apply Hz in E. cbn [snd] in E.
  destruct (nth_error col t) as [x|] eqn:Ex.
  - right. rewrite (cell_nth_error _ _ _ Ex).
    rewrite Forall_forall in E. apply E. eapply nth_error_In; exact Ex.
  - left. apply cell_overflow. apply nth_error_None; exact Ex.
Qed.

Lemma compute_signals_inv fixing self self1 :
  compute_signals fixing self = Ok self1 ->
  exists sub s1,
    subsignals_table (nrows self) (ma_window self) (swaps_of fixing self)
      (countries self) = Ok sub /\
    composite_loop sub (labels (drop "threshold" sub)) (signals_of fixing self)
      = Ok s1 /\
    self1 = set_signals fixing s1 self.
Proof.
  unfold compute_signals. intros H.
  destruct (subsignals_table (nrows self) (ma_window self)
              (swaps_of fixing self) (countries self)) as [sub|];
    [|discriminate].
  cbn [bind] in H.
  destruct (composite_loop sub (labels (drop "threshold" sub))
              (signals_of fixing self)) as [s1|] eqn:E; [|discriminate].
  cbn [bind] in H. inversion H.
  exists sub, s1. repeat split. exact E.
Qed.

Lemma signals_of_set_signals fixing s self :
  signals_of fixing (set_signals fixing s self) = s.
Proof. destruct fixing; reflexivity. Qed.

Lemma compute_signals_set_signals fixing s self :
  compute_signals fixing (set_signals fixing s self) =
  (sub <- subsignals_table (nrows self) (ma_window self) (swaps_of fixing self)
            (countries self) ;;
   s' <- composite_loop sub (labels (drop "threshold" sub)) s ;;
   Ok (set_signals fixing s' (set_signals fixing s self))).
Proof. destruct fixing; reflexivity. Qed.

(** An integer-valued signal table is still one after [compute_signals];
    the constructor starts from zeros. *)
Lemma compute_signals_integral fixing self self' :
  integral (signals_of fixing self) ->
  compute_signals fixing self = Ok self' ->
  integral (signals_of fixing self').
Proof.
  intros Hi H. destruct (compute_signals_inv _ _ _ H) as [sub [s1 [_ [Hloop ->]]]].
  rewrite signals_of_set_signals.
  eapply composite_loop_integral; eassumption.
Qed.

Lemma zero_table_integral f : zero_table f -> integral f.
Proof.
  intros Hz p Hp. specialize (Hz p Hp).
  eapply Forall_impl; [|exact Hz].
  intros x ->. exists 0%Z. reflexivity.
Qed.

(** C10: on a freshly initialised signal table, a second call of
    [compute_signals] for the same session does not raise when the first one
    did not, and leaves every composite signal at twice its value after the
    first call; so a signal the first call made nonzero is changed by the
    second one. *)
Theorem compute_signals_twice (fixing : Fixes) (self self1 : Backtest) :
  zero_table (signals_of fixing self) ->
  compute_signals fixing self = Ok self1 ->
  exists self2,
    compute_signals fixing self1 = Ok self2 /\
    (forall c t,
       at_ (signals_of fixing self2) c t =~
       fmul (Fin 2) (at_ (signals_of fixing self1) c t)) /\
    (forall c t q,
       at_ (signals_of fixing self1) c t = Fin q -> ~ q == 0 ->
       ~ at_ (signals_of fixing self2) c t =~ at_ (signals_of fixing self1) c t).
Proof.
  intros Hz H.
  destruct (compute_signals_inv _ _ _ H) as [sub [s1 [Hsub [Hloop ->]]]].
  destruct (composite_loop_total _ _ _ s1 _ Hloop (composite_loop_dom _ _ _ _ Hloop))
    as [s2 Hloop2].
  assert (Hdouble : forall c t, at_ s2 c t =~ fmul (Fin 2) (at_ s1 c t)).
  { intros c t.
    pose proof (composite_loop_effect _ _ _ _ Hloop c t) as E1.
    pose proof (composite_loop_effect _ _ _ _ Hloop2 c t) as E2.
    eapply feq_trans; [exact E2|].
    eapply feq_trans; [|apply feq_sym; apply fmul_two].
    destruct (zero_table_cell _ c t Hz) as [Hn|Hn]; rewrite Hn in E1.
    - cbn [fadd] in E1. destruct (at_ s1 c t); try contradiction. reflexivity.
    - apply fadd_feq; [apply feq_refl|].
      apply feq_sym. eapply feq_trans; [exact E1 | apply fadd_zero_l]. }
  exists (set_signals fixing s2 (set_signals fixing s1 self)).
  split; [|split].
  - rewrite compute_signals_set_signals, Hsub. cbn [bind].
    rewrite Hloop2. reflexivity.
  - intros c t. rewrite !signals_of_set_signals. apply Hdouble.
  - intros c t q. rewrite !signals_of_set_signals. intros Hq Hq0 Heq.
    pose proof (Hdouble c t) as Hd. rewrite Hq in *.
    destruct (at_ s2 c t); cbn [feq fmul] in *; try contradiction.
    apply Hq0. lra.
Qed.

End Accumulation.

Lemma init_zero_table fixing idx fx_lon fx_ny swaps_lon swaps_ny w :
  zero_table (signals_of fixing (init idx fx_lon fx_ny swaps_lon swaps_ny w)).
Proof.
  assert (H : forall T ls, zero_table (full T ls fzero)).
  { intros T ls p Hp. unfold full in Hp. apply in_map_iff in Hp.
    destruct Hp as [l [<- _]]. cbn [snd].
    apply Forall_forall. intros x Hx. apply repeat_spec in Hx. exact Hx. }
  destruct fixing; apply H.
Qed.

Lemma compute_signals_twice_witness :
  exists self2,
    compute_signals LON Sample.three_signals = Ok self2 /\
    at_ (signals_lon self2) "AUDUSD" 1 =~
    fmul (Fin 2) (at_ (signals_lon Sample.three_signals) "AUDUSD" 1) /\
    ~ at_ (signals_lon self2) "AUDUSD" 1 =~
      at_ (signals_lon Sample.three_signals) "AUDUSD" 1.
Proof.
  destruct (compute_signals_twice LON Sample.three Sample.three_signals)
    as [self2 [H2 [Hd Hn]]].
  - apply (init_zero_table LON).
  - vm_compute. reflexivity.
  - exists self2. split; [exact H2|]. split; [apply (Hd "AUDUSD" 1%nat)|].
    apply (Hn "AUDUSD" 1%nat 1); [vm_compute; reflexivity | discriminate].
Defined.

(** ** Yearly statistics (C9) *)

Section Statistics.

Variable sqrtQ : Q -> Q.

Lemma length_notnan col : (List.length (notnan col) <= List.length col)%nat.
Proof. unfold notnan. apply filter_length_le. Qed.

Lemma std_short col : (List.length col < 2)%nat -> std sqrtQ col = NaN.
Proof.
  intros H. unfold std. pose proof (length_notnan col) as Hl.
  destruct (Nat.leb_spec (List.length (notnan col)) 1); [reflexivity | lia].
Qed.

Lemma compute_vol_short col :
  (List.length col < 2)%nat -> compute_vol sqrtQ col = NaN.
Proof. intros H. unfold compute_vol. rewrite (std_short col H). reflexivity. Qed.

Lemma compute_stats_ok self0 :
  compute_stats sqrtQ (compute_pnl self0) =
  let total_pct := map (fun x => fdiv x (Fin 1000000)) (pnl_total self0) in
  let bins := resample_Y (index self0) total_pct in
  Ok (mkStats (map fst bins)
        [("return", map (fun b => compute_return (snd b)) bins);
         ("vol", map (fun b => compute_vol sqrtQ (snd b)) bins);
         ("sharpe", col_div (map (fun b => compute_return (snd b)) bins)
                            (map (fun b => compute_vol sqrtQ (snd b)) bins))]).
Proof.
  unfold compute_stats. rewrite pnl_compute_pnl. unfold getitem.
  rewrite get_setitem_neq by discriminate.
  rewrite !get_setitem_eq. reflexivity.
Qed.

(** C9: the statistics of a P&L table are computed without an exception;
    the table has the three columns [return], [vol] and [sharpe] with one
    cell per calendar year of the axis, and in a year with fewer than two
    observations of [total_pct] the cells of the volatility and of the
    Sharpe ratio hold NaN. *)
Theorem compute_stats_short_year (self0 : Backtest) :
  exists st total_pct ret vol sharpe,
    compute_stats sqrtQ (compute_pnl self0) = Ok st /\
    get "total_pct" (pnl_of (compute_pnl self0)) = Some total_pct /\
    stats_years st = year_range (index self0) /\
    stats_columns st = [("return", ret); ("vol", vol); ("sharpe", sharpe)] /\
    List.length ret = List.length (stats_years st) /\
    List.length vol = List.length (stats_years st) /\
    List.length sharpe = List.length (stats_years st) /\
    forall k y,
      nth_error (stats_years st) k = Some y ->
      (List.length (year_bin (index self0) total_pct y) < 2)%nat ->
      nth_error vol k = Some NaN /\
      nth_error sharpe k = Some NaN.
Proof.
  do 5 eexists.
  split; [apply compute_stats_ok|].
  split; [unfold pnl_of; rewrite pnl_compute_pnl; apply get_setitem_eq|].
  cbv zeta. cbn [stats_years stats_columns].
  set (total_pct := map (fun x => fdiv x (Fin 1000000)) (pnl_total self0)).
  assert (Hy : map fst (resample_Y (index self0) total_pct)
               = year_range (index self0)).
  { unfold resample_Y. rewrite map_map. cbn [fst]. apply map_id. }
  assert (Hn : List.length (resample_Y (index self0) total_pct)
               = List.length (year_range (index self0))).
  { unfold resample_Y. apply length_map. }
  split; [exact Hy|].
  split; [reflexivity|].
  rewrite Hy.
  split; [rewrite length_map; exact Hn|].
  split; [rewrite length_map; exact Hn|].
  split.
  { unfold col_div.
    assert (Hm : forall (a b : column),
              List.length (map2 fdiv a b)
              = Nat.min (List.length a) (List.length b)).
    { induction a as [|x a IH]; intros [|z b]; try reflexivity.
      cbn [map2 List.length]. rewrite IH. reflexivity. }
    rewrite Hm. unfold resample_Y. rewrite !length_map. apply Nat.min_id. }
  intros k y Hk Hshort. subst total_pct.
  assert (Hvol : nth_error (map (fun b => compute_vol sqrtQ (snd b))
                   (resample_Y (index self0)
                      (map (fun x => fdiv x (Fin 1000000)) (pnl_total self0))))
                   k = Some NaN).
  { unfold resample_Y. rewrite map_map. cbn [snd].
    rewrite nth_error_map, Hk. cbn [option_map].
    rewrite (compute_vol_short _ Hshort). reflexivity. }
  split; [exact Hvol|].
  unfold col_div. rewrite nth_error_map2, Hvol.
  unfold resample_Y. rewrite map_map, nth_error_map, Hk. cbn [option_map].
  rewrite fdiv_nan_r. reflexivity.
Qed.

End Statistics.

Lemma compute_stats_short_year_witness :
  exists st ret vol sharpe,
    compute_stats (fun q => q) (compute_pnl Sample.gappy) = Ok st /\
    stats_years st = [2020; 2021; 2022]%Z /\
    stats_columns st = [("return", ret); ("vol", vol); ("sharpe", sharpe)] /\
    List.length ret = 3%nat /\
    nth_error vol 1 = Some NaN /\
    nth_error vol 2 = Some NaN /\
    nth_error sharpe 2 = Some NaN.
Proof.
  destruct (compute_stats_short_year (fun q => q) Sample.gappy)
    as [st [tp [ret [vol [sharpe [Hst [Htp [Hy [Hc [_ [_ [_ Hrows]]]]]]]]]]]].
  vm_compute in Htp. injection Htp as <-.
  exists st, ret, vol, sharpe. split; [exact Hst|].
  split; [rewrite Hy; reflexivity|].
  split; [exact Hc|].
  split.
  - pose proof Hst as E. vm_compute in E. injection E as E.
    rewrite <- E in Hc. cbn [stats_columns] in Hc.
    injection Hc as Hr _ _. rewrite <- Hr. reflexivity.
  - destruct (Hrows 1%nat 2021%Z) as [H1 _];
      [rewrite Hy; reflexivity | vm_compute; lia |].
    destruct (Hrows 2%nat 2022%Z) as [H2 H3];
      [rewrite Hy; reflexivity | vm_compute; lia |].
    split; [exact H1|]. split; [exact H2 | exact H3].
Defined.

(** ** The orchestrator (C8) *)

Section Orchestrator.

Lemma compute_signals_other fixing self self' :
  compute_signals fixing self = Ok self' ->
  signals_of (other fixing) self' = signals_of (other fixing) self.
Proof.
  intros H. destruct (compute_signals_inv _ _ _ H) as [sub [s1 [_ [_ ->]]]].
  destruct fixing; reflexivity.
Qed.


End Orchestrator.




(* ================================================================== *)
(** * Further properties of the pipeline *)

(** ** The discretization step *)

Section Discretization.

Lemma length_map2 (A B C : Type) (g : A -> B -> C) a b :
  List.length (map2 g a b) = Nat.min (List.length a) (List.length b).
Proof.
  revert b; induction a as [|x a IH]; intros b; [reflexivity|].
  destruct b as [|y b]; [reflexivity|].
  cbn [map2 List.length Nat.min]. rewrite IH. reflexivity.
Qed.

(** X1: for a pair column and a threshold column over the same rows, the
    discretized column has a cell for every row, and each of its cells is
    0, 1 or -1: it never holds NaN, an infinity or another number. *)
Theorem discretize_cells_are_signs (col thr : column) :
  List.length col = List.length thr ->
  List.length (discretize col thr) = List.length col /\
  forall t x,
    nth_error (discretize col thr) t = Some x ->
    x = Fin 0 \/ x =~ Fin 1 \/ x =~ Fin (-1).
Proof.
  intros Hlen. rewrite discretize_cellwise.
  split; [rewrite length_map2, <- Hlen; apply Nat.min_id|].
  intros t x. rewrite nth_error_map2.
  destruct (nth_error col t) as [c|]; [|discriminate].
  destruct (nth_error thr t) as [h|]; [|discriminate].
  intros H; inversion H; subst x. apply discretize_cell_values.
Qed.

End Discretization.

Lemma discretize_cells_are_signs_witness :
  List.length (discretize [PInf; NaN; Fin (5 # 2)] [Fin 1; Fin 1; Fin 3]) = 3%nat /\
  (Fin 1 = Fin 0 \/ Fin 1 =~ Fin 1 \/ Fin 1 =~ Fin (-1)).
Proof.
  destruct (discretize_cells_are_signs [PInf; NaN; Fin (5 # 2)]
              [Fin 1; Fin 1; Fin 3] eq_refl) as [Hlen Hval].
  split; [exact Hlen|].
  apply (Hval 0%nat). reflexivity.
Defined.

(** ** The signal tables *)

(** X2: [compute_signals] keeps both signal tables integer valued (the
    constructor starts them at zero): it changes the table of its session by
    whole numbers and leaves the other one alone. *)
Theorem compute_signals_keeps_integers
    (fixing : Fixes) (self self' : Backtest) :
  integral (signals_lon self) -> integral (signals_ny self) ->
  compute_signals fixing self = Ok self' ->
  integral (signals_lon self') /\ integral (signals_ny self').
Proof.
  intros Hl Hn H.
  pose proof (compute_signals_other fixing self self' H) as Ho.
  destruct fixing; cbn [other signals_of] in Ho.
  - split; [apply (compute_signals_integral LON self self' Hl H)|].
    rewrite Ho; exact Hn.
  - split; [rewrite Ho; exact Hl|].
    apply (compute_signals_integral NY self self' Hn H).
Qed.

Lemma compute_signals_keeps_integers_witness :
  integral (signals_lon Sample.three_signals) /\
  integral (signals_ny Sample.three_signals).
Proof.
  apply (compute_signals_keeps_integers LON Sample.three Sample.three_signals).
  - apply zero_table_integral. apply (init_zero_table LON).
  - apply zero_table_integral. apply (init_zero_table NY).
  - vm_compute. reflexivity.
Defined.

(** ** The first row and the columns of the P&L table *)

Section PnLShape.

(** X3: on a time axis that is not empty, the first row of the P&L table is
    NaN in every instrument column, 0 in [total] and 0 in [total_pct],
    whatever the prices and the positions are. *)
Theorem compute_pnl_first_row (self : Backtest) :
  (0 < nrows self)%nat ->
  (forall i, i <> "total" -> i <> "total_pct" ->
     at_ (pnl_of (compute_pnl self)) i 0 = NaN) /\
  at_ (pnl_of (compute_pnl self)) "total" 0 = Fin 0 /\
  at_ (pnl_of (compute_pnl self)) "total_pct" 0 =~ Fin 0.
Proof.
  intros HT. unfold pnl_of. rewrite pnl_compute_pnl.
  assert (Htot : cell (pnl_total self) 0 = Fin 0).
  { rewrite cell_pnl_total. apply Nat.ltb_lt in HT; rewrite HT.
    rewrite row_instrument_pnl.
    erewrite map_ext; [apply nansum_nans|].
    intros l. cbv beta. rewrite cell_shift1_0. apply fmul_nan_r. }
  split; [|split].
  - intros i H1 H2.
    rewrite at_pnl_instrument, at_instrument_pnl by assumption.
    rewrite cell_shift1_0. apply fmul_nan_r.
  - rewrite at_pnl_total. exact Htot.
  - rewrite at_pnl_total_pct, Htot. vm_compute. reflexivity.
Qed.

Lemma cell_shift1_repeat_nan T t : cell (shift1 (repeat NaN T)) t = NaN.
Proof.
  destruct t as [|t]; [apply cell_shift1_0|].
  apply cell_shift1_nan. apply cell_repeat_nan.
Qed.

(** X4: the P&L table has an instrument column for every label of the
    position table or of the LON spot table (an outer join), and the column
    of an instrument that only one of the two tables has is NaN in every
    row. *)
Theorem compute_pnl_outer_join (self : Backtest) (i : string) :
  i <> "total" -> i <> "total_pct" ->
  (get i (pnl_of (compute_pnl self)) <> None <->
   In i (labels (positions self)) \/ In i (labels (fx_lon_fixes self))) /\
  (~ In i (labels (positions self)) \/ ~ In i (labels (fx_lon_fixes self)) ->
   forall t, at_ (pnl_of (compute_pnl self)) i t = NaN).
Proof.
  intros H1 H2. unfold pnl_of. rewrite pnl_compute_pnl. split.
  - rewrite !get_setitem_neq by assumption.
    unfold instrument_pnl. rewrite get_frame_mul, get_reindex.
    destruct (in_dec string_dec i _) as [Hin|Hout].
    + apply In_union_labels in Hin. rewrite labels_frame_map in Hin.
      split; [intros _; exact Hin | intros _; discriminate].
    + split; [intros H; exfalso; apply H; reflexivity|].
      intros Hin. exfalso. apply Hout. apply In_union_labels.
      rewrite labels_frame_map. exact Hin.
  - intros Hmiss t.
    rewrite at_pnl_instrument, at_instrument_pnl by assumption.
    destruct Hmiss as [Hp|Hf].
    + apply get_none_not_in in Hp. unfold column_or_nan. rewrite Hp.
      rewrite cell_shift1_repeat_nan. apply fmul_nan_r.
    + assert (Hn : get i (frame_map pct_change (fx_lon_fixes self)) = None).
      { apply get_none_not_in. rewrite labels_frame_map. exact Hf. }
      rewrite (at_missing _ _ t Hn). reflexivity.
Qed.

End PnLShape.

Lemma compute_pnl_first_row_witness :
  at_ (pnl_of (compute_pnl (compute_positions LON 1000000 Sample.three_signals)))
      "AUDUSD" 0 = NaN /\
  at_ (pnl_of (compute_pnl (compute_positions LON 1000000 Sample.three_signals)))
      "total" 0 = Fin 0.
Proof.
  destruct (compute_pnl_first_row
              (compute_positions LON 1000000 Sample.three_signals))
    as [Hi [Ht _]].
  - vm_compute. lia.
  - split; [apply Hi; discriminate | exact Ht].
Defined.

Lemma compute_pnl_outer_join_witness :
  get "JPYUSD"
      (pnl_of (compute_pnl
                 (set_positions [("JPYUSD", Sample.series [1; 2; 3])]
                    Sample.three))) <> None /\
  at_ (pnl_of (compute_pnl
                 (set_positions [("JPYUSD", Sample.series [1; 2; 3])]
                    Sample.three))) "AUDUSD" 2 = NaN.
Proof.
  destruct (compute_pnl_outer_join
              (set_positions [("JPYUSD", Sample.series [1; 2; 3])] Sample.three)
              "JPYUSD") as [Hcol _]; [discriminate | discriminate |].
  destruct (compute_pnl_outer_join
              (set_positions [("JPYUSD", Sample.series [1; 2; 3])] Sample.three)
              "AUDUSD") as [_ Hnan]; [discriminate | discriminate |].
  split.
  - apply Hcol. left. simpl. left. reflexivity.
  - apply Hnan. left. simpl. intros [H|[]]. discriminate.
Defined.

(** ** Attributes the pipeline does not create *)

Section Attributes.

Variable sqrtQ : Q -> Q.

Lemma run_inv self self' :
  run self = Ok self' ->
  exists s, compute_signals LON self = Ok s /\
            self' = compute_pnl (compute_positions LON 1000000 s).
Proof.
  unfold run. destruct (compute_signals LON self) as [s|]; [|discriminate].
  cbn [bind]. intros H; inversion H. exists s. split; reflexivity.
Qed.

(** X5: no step of [run] attaches a spread table: after [run] on an
    instance as the constructor builds it, [compute_transaction_costs]
    raises [AttributeError] for [spreads]. *)
Theorem run_never_attaches_spreads
    (idx : list timestamp) (fx_lon fx_ny swaps_lon swaps_ny : frame)
    (w : nat) (self' : Backtest) :
  run (init idx fx_lon fx_ny swaps_lon swaps_ny w) = Ok self' ->
  compute_transaction_costs self' = Raise (AttributeError "spreads").
Proof.
  intros H. destruct (run_inv _ _ H) as [s [Hs ->]].
  destruct (compute_signals_inv _ _ _ Hs) as [sub [s1 [_ [_ ->]]]].
  reflexivity.
Qed.

(** X6: [compute_stats] needs the P&L table: on an instance as the
    constructor builds it, and still after [compute_signals] and
    [compute_positions], it raises [AttributeError] for [pnl]; after [run]
    it returns a table. *)
Theorem compute_stats_needs_pnl
    (idx : list timestamp) (fx_lon fx_ny swaps_lon swaps_ny : frame)
    (w : nat) :
  compute_stats sqrtQ (init idx fx_lon fx_ny swaps_lon swaps_ny w)
    = Raise (AttributeError "pnl") /\
  (forall fixing tge s,
     compute_signals fixing (init idx fx_lon fx_ny swaps_lon swaps_ny w) = Ok s ->
     compute_stats sqrtQ (compute_positions fixing tge s)
       = Raise (AttributeError "pnl")) /\
  (forall self',
     run (init idx fx_lon fx_ny swaps_lon swaps_ny w) = Ok self' ->
     exists st, compute_stats sqrtQ self' = Ok st).
Proof.
  split; [reflexivity|]. split.
  - intros fixing tge s Hs.
    destruct (compute_signals_inv _ _ _ Hs) as [sub [s1 [_ [_ ->]]]].
    destruct fixing; reflexivity.
  - intros self' H. destruct (run_inv _ _ H) as [s [_ ->]].
    eexists. apply compute_stats_ok.
Qed.

End Attributes.

Lemma run_never_attaches_spreads_witness :
  compute_transaction_costs (after (run Sample.three) Sample.three)
    = Raise (AttributeError "spreads").
Proof.
  apply (run_never_attaches_spreads (Sample.axis 3) Sample.fx3 Sample.fx3
           Sample.swaps3 Sample.swaps3 2).
  vm_compute. reflexivity.
Defined.

Lemma compute_stats_needs_pnl_witness :
  compute_stats (fun q => q)
    (compute_positions LON 1000000 Sample.three_signals)
    = Raise (AttributeError "pnl") /\
  exists st, compute_stats (fun q => q) (after (run Sample.three) Sample.three)
             = Ok st.
Proof.
  destruct (compute_stats_needs_pnl (fun q => q) (Sample.axis 3) Sample.fx3
              Sample.fx3 Sample.swaps3 Sample.swaps3 2) as [_ [Hpos Hrun]].
  split.
  - apply (Hpos LON 1000000 Sample.three_signals). vm_compute. reflexivity.
  - apply Hrun. vm_compute. reflexivity.
Defined.

(** ** Yearly return *)

Section YearlyReturn.

Variable sqrtQ : Q -> Q.

(** The yearly return of a single observation is that observation: the
    mean over one cell, times one. *)
Lemma compute_return_single q : compute_return [Fin q] =~ Fin q.
Proof.
  unfold compute_return, mean, notnan, nansum, of_nat.
  cbn [filter is_nan negb fold_right List.length fadd fzero fdiv].
  change (inject_Z (Z.of_nat 1)) with 1.
  change (Qeq_bool 1 0) with false.
  cbn [fmul feq]. field.
Qed.

(** X7: the yearly [return] is not annualised.  The statistics table has a
    [return] column with a cell for every year of the range; for a year
    with a single [total_pct] observation, a number, the cell holds that
    number (the mean over one cell, times one), and for a year without
    rows it holds NaN. *)
Theorem compute_stats_return_short_year
    (self0 : Backtest) (st : stats_table) (k : nat) (y : Z) :
  compute_stats sqrtQ (compute_pnl self0) = Ok st ->
  nth_error (stats_years st) k = Some y ->
  exists ret x,
    get "return" (stats_columns st) = Some ret /\
    nth_error ret k = Some x /\
    (forall q,
       year_bin (index self0)
         (column_or_nan 0 (pnl_of (compute_pnl self0)) "total_pct") y
       = [Fin q] ->
       x =~ Fin q) /\
    (year_bin (index self0)
       (column_or_nan 0 (pnl_of (compute_pnl self0)) "total_pct") y = [] ->
     x = NaN).
Proof.
  rewrite compute_stats_ok. cbv zeta. intros Hst Hk.
  inversion Hst; subst st; clear Hst. cbn [stats_years stats_columns] in *.
  assert (Htp : column_or_nan 0 (pnl_of (compute_pnl self0)) "total_pct"
                = map (fun x => fdiv x (Fin 1000000)) (pnl_total self0)).
  { unfold column_or_nan, pnl_of. rewrite pnl_compute_pnl, get_setitem_eq.
    reflexivity. }
  rewrite Htp.
  set (tp := map (fun x => fdiv x (Fin 1000000)) (pnl_total self0)) in *.
  assert (Hy : map fst (resample_Y (index self0) tp) = year_range (index self0)).
  { unfold resample_Y. rewrite map_map. cbn [fst]. apply map_id. }
  rewrite Hy in Hk.
  exists (map (fun b => compute_return (snd b)) (resample_Y (index self0) tp)),
         (compute_return (year_bin (index self0) tp y)).
  split; [reflexivity|]. split.
  - unfold resample_Y. rewrite map_map. cbn [snd].
    rewrite nth_error_map, Hk. reflexivity.
  - split.
    + intros q Hbin. rewrite Hbin. apply compute_return_single.
    + intros Hbin. rewrite Hbin. reflexivity.
Qed.

End YearlyReturn.

Lemma compute_stats_return_short_year_witness :
  exists st ret x,
    compute_stats (fun q => q) (compute_pnl Runs.gappy_positions) = Ok st /\
    get "return" (stats_columns st) = Some ret /\
    nth_error ret 2 = Some x /\ x =~ Fin (3 # 4) /\
    nth_error ret 1 = Some NaN.
Proof.
  destruct (compute_stats (fun q => q) (compute_pnl Runs.gappy_positions))
    as [st|] eqn:E; [|vm_compute in E; discriminate].
  assert (Hy : stats_years st = [2020; 2021; 2022]%Z).
  { pose proof E as E'. vm_compute in E'. inversion E'. reflexivity. }
  destruct (compute_stats_return_short_year (fun q => q) Runs.gappy_positions
              st 2 2022%Z E) as [ret [x [Hret [Hx [Hone _]]]]];
    [rewrite Hy; reflexivity|].
  destruct (compute_stats_return_short_year (fun q => q) Runs.gappy_positions
              st 1 2021%Z E) as [ret' [x' [Hret' [Hx' [_ Hnone]]]]];
    [rewrite Hy; reflexivity|].
  rewrite Hret in Hret'. injection Hret' as <-.
  exists st, ret, x. split; [reflexivity|]. split; [exact Hret|].
  split; [exact Hx|]. split.
  - eapply feq_trans;
      [apply (Hone (12000000 # 16000000)); vm_compute; reflexivity|].
    vm_compute. reflexivity.
  - rewrite Hx'. f_equal. apply Hnone. vm_compute. reflexivity.
Defined.

(** ** Positions follow the signals *)

Section Proportional.

Lemma row_gross_positive f t :
  (forall p, In p f -> exists q, cell (snd p) t = Fin q) ->
  (exists i q, at_ f i t = Fin q /\ ~ q == 0) ->
  exists qs, row f t = map Fin qs /\ 0 < Qsum (map Qabs qs).
Proof.
  intros Hfin [i [q [Hi Hq]]].
  destruct (row_finite _ t Hfin) as [qs Hqs].
  exists qs. split; [exact Hqs|].
  assert (Hin : In q qs).
  { unfold at_ in Hi. destruct (get i f) as [col|] eqn:E; [|discriminate].
    apply get_in in E.
    assert (Hr : In (Fin q) (row f t)).
    { unfold row. rewrite <- Hi. apply (in_map (fun p => cell (snd p) t) _ _ E). }
    rewrite Hqs in Hr. apply in_map_iff in Hr. destruct Hr as [q' [Hq' Hin']].
    inversion Hq'; subst; exact Hin'. }
  pose proof (Qsum_abs_ge q qs Hin). pose proof (Qabs_pos_lt q Hq). lra.
Qed.

(** X8: at a row where every composite signal is a number and one of them
    is not zero, every position is its signal times one positive base
    amount of the row: long where the signal is positive, short where it
    is negative, flat where it is zero. *)
Theorem compute_positions_proportional
    (fixing : Fixes) (tge : Q) (self : Backtest) (t : nat) :
  0 < tge ->
  (t < nrows self)%nat ->
  (forall p, In p (signals_of fixing self) -> exists q, cell (snd p) t = Fin q) ->
  (exists i q, at_ (signals_of fixing self) i t = Fin q /\ ~ q == 0) ->
  exists b,
    0 < b /\
    forall i q,
      at_ (signals_of fixing self) i t = Fin q ->
      at_ (positions (compute_positions fixing tge self)) i t = Fin (q * b).
Proof.
  intros Htge Ht Hfin Hnz.
  destruct (row_gross_positive _ t Hfin Hnz) as [qs [Hqs Hpos]].
  exists (tge / Qsum (map Qabs qs)). split.
  - apply Qlt_shift_div_l; [exact Hpos | lra].
  - intros i q Hi.
    unfold compute_positions, set_positions; cbn [positions].
    unfold at_ in *. rewrite get_frame_map.
    destruct (get i (signals_of fixing self)) as [col|]; [|discriminate].
    cbn [option_map]. rewrite cell_col_mul, cell_base_amt by exact Ht.
    rewrite Hi, Hqs, map_fabs_fins, nansum_fins.
    cbn [fdiv]. rewrite Qeq_bool_false by lra. reflexivity.
Qed.

End Proportional.

Lemma compute_positions_proportional_witness :
  exists b,
    0 < b /\
    at_ (positions (compute_positions LON 1000000 Sample.three_signals))
        "EURUSD" 1 = Fin (-1 * b).
Proof.
  destruct (compute_positions_proportional LON 1000000 Sample.three_signals 1)
    as [b [Hb Hcells]].
  - reflexivity.
  - vm_compute. lia.
  - intros p Hp. vm_compute in Hp.
    repeat (destruct Hp as [<-|Hp]; [eexists; vm_compute; reflexivity|]).
    destruct Hp.
  - exists "AUDUSD", 1. split; [vm_compute; reflexivity | discriminate].
  - exists b. split; [exact Hb|]. apply Hcells. vm_compute. reflexivity.
Defined.

(** ** Missing swap columns *)

Section MissingSwap.

Lemma pair_subsignal_cases w swaps c1 c2 :
  (exists s, pair_subsignal w swaps c1 c2 = Ok s /\
             get (c1 ++ "USD") swaps <> None /\
             get (c2 ++ "USD") swaps <> None) \/
  (exists c, (c = c1 \/ c = c2) /\ get (c ++ "USD") swaps = None /\
             pair_subsignal w swaps c1 c2 = Raise (KeyError (c ++ "USD"))).
Proof.
  unfold pair_subsignal, getitem.
  destruct (get (c1 ++ "USD") swaps) as [a|] eqn:Ea.
  - destruct (get (c2 ++ "USD") swaps) as [b|] eqn:Eb.
    + left. eexists. split; [reflexivity|]. split; discriminate.
    + right. exists c2. split; [right; reflexivity|]. split; [exact Eb | reflexivity].
  - right. exists c1. split; [left; reflexivity|]. split; [exact Ea | reflexivity].
Qed.

Lemma inner_loop_cases w swaps c1 rest sub :
  (exists sub', inner_loop w swaps c1 rest sub = Ok sub' /\
     forall c2, In c2 rest ->
       get (c1 ++ "USD") swaps <> None /\ get (c2 ++ "USD") swaps <> None) \/
  (exists c, In c (c1 :: rest) /\ get (c ++ "USD") swaps = None /\
     inner_loop w swaps c1 rest sub = Raise (KeyError (c ++ "USD"))).
Proof.
  revert sub; induction rest as [|c2 rest IH]; intros sub.
  - left. exists sub. split; [reflexivity | intros c2 []].
  - cbn [inner_loop].
    destruct (pair_subsignal_cases w swaps c1 c2)
      as [[s [Hs [H1 H2]]] | [c [Hc [Hnone Hs]]]]; rewrite Hs; cbn [bind].
    + destruct (IH (setitem sub (c1 ++ c2) s))
        as [[sub' [Hok Hall]] | [c [Hc [Hnone Hr]]]].
      * left. exists sub'. split; [exact Hok|].
        intros c [<-|Hin]; [split; assumption | apply Hall; exact Hin].
      * right. exists c. split; [|split; assumption].
        destruct Hc as [<-|Hc]; [left; reflexivity | right; right; exact Hc].
    + right. exists c. split; [|split; [exact Hnone | reflexivity]].
      destruct Hc as [->| ->]; [left; reflexivity | right; left; reflexivity].
Qed.

Lemma outer_loop_cases w swaps cs sub :
  (exists sub', outer_loop w swaps cs sub = Ok sub' /\
     forall c1 c2, In (c1, c2) (combinations2 cs) ->
       get (c1 ++ "USD") swaps <> None /\ get (c2 ++ "USD") swaps <> None) \/
  (exists c, In c cs /\ get (c ++ "USD") swaps = None /\
     outer_loop w swaps cs sub = Raise (KeyError (c ++ "USD"))).
Proof.
  revert sub; induction cs as [|c1 rest IH]; intros sub.
  - left. exists sub. split; [reflexivity | intros c1 c2 []].
  - cbn [outer_loop combinations2].
    destruct (inner_loop_cases w swaps c1 rest sub)
      as [[sub1 [Hok Hall]] | [c [Hc [Hnone Hr]]]]; [rewrite Hok | rewrite Hr];
      cbn [bind].
    + destruct (IH sub1) as [[sub' [Hok' Hall']] | [c [Hc [Hnone Hr]]]].
      * left. exists sub'. split; [exact Hok'|].
        intros a b Hin. apply in_app_iff in Hin. destruct Hin as [Hin|Hin].
        -- apply in_map_iff in Hin. destruct Hin as [c2 [E Hc2]].
           inversion E; subst. apply Hall; exact Hc2.
        -- apply Hall'; exact Hin.
      * right. exists c. split; [right; exact Hc | split; assumption].
    + right. exists c. split; [exact Hc | split; [exact Hnone | reflexivity]].
Qed.

Lemma In_combinations2 c cs :
  In c cs -> (2 <= List.length cs)%nat ->
  exists c', In (c, c') (combinations2 cs) \/ In (c', c) (combinations2 cs).
Proof.
  destruct cs as [|x rest]; [intros []|].
  intros [->|Hin] Hlen.
  - destruct rest as [|y rest]; [simpl in Hlen; lia|].
    exists y. left. cbn [combinations2 map]. left. reflexivity.
  - exists x. right. cbn [combinations2]. apply in_app_iff. left.
    apply in_map. exact Hin.
Qed.

(** X9: with two countries or more, a country whose swap column
    (the code followed by USD) is missing from the swap table of the
    session makes [compute_signals] raise [KeyError], and the key it names
    is a missing swap column of one of the countries. *)
Theorem compute_signals_missing_swap_column
    (fixing : Fixes) (self : Backtest) (c : string) :
  (2 <= List.length (countries self))%nat ->
  In c (countries self) ->
  get (c ++ "USD") (swaps_of fixing self) = None ->
  exists c',
    In c' (countries self) /\
    get (c' ++ "USD") (swaps_of fixing self) = None /\
    compute_signals fixing self = Raise (KeyError (c' ++ "USD")).
Proof.
  intros Hlen Hin Hnone.
  unfold compute_signals, subsignals_table.
  destruct (outer_loop_cases (ma_window self) (swaps_of fixing self)
              (countries self)
              (full (nrows self)
                 (map (fun p => fst p ++ snd p)
                    (combinations2 (countries self))) NaN))
    as [[sub' [Hok Hall]] | [c' [Hc' [Hn' Hr]]]].
  - exfalso. destruct (In_combinations2 c _ Hin Hlen) as [c2 [Hp|Hp]];
      destruct (Hall _ _ Hp) as [H1 H2]; congruence.
  - exists c'. split; [exact Hc'|]. split; [exact Hn'|].
    rewrite Hr. reflexivity.
Qed.

End MissingSwap.

Lemma compute_signals_missing_swap_column_witness :
  exists c',
    In c' ["EUR"; "JPY"] /\
    compute_signals LON
      (init (Sample.axis 3)
         [("EURUSD", Sample.series [1; 2; 3]); ("JPYUSD", Sample.series [1; 1; 1])]
         [] [("EURUSD", Sample.series [1; 3; 3])] [] 2)
    = Raise (KeyError (c' ++ "USD")).
Proof.
  destruct (compute_signals_missing_swap_column LON
              (init (Sample.axis 3)
                 [("EURUSD", Sample.series [1; 2; 3]);
                  ("JPYUSD", Sample.series [1; 1; 1])]
                 [] [("EURUSD", Sample.series [1; 3; 3])] [] 2) "JPY")
    as [c' [Hin [_ Hr]]].
  - simpl. lia.
  - simpl. right. left. reflexivity.
  - reflexivity.
  - exists c'. split; [exact Hin | exact Hr].
Defined.

(** ** Transaction costs with the module's spread table *)

Section CostSign.

Lemma spreads_dict_positive i :
  at_ spreads_dict i 0 = NaN \/
  exists u, at_ spreads_dict i 0 = Fin u /\ 0 < u.
Proof.
  unfold at_, spreads_dict. cbn [get].
  repeat (match goal with
          | |- context [String.eqb ?l i] =>
              destruct (String.eqb l i);
              [right; eexists; split; [reflexivity | reflexivity]|]
          end).
  left. reflexivity.
Qed.

Lemma spreads_dict_one_row i s : at_ spreads_dict i (S s) = NaN.
Proof.
  unfold at_, spreads_dict. cbn [get].
  repeat (match goal with
          | |- context [String.eqb ?l i] =>
              destruct (String.eqb l i); [destruct s; reflexivity|]
          end).
  reflexivity.
Qed.

(** X10: with the spread table of the module attached, no transaction cost
    is negative: every cell of the cost table is NaN or at least 0. *)
Theorem compute_transaction_costs_not_negative (self : Backtest) (tc : frame) :
  spreads self = Some spreads_dict ->
  compute_transaction_costs self = Ok tc ->
  forall i t, at_ tc i t = NaN \/ fleb fzero (at_ tc i t) = true.
Proof.
  intros Hsp Htc i t.
  destruct (transaction_costs_table self spreads_dict Hsp (or_introl eq_refl))
    as [tc' [Htc' [_ Hcells]]].
  rewrite Htc' in Htc. inversion Htc; subst tc'; clear Htc.
  destruct (Hcells i) as [H0 HS].
  destruct t as [|s]; [left; exact H0|].
  rewrite HS. unfold unit_cost.
  destruct (frame_rows spreads_dict =? nrows self)%nat.
  { left. rewrite spreads_dict_one_row. apply fmul_nan_r. }
  destruct (spreads_dict_positive i) as [Hn | [u [Hu Hpos]]]; rewrite ?Hn, ?Hu.
  - left. apply fmul_nan_r.
  - destruct (fsub (at_ (positions self) i (S s)) (at_ (positions self) i s))
      as [q| | |]; cbn [fabs fmul].
    + right. cbn [fleb fzero]. apply Qle_bool_iff.
      apply Qmult_le_0_compat; [apply Qabs_nonneg | lra].
    + right. unfold inf_times. rewrite Qeq_bool_false by lra.
      rewrite Qltb_true by exact Hpos. reflexivity.
    + right. unfold inf_times. rewrite Qeq_bool_false by lra.
      rewrite Qltb_true by exact Hpos. reflexivity.
    + left. reflexivity.
Qed.

End CostSign.

Lemma compute_transaction_costs_not_negative_witness :
  exists tc,
    compute_transaction_costs
      (set_spreads spreads_dict
         (compute_positions LON 1000000 Sample.three_signals)) = Ok tc /\
    (at_ tc "EURUSD" 1 = NaN \/ fleb fzero (at_ tc "EURUSD" 1) = true).
Proof.
  destruct (compute_transaction_costs
              (set_spreads spreads_dict
                 (compute_positions LON 1000000 Sample.three_signals)))
    as [tc|] eqn:E; [|vm_compute in E; discriminate].
  exists tc. split; [reflexivity|].
  apply (compute_transaction_costs_not_negative
           (set_spreads spreads_dict
              (compute_positions LON 1000000 Sample.three_signals))
           tc eq_refl E).
Defined.

(** ** Warm-up rows *)

Section WarmUp.

Lemma zero_or_nan_add x y : zero_or_nan x -> zero_or_nan y -> zero_or_nan (fadd x y).
Proof.
  intros [->|Hx] [->|Hy]; try (left; reflexivity).
  - left. apply fadd_nan_r.
  - right. destruct x, y; simpl in *; try contradiction. lra.
Qed.

Lemma zero_or_nan_neg x : zero_or_nan x -> zero_or_nan (fneg x).
Proof.
  intros [->|Hx]; [left; reflexivity|].
  right. destruct x; simpl in *; try contradiction. lra.
Qed.

Lemma zero_or_nan_zero : zero_or_nan fzero.
Proof. right. reflexivity. Qed.

Lemma cell_none (col : column) t : nth_error col t = None -> cell col t = NaN.
Proof. intros H. apply cell_overflow. apply nth_error_None. exact H. Qed.

(** The rolling average is NaN until the window is full. *)
Lemma cell_rolling_mean_warm_up w col t :
  (t + 1 < w)%nat -> cell (rolling_mean w col) t = NaN.
Proof.
  intros Hw. unfold rolling_mean.
  destruct (Nat.ltb_spec t (List.length col)) as [Hlt|Hge].
  - rewrite (cell_seq_map
               (fun t => if (t + 1 <? w)%nat then NaN
                         else window_mean (window w t col))) by exact Hlt.
    apply Nat.ltb_lt in Hw. rewrite Hw. reflexivity.
  - apply cell_overflow. rewrite length_map, length_seq. exact Hge.
Qed.

Lemma pair_subsignal_warm_up w swaps c1 c2 s t :
  (t + 1 < w)%nat -> pair_subsignal w swaps c1 c2 = Ok s -> cell s t = NaN.
Proof.
  intros Hw. unfold pair_subsignal, getitem.
  destruct (get (c1 ++ "USD") swaps) as [a|]; [|discriminate].
  destruct (get (c2 ++ "USD") swaps) as [b|]; [|discriminate].
  cbn [bind]. intros H; inversion H; subst s.
  rewrite cell_col_div, cell_col_abs, cell_rolling_mean_warm_up by exact Hw.
  apply fdiv_nan_r.
Qed.

Lemma nan_row_setitem t f k v :
  nan_row t f -> cell v t = NaN -> nan_row t (setitem f k v).
Proof.
  intros Hf Hv c col. rewrite get_setitem.
  destruct (String.eqb k c).
  - intros H; inversion H; subst; exact Hv.
  - apply Hf.
Qed.

Lemma nan_row_full t T ls : nan_row t (full T ls NaN).
Proof.
  intros c col. unfold full.
  rewrite (get_map_label (fun _ => repeat NaN T)).
  destruct (in_dec string_dec c ls); [|discriminate].
  intros H; inversion H. apply cell_repeat_nan.
Qed.

Lemma inner_loop_warm_up w swaps c1 rest sub sub' t :
  (t + 1 < w)%nat -> nan_row t sub ->
  inner_loop w swaps c1 rest sub = Ok sub' -> nan_row t sub'.
Proof.
  intros Hw. revert sub; induction rest as [|c2 rest IH]; intros sub Hsub H.
  - inversion H; subst; exact Hsub.
  - cbn [inner_loop] in H.
    destruct (pair_subsignal w swaps c1 c2) as [s|] eqn:E; [|discriminate].
    cbn [bind] in H. apply (IH _ (nan_row_setitem t sub (c1 ++ c2) s Hsub
                                    (pair_subsignal_warm_up _ _ _ _ _ _ Hw E)) H).
Qed.

Lemma outer_loop_warm_up w swaps cs sub sub' t :
  (t + 1 < w)%nat -> nan_row t sub ->
  outer_loop w swaps cs sub = Ok sub' -> nan_row t sub'.
Proof.
  intros Hw. revert sub; induction cs as [|c1 rest IH]; intros sub Hsub H.
  - inversion H; subst; exact Hsub.
  - cbn [outer_loop] in H.
    destruct (inner_loop w swaps c1 rest sub) as [sub1|] eqn:E; [|discriminate].
    cbn [bind] in H.
    apply (IH sub1 (inner_loop_warm_up _ _ _ _ _ _ _ Hw Hsub E) H).
Qed.

Lemma In_labels_drop col k f : In col (labels (drop k f)) -> col <> k.
Proof.
  unfold labels, drop. intros H. apply in_map_iff in H.
  destruct H as [p [<- Hp]]. apply filter_In in Hp. destruct Hp as [_ Hp].
  apply negb_true_iff in Hp. apply String.eqb_neq in Hp. exact Hp.
Qed.

(** The discretized cell of a pair whose raw subsignal is NaN is 0 (or
    missing). *)
Lemma cell_discretize_nan a b t :
  cell a t = NaN -> zero_or_nan (cell (discretize a b) t).
Proof.
  intros Ha. rewrite discretize_cellwise.
  destruct (nth_error (map2 discretize_cell a b) t) as [x|] eqn:E.
  - rewrite (cell_nth_error _ _ _ E).
    rewrite nth_error_map2 in E.
    destruct (nth_error a t) as [xa|] eqn:Ea; [|discriminate].
    destruct (nth_error b t) as [h|]; [|discriminate].
    inversion E; subst x. rewrite (cell_nth_error _ _ _ Ea) in Ha. subst xa.
    right. rewrite discretize_cell_nan. reflexivity.
  - left. apply cell_none. exact E.
Qed.

Lemma loop_delta_warm_up sub0 thr cols c t :
  nan_row t sub0 ->
  (forall col, In col cols -> col <> "threshold") ->
  zero_or_nan (loop_delta (setitem sub0 "threshold" thr) cols c t).
Proof.
  intros Hsub. induction cols as [|col cols IH]; intros Hne.
  - apply zero_or_nan_zero.
  - cbn [loop_delta]. apply zero_or_nan_add.
    + assert (Hd : zero_or_nan
                     (cell (pair_data (setitem sub0 "threshold" thr) col) t)).
      { unfold pair_data. apply cell_discretize_nan.
        unfold column_or_nan. rewrite get_setitem_neq
          by (apply Hne; left; reflexivity).
        destruct (get col sub0) as [x|] eqn:E; [apply (Hsub col x E)|].
        apply cell_nil. }
      unfold step_delta. cbv zeta. apply zero_or_nan_add.
      * destruct (String.eqb _ c); [exact Hd | apply zero_or_nan_zero].
      * apply zero_or_nan_neg.
        destruct (String.eqb _ c); [exact Hd | apply zero_or_nan_zero].
    + apply IH. intros col' Hin. apply Hne. right. exact Hin.
Qed.

(** X11: [compute_signals] does not change a warm-up row: at a row [t] with
    fewer than [ma_window] observations so far ([t + 1 < ma_window]) every
    signal cell that is present after the call holds what it held before
    (0 on a fresh instance). *)
Theorem compute_signals_warm_up_rows
    (fixing : Fixes) (self self' : Backtest) (t : nat) :
  (t + 1 < ma_window self)%nat ->
  compute_signals fixing self = Ok self' ->
  forall c,
    at_ (signals_of fixing self') c t <> NaN ->
    at_ (signals_of fixing self') c t =~ at_ (signals_of fixing self) c t.
Proof.
  intros Hw H c Hpresent.
  destruct (compute_signals_inv _ _ _ H) as [sub [s1 [Hsub [Hloop ->]]]].
  rewrite signals_of_set_signals in *.
  unfold subsignals_table in Hsub.
  destruct (outer_loop (ma_window self) (swaps_of fixing self) (countries self)
              (full (nrows self)
                 (map (fun p => fst p ++ snd p) (combinations2 (countries self)))
                 NaN)) as [sub0|] eqn:E; [|discriminate].
  cbn [bind] in Hsub. inversion Hsub; subst sub; clear Hsub.
  pose proof (outer_loop_warm_up _ _ _ _ _ t Hw (nan_row_full t _ _) E) as Hrow.
  pose proof (composite_loop_effect _ _ _ _ Hloop c t) as Heff.
  destruct (loop_delta_warm_up sub0
              (quantile_axis1 (nrows self) (frame_abs sub0))
              (labels (drop "threshold"
                         (setitem sub0 "threshold"
                            (quantile_axis1 (nrows self) (frame_abs sub0)))))
              c t Hrow (fun col => In_labels_drop col "threshold" _))
    as [Hd|Hd].
  - rewrite Hd, fadd_nan_r in Heff.
    destruct (at_ s1 c t); simpl in Heff; contradiction.
  - eapply feq_trans; [exact Heff|].
    destruct (at_ (signals_of fixing self) c t), (loop_delta _ _ c t);
      simpl in *; try contradiction; auto. lra.
Qed.

End WarmUp.

Lemma compute_signals_warm_up_rows_witness :
  at_ (signals_lon Sample.three_signals) "AUDUSD" 0
  =~ at_ (signals_lon Sample.three) "AUDUSD" 0.
Proof.
  apply (compute_signals_warm_up_rows LON Sample.three Sample.three_signals 0).
  - vm_compute. lia.
  - vm_compute. reflexivity.
  - vm_compute. discriminate.
Defined.

(** ** No look-ahead in the signals *)

Section NoLookAhead.

Lemma firstn_map2 (A B C : Type) (g : A -> B -> C) n a b :
  firstn n (map2 g a b) = map2 g (firstn n a) (firstn n b).
Proof.
  revert a b; induction n as [|n IH]; intros a b; [reflexivity|].
  destruct a as [|x a]; [reflexivity|].
  destruct b as [|y b]; [reflexivity|].
  cbn [map2 firstn]. rewrite IH. reflexivity.
Qed.

Lemma nth_error_prefix (a a' : column) t :
  firstn (S t) a = firstn (S t) a' -> nth_error a t = nth_error a' t.
Proof.
  intros H.
  pose proof (nth_error_firstn (S t) a t) as Ha.
  pose proof (nth_error_firstn (S t) a' t) as Ha'.
  assert (E : (t <? S t)%nat = true) by (apply Nat.ltb_lt; lia).
  rewrite E in Ha, Ha'. rewrite <- Ha, <- Ha', H. reflexivity.
Qed.

Lemma in_range_nth_error (a a' : column) t :
  nth_error a t = nth_error a' t ->
  (t <? List.length a)%nat = (t <? List.length a')%nat.
Proof.
  intros H.
  destruct (Nat.ltb_spec t (List.length a)) as [Hl|Hl];
    destruct (Nat.ltb_spec t (List.length a')) as [Hl'|Hl']; try reflexivity.
  - apply nth_error_None in Hl'. apply nth_error_Some in Hl. congruence.
  - apply nth_error_None in Hl. apply nth_error_Some in Hl'. congruence.
Qed.

Lemma nth_error_seq_map (g : nat -> fval) T t :
  nth_error (map g (seq 0 T)) t = if (t <? T)%nat then Some (g t) else None.
Proof.
  rewrite nth_error_map, nth_error_seq.
  destruct (t <? T)%nat; reflexivity.
Qed.

(** The window that ends at row [t] lies in the first [t + 1] rows. *)
Lemma window_prefix w t (d d' : column) :
  (w <= t + 1)%nat -> firstn (S t) d = firstn (S t) d' ->
  window w t d = window w t d'.
Proof.
  intros Hw H. unfold window. rewrite !firstn_skipn_comm.
  replace (t + 1 - w + w)%nat with (S t) by lia.
  rewrite H. reflexivity.
Qed.

Lemma nth_error_rolling_mean_prefix w t (d d' : column) :
  firstn (S t) d = firstn (S t) d' ->
  nth_error (rolling_mean w d) t = nth_error (rolling_mean w d') t.
Proof.
  intros H. unfold rolling_mean. rewrite !nth_error_seq_map.
  rewrite (in_range_nth_error d d' t (nth_error_prefix d d' t H)).
  destruct (t <? List.length d')%nat; [|reflexivity].
  destruct (Nat.ltb_spec (t + 1) w) as [Hlt|Hge]; [reflexivity|].
  rewrite (window_prefix w t d d' Hge H). reflexivity.
Qed.

Lemma nth_error_map2_congr (g : fval -> fval -> fval) (a a' b b' : column) t :
  nth_error a t = nth_error a' t -> nth_error b t = nth_error b' t ->
  nth_error (map2 g a b) t = nth_error (map2 g a' b') t.
Proof. intros Ha Hb. rewrite !nth_error_map2, Ha, Hb. reflexivity. Qed.

Lemma nth_error_map_congr (g : fval -> fval) (a a' : column) t :
  nth_error a t = nth_error a' t ->
  nth_error (map g a) t = nth_error (map g a') t.
Proof. intros Ha. rewrite !nth_error_map, Ha. reflexivity. Qed.

(** The raw subsignal of row [t] is computed from the first [t + 1] rows
    of the two swap columns. *)
Lemma nth_error_subsignal_prefix w t (a a' b b' : column) :
  firstn (S t) a = firstn (S t) a' -> firstn (S t) b = firstn (S t) b' ->
  nth_error (col_div (col_sub (col_sub a b) (rolling_mean w (col_sub a b)))
                     (col_abs (rolling_mean w (col_sub a b)))) t =
  nth_error (col_div (col_sub (col_sub a' b') (rolling_mean w (col_sub a' b')))
                     (col_abs (rolling_mean w (col_sub a' b')))) t.
Proof.
  intros Ha Hb.
  assert (Hd : firstn (S t) (col_sub a b) = firstn (S t) (col_sub a' b')).
  { unfold col_sub. rewrite !firstn_map2, Ha, Hb. reflexivity. }
  pose proof (nth_error_rolling_mean_prefix w t _ _ Hd) as Havg.
  pose proof (nth_error_prefix _ _ t Hd) as Hdiff.
  apply nth_error_map2_congr.
  - apply nth_error_map2_congr; assumption.
  - apply nth_error_map_congr; assumption.
Qed.

Lemma get_prefix_agree n f f' c :
  prefix_agree n f f' ->
  match get c f, get c f' with
  | Some a, Some a' => firstn n a = firstn n a'
  | None, None => True
  | _, _ => False
  end.
Proof.
  intros H; induction H as [|[l a] [l' a'] f f' [Hl Ha] _ IH]; [exact I|].
  cbn [fst snd] in *. subst l'. cbn [get].
  destruct (String.eqb l c); [exact Ha | exact IH].
Qed.

Lemma get_agree_at t f f' c :
  agree_at t f f' ->
  match get c f, get c f' with
  | Some a, Some a' => nth_error a t = nth_error a' t
  | None, None => True
  | _, _ => False
  end.
Proof.
  intros H; induction H as [|[l a] [l' a'] f f' [Hl Ha] _ IH]; [exact I|].
  cbn [fst snd] in *. subst l'. cbn [get].
  destruct (String.eqb l c); [exact Ha | exact IH].
Qed.

Lemma agree_at_refl t f : agree_at t f f.
Proof. induction f as [|p f IH]; constructor; auto. Qed.

Lemma agree_at_setitem t f f' k v v' :
  agree_at t f f' -> nth_error v t = nth_error v' t ->
  agree_at t (setitem f k v) (setitem f' k v').
Proof.
  intros H Hv; induction H as [|[l a] [l' a'] f f' [Hl Ha] Hrest IH].
  - constructor; [split; [reflexivity | exact Hv] | constructor].
  - cbn [fst snd] in *. subst l'. cbn [setitem].
    destruct (String.eqb l k).
    + constructor; [split; [reflexivity | exact Hv] | exact Hrest].
    + constructor; [split; [reflexivity | exact Ha] | exact IH].
Qed.

Lemma pair_subsignal_prefix w t sw sw' c1 c2 :
  prefix_agree (S t) sw sw' ->
  result_rel (fun s s' => nth_error s t = nth_error s' t)
    (pair_subsignal w sw c1 c2) (pair_subsignal w sw' c1 c2).
Proof.
  intros H. unfold pair_subsignal, getitem.
  pose proof (get_prefix_agree (S t) sw sw' (c1 ++ "USD") H) as H1.
  pose proof (get_prefix_agree (S t) sw sw' (c2 ++ "USD") H) as H2.
  destruct (get (c1 ++ "USD") sw) as [a|], (get (c1 ++ "USD") sw') as [a'|];
    try contradiction; [|reflexivity].
  destruct (get (c2 ++ "USD") sw) as [b|], (get (c2 ++ "USD") sw') as [b'|];
    try contradiction; [|reflexivity].
  cbn [bind result_rel]. apply nth_error_subsignal_prefix; assumption.
Qed.

Lemma inner_loop_prefix w t sw sw' c1 rest sub sub' :
  prefix_agree (S t) sw sw' -> agree_at t sub sub' ->
  result_rel (agree_at t)
    (inner_loop w sw c1 rest sub) (inner_loop w sw' c1 rest sub').
Proof.
  intros Hsw. revert sub sub'; induction rest as [|c2 rest IH];
    intros sub sub' Hsub; [exact Hsub|].
  cbn [inner_loop].
  pose proof (pair_subsignal_prefix w t sw sw' c1 c2 Hsw) as Hp.
  destruct (pair_subsignal w sw c1 c2) as [s|e],
           (pair_subsignal w sw' c1 c2) as [s'|e'];
    cbn [result_rel] in Hp; try contradiction; cbn [bind]; [|exact Hp].
  apply IH. apply agree_at_setitem; assumption.
Qed.

Lemma outer_loop_prefix w t sw sw' cs sub sub' :
  prefix_agree (S t) sw sw' -> agree_at t sub sub' ->
  result_rel (agree_at t)
    (outer_loop w sw cs sub) (outer_loop w sw' cs sub').
Proof.
  intros Hsw. revert sub sub'; induction cs as [|c1 rest IH];
    intros sub sub' Hsub; [exact Hsub|].
  cbn [outer_loop].
  pose proof (inner_loop_prefix w t sw sw' c1 rest sub sub' Hsw Hsub) as Hp.
  destruct (inner_loop w sw c1 rest sub) as [s|e],
           (inner_loop w sw' c1 rest sub') as [s'|e'];
    cbn [result_rel] in Hp; try contradiction; cbn [bind]; [|exact Hp].
  apply IH. exact Hp.
Qed.

Lemma cell_of_nth_error (col : column) t :
  cell col t = match nth_error col t with Some x => x | None => NaN end.
Proof.
  destruct (nth_error col t) as [x|] eqn:E;
    [apply cell_nth_error | apply cell_none]; exact E.
Qed.

Lemma row_agree_at t f f' : agree_at t f f' -> row f t = row f' t.
Proof.
  intros H; induction H as [|p p' f f' [_ Hc] _ IH]; [reflexivity|].
  unfold row in *. cbn [map]. rewrite IH. f_equal.
  rewrite !cell_of_nth_error.
  exact (f_equal (fun o => match o with Some x => x | None => NaN end) Hc).
Qed.

Lemma labels_agree_at t f f' : agree_at t f f' -> labels f = labels f'.
Proof.
  intros H; induction H as [|p p' f f' [Hl _] _ IH]; [reflexivity|].
  unfold labels in *. cbn [map]. rewrite Hl, IH. reflexivity.
Qed.

Lemma labels_drop_agree_at t k f f' :
  agree_at t f f' -> labels (drop k f) = labels (drop k f').
Proof.
  intros H; induction H as [|p p' f f' [Hl _] _ IH]; [reflexivity|].
  unfold drop, labels in *. cbn [filter]. rewrite <- Hl.
  destruct (negb (String.eqb (fst p) k)); [|exact IH].
  cbn [map]. rewrite Hl, IH. reflexivity.
Qed.

Lemma subsignals_table_prefix T w t sw sw' cs :
  prefix_agree (S t) sw sw' ->
  result_rel (agree_at t)
    (subsignals_table T w sw cs) (subsignals_table T w sw' cs).
Proof.
  intros Hsw. unfold subsignals_table.
  pose proof (outer_loop_prefix w t sw sw' cs _ _ Hsw
                (agree_at_refl t
                   (full T (map (fun p => fst p ++ snd p) (combinations2 cs))
                      NaN))) as Hp.
  destruct (outer_loop w sw cs _) as [s|e], (outer_loop w sw' cs _) as [s'|e'];
    cbn [result_rel] in Hp; try contradiction; cbn [bind result_rel];
    [|exact Hp].
  apply agree_at_setitem; [exact Hp|].
  unfold quantile_axis1. rewrite !nth_error_seq_map.
  rewrite !row_frame_abs, (row_agree_at t s s' Hp). reflexivity.
Qed.

Lemma cell_pair_data_agree_at t sub sub' col :
  agree_at t sub sub' ->
  cell (pair_data sub col) t = cell (pair_data sub' col) t.
Proof.
  intros H. unfold pair_data.
  assert (Hc : forall c,
    nth_error (column_or_nan 0 sub c) t = nth_error (column_or_nan 0 sub' c) t).
  { intros c. unfold column_or_nan.
    pose proof (get_agree_at t sub sub' c H) as Hg.
    destruct (get c sub), (get c sub'); try contradiction; [exact Hg | reflexivity]. }
  rewrite !cell_of_nth_error, !discretize_cellwise, !nth_error_map2, !Hc.
  reflexivity.
Qed.

Lemma loop_delta_agree_at t sub sub' cols c :
  agree_at t sub sub' ->
  loop_delta sub cols c t = loop_delta sub' cols c t.
Proof.
  intros H. induction cols as [|col cols IH]; [reflexivity|].
  cbn [loop_delta]. unfold step_delta.
  rewrite (cell_pair_data_agree_at t sub sub' col H), IH. reflexivity.
Qed.

Lemma swaps_of_set_swaps fixing sw self : swaps_of fixing (set_swaps fixing sw self) = sw.
Proof. destruct fixing; reflexivity. Qed.

Lemma same_dom_setitem a a' k v v' :
  same_dom a a' -> same_dom (setitem a k v) (setitem a' k v').
Proof.
  intros H c. rewrite !get_setitem.
  destruct (String.eqb k c); [split; discriminate | apply H].
Qed.

Lemma getitem_same_dom a a' k :
  same_dom a a' ->
  result_rel (fun _ _ => True) (getitem a k) (getitem a' k).
Proof.
  intros H. unfold getitem. specialize (H k).
  destruct (get k a) as [x|], (get k a') as [x'|]; cbn [result_rel]; auto.
  - destruct H as [_ H]. discriminate (H eq_refl).
  - destruct H as [H _]. discriminate (H eq_refl).
Qed.

Lemma getitem_agree_at t f f' k :
  agree_at t f f' ->
  result_rel (fun _ _ => True) (getitem f k) (getitem f' k).
Proof.
  intros H. unfold getitem. pose proof (get_agree_at t f f' k H) as Hg.
  destruct (get k f), (get k f'); cbn [result_rel]; auto.
Qed.

(** Whether a pass of the composite loop raises, and what, depends on the
    labels of the two tables only. *)
Lemma accumulate_agree t sub sub' a a' col :
  agree_at t sub sub' -> same_dom a a' ->
  result_rel same_dom (accumulate sub a col) (accumulate sub' a' col).
Proof.
  intros Hsub Hdom. unfold accumulate.
  pose proof (getitem_agree_at t sub sub' "threshold" Hsub) as H1.
  destruct (getitem sub "threshold") as [th|e],
           (getitem sub' "threshold") as [th'|e'];
    cbn [result_rel] in H1; try contradiction; cbn [bind]; [|exact H1].
  pose proof (getitem_agree_at t sub sub' col Hsub) as H2.
  destruct (getitem sub col) as [cd|e], (getitem sub' col) as [cd'|e'];
    cbn [result_rel] in H2; try contradiction; cbn [bind]; [|exact H2].
  pose proof (getitem_same_dom a a' (substring 0 3 col ++ "USD") Hdom) as H3.
  destruct (getitem a (substring 0 3 col ++ "USD")) as [s1|e],
           (getitem a' (substring 0 3 col ++ "USD")) as [s1'|e'];
    cbn [result_rel] in H3; try contradiction; cbn [bind]; [|exact H3].
  pose proof (getitem_same_dom _ _
                (substring 3 (String.length col - 3) col ++ "USD")
                (same_dom_setitem a a' (substring 0 3 col ++ "USD")
                   (col_add s1 (discretize cd th))
                   (col_add s1' (discretize cd' th')) Hdom)) as H4.
  destruct (getitem (setitem a _ _) _) as [s2|e],
           (getitem (setitem a' _ _) _) as [s2'|e'];
    cbn [result_rel] in H4; try contradiction; cbn [bind result_rel];
    [|exact H4].
  apply same_dom_setitem. apply same_dom_setitem. exact Hdom.
Qed.

Lemma composite_loop_agree t sub sub' cols a a' :
  agree_at t sub sub' -> same_dom a a' ->
  result_rel same_dom (composite_loop sub cols a) (composite_loop sub' cols a').
Proof.
  intros Hsub. revert a a'; induction cols as [|col cols IH]; intros a a' Hdom;
    [exact Hdom|].
  cbn [composite_loop].
  pose proof (accumulate_agree t sub sub' a a' col Hsub Hdom) as Hp.
  destruct (accumulate sub a col) as [a1|e], (accumulate sub' a' col) as [a1'|e'];
    cbn [result_rel] in Hp; try contradiction; cbn [bind]; [|exact Hp].
  apply IH. exact Hp.
Qed.

(** X12: the composite signals of row [t] do not look ahead: when the swap
    table of the session is replaced by one with the same columns and the
    same first [t + 1] rows, [compute_signals] raises the same exception or
    returns signals with the same values at row [t]. *)
Theorem compute_signals_no_look_ahead
    (fixing : Fixes) (self : Backtest) (sw' : frame) (t : nat) :
  prefix_agree (S t) (swaps_of fixing self) sw' ->
  result_rel
    (fun s s' =>
       forall c, at_ (signals_of fixing s') c t =~ at_ (signals_of fixing s) c t)
    (compute_signals fixing self)
    (compute_signals fixing (set_swaps fixing sw' self)).
Proof.
  intros Hsw. unfold compute_signals.
  rewrite swaps_of_set_swaps.
  replace (nrows (set_swaps fixing sw' self)) with (nrows self)
    by (destruct fixing; reflexivity).
  replace (ma_window (set_swaps fixing sw' self)) with (ma_window self)
    by (destruct fixing; reflexivity).
  replace (countries (set_swaps fixing sw' self)) with (countries self)
    by (destruct fixing; reflexivity).
  replace (signals_of fixing (set_swaps fixing sw' self))
    with (signals_of fixing self) by (destruct fixing; reflexivity).
  pose proof (subsignals_table_prefix (nrows self) (ma_window self) t
                (swaps_of fixing self) sw' (countries self) Hsw) as Hp.
  destruct (subsignals_table (nrows self) (ma_window self)
              (swaps_of fixing self) (countries self)) as [sub|e],
           (subsignals_table (nrows self) (ma_window self) sw' (countries self))
             as [sub'|e'];
    cbn [result_rel] in Hp; try contradiction; cbn [bind]; [|exact Hp].
  rewrite <- (labels_drop_agree_at t "threshold" sub sub' Hp).
  pose proof (composite_loop_agree t sub sub' (labels (drop "threshold" sub))
                (signals_of fixing self) (signals_of fixing self) Hp
                (same_dom_refl _)) as Hc.
  destruct (composite_loop sub (labels (drop "threshold" sub))
              (signals_of fixing self)) as [s1|e] eqn:E1,
           (composite_loop sub' (labels (drop "threshold" sub))
              (signals_of fixing self)) as [s1'|e'] eqn:E1';
    cbn [result_rel] in Hc; try contradiction; cbn [bind result_rel];
    [|exact Hc].
  intros c. rewrite !signals_of_set_signals.
  pose proof (composite_loop_effect _ _ _ _ E1 c t) as H1.
  pose proof (composite_loop_effect _ _ _ _ E1' c t) as H1'.
  rewrite <- (loop_delta_agree_at t sub sub' _ c Hp) in H1'.
  eapply feq_trans; [exact H1' | apply feq_sym; exact H1].
Qed.

End NoLookAhead.

Lemma compute_signals_no_look_ahead_witness :
  at_ (signals_lon Runs.three_late_signals) "AUDUSD" 1
  =~ at_ (signals_lon Sample.three_signals) "AUDUSD" 1 /\
  ~ at_ (signals_lon Runs.three_late_signals) "CADUSD" 2
    =~ at_ (signals_lon Sample.three_signals) "CADUSD" 2.
Proof.
  assert (H : prefix_agree 2 (swaps_of LON Sample.three) Runs.swaps3_late).
  { repeat constructor. }
  pose proof (compute_signals_no_look_ahead LON Sample.three
                Runs.swaps3_late 1 H) as Hrel.
  assert (E1 : compute_signals LON Sample.three = Ok Sample.three_signals)
    by (vm_compute; reflexivity).
  assert (E2 : compute_signals LON (set_swaps LON Runs.swaps3_late Sample.three)
               = Ok Runs.three_late_signals)
    by (vm_compute; reflexivity).
  rewrite E1, E2 in Hrel. cbn [result_rel] in Hrel.
  split; [apply (Hrel "AUDUSD")|].
  vm_compute. discriminate.
Defined.

(** ** The shape of the signal and position tables *)

Section Shape.

Lemma length_rolling_mean w (col : column) :
  List.length (rolling_mean w col) = List.length col.
Proof. unfold rolling_mean. rewrite length_map, length_seq. reflexivity. Qed.

Lemma length_quantile_axis1 T f : List.length (quantile_axis1 T f) = T.
Proof. unfold quantile_axis1. rewrite length_map, length_seq. reflexivity. Qed.

Lemma on_axis_setitem T f k v :
  on_axis T f -> List.length v = T -> on_axis T (setitem f k v).
Proof.
  intros Hf Hv c col. rewrite get_setitem.
  destruct (String.eqb k c); [|apply Hf].
  intros H; injection H as <-; exact Hv.
Qed.

Lemma on_axis_full T ls v : on_axis T (full T ls v).
Proof.
  intros c col. unfold full. rewrite (get_map_label (fun _ => repeat v T)).
  destruct (in_dec string_dec c ls); [|discriminate].
  intros H; inversion H. apply repeat_length.
Qed.

Lemma pair_subsignal_length T w swaps c1 c2 s :
  on_axis T swaps -> pair_subsignal w swaps c1 c2 = Ok s -> List.length s = T.
Proof.
  intros Hax. unfold pair_subsignal, getitem.
  destruct (get (c1 ++ "USD") swaps) as [a|] eqn:Ea; [|discriminate].
  destruct (get (c2 ++ "USD") swaps) as [b|] eqn:Eb; [|discriminate].
  cbn [bind]. intros H; inversion H; subst s.
  unfold col_div, col_sub, col_abs.
  rewrite !length_map2, length_map, length_rolling_mean, !length_map2.
  rewrite (Hax _ _ Ea), (Hax _ _ Eb). lia.
Qed.

Lemma inner_loop_on_axis T w swaps c1 rest sub sub' :
  on_axis T swaps -> on_axis T sub ->
  inner_loop w swaps c1 rest sub = Ok sub' -> on_axis T sub'.
Proof.
  intros Hsw. revert sub; induction rest as [|c2 rest IH]; intros sub Hsub H.
  - inversion H; subst; exact Hsub.
  - cbn [inner_loop] in H.
    destruct (pair_subsignal w swaps c1 c2) as [s|] eqn:E; [|discriminate].
    cbn [bind] in H. apply (IH _ (on_axis_setitem T sub (c1 ++ c2) s Hsub
                                    (pair_subsignal_length _ _ _ _ _ _ Hsw E)) H).
Qed.

Lemma outer_loop_on_axis T w swaps cs sub sub' :
  on_axis T swaps -> on_axis T sub ->
  outer_loop w swaps cs sub = Ok sub' -> on_axis T sub'.
Proof.
  intros Hsw. revert sub; induction cs as [|c1 rest IH]; intros sub Hsub H.
  - inversion H; subst; exact Hsub.
  - cbn [outer_loop] in H.
    destruct (inner_loop w swaps c1 rest sub) as [sub1|] eqn:E; [|discriminate].
    cbn [bind] in H.
    apply (IH sub1 (inner_loop_on_axis _ _ _ _ _ _ _ Hsw Hsub E) H).
Qed.

Lemma subsignals_table_on_axis T w swaps cs sub :
  on_axis T swaps -> subsignals_table T w swaps cs = Ok sub -> on_axis T sub.
Proof.
  intros Hsw. unfold subsignals_table.
  destruct (outer_loop w swaps cs _) as [sub0|] eqn:E; [|discriminate].
  cbn [bind]. intros H; inversion H; subst sub.
  apply on_axis_setitem; [|apply length_quantile_axis1].
  apply (outer_loop_on_axis T w swaps cs _ sub0 Hsw (on_axis_full T _ NaN) E).
Qed.

(** A pass that does not raise has found the threshold column and its pair
    column. *)
Lemma accumulate_reads sub a col a' :
  accumulate sub a col = Ok a' ->
  exists th cd, get "threshold" sub = Some th /\ get col sub = Some cd.
Proof.
  unfold accumulate, getitem.
  destruct (get "threshold" sub) as [th|]; [|discriminate].
  destruct (get col sub) as [cd|]; [|discriminate].
  intros _. exists th, cd. split; reflexivity.
Qed.

Lemma accumulate_on_axis T sub a col a' :
  on_axis T sub -> on_axis T a -> accumulate sub a col = Ok a' -> on_axis T a'.
Proof.
  intros Hsub Ha H.
  destruct (accumulate_reads _ _ _ _ H) as [th [cd [Hth Hcd]]].
  destruct (accumulate_inv _ _ _ _ H) as [s1 [s2 [H1 [H2 ->]]]].
  assert (Hd : List.length (pair_data sub col) = T).
  { unfold pair_data, column_or_nan. rewrite Hth, Hcd.
    rewrite discretize_cellwise, length_map2, (Hsub _ _ Hth), (Hsub _ _ Hcd).
    lia. }
  assert (Ha1 : on_axis T (setitem a (fst (pair_keys col))
                             (col_add s1 (pair_data sub col)))).
  { apply on_axis_setitem; [exact Ha|].
    unfold col_add. rewrite length_map2, Hd, (Ha _ _ H1). lia. }
  apply on_axis_setitem; [exact Ha1|].
  unfold col_sub. rewrite length_map2, Hd, (Ha1 _ _ H2). lia.
Qed.

Lemma composite_loop_on_axis T sub cols a a' :
  on_axis T sub -> on_axis T a -> composite_loop sub cols a = Ok a' ->
  on_axis T a'.
Proof.
  intros Hsub. revert a; induction cols as [|col cols IH]; intros a Ha H.
  - inversion H; subst; exact Ha.
  - cbn [composite_loop] in H.
    destruct (accumulate sub a col) as [a1|] eqn:E; [|discriminate].
    cbn [bind] in H. apply (IH a1); [|exact H].
    apply (accumulate_on_axis T sub a col a1 Hsub Ha E).
Qed.

(** X13: when every column of the swap table and of the signal table of the
    session has one cell per row of the time axis, so has the signal table
    after [compute_signals], and so has the position table that
    [compute_positions] then builds, for any target. *)
Theorem compute_signals_keeps_axis
    (fixing : Fixes) (self self' : Backtest) :
  on_axis (nrows self) (swaps_of fixing self) ->
  on_axis (nrows self) (signals_of fixing self) ->
  compute_signals fixing self = Ok self' ->
  nrows self' = nrows self /\
  on_axis (nrows self) (signals_of fixing self') /\
  forall tge,
    on_axis (nrows self) (positions (compute_positions fixing tge self')).
Proof.
  intros Hsw Hsig H.
  destruct (compute_signals_inv _ _ _ H) as [sub [s1 [Hsub [Hloop ->]]]].
  assert (Hs1 : on_axis (nrows self) s1).
  { apply (composite_loop_on_axis (nrows self) sub _ _ s1
             (subsignals_table_on_axis _ _ _ _ _ Hsw Hsub) Hsig Hloop). }
  split; [destruct fixing; reflexivity|].
  rewrite signals_of_set_signals. split; [exact Hs1|].
  intros tge c col.
  unfold compute_positions, set_positions; cbn [positions].
  rewrite signals_of_set_signals, get_frame_map.
  destruct (get c s1) as [sc|] eqn:E; [|discriminate].
  cbn [option_map]. intros Hc; inversion Hc.
  unfold col_mul. rewrite length_map2, length_map.
  unfold sum_axis1. rewrite length_map, length_seq.
  replace (nrows (set_signals fixing s1 self)) with (nrows self)
    by (destruct fixing; reflexivity).
  rewrite (Hs1 _ _ E). lia.
Qed.

End Shape.

Lemma compute_signals_keeps_axis_witness :
  on_axis 3 (signals_lon Sample.three_signals) /\
  on_axis 3 (positions (compute_positions LON 1000000 Sample.three_signals)).
Proof.
  destruct (compute_signals_keeps_axis LON Sample.three Sample.three_signals)
    as [_ [Hsig Hpos]].
  - apply on_axisb_correct. reflexivity.
  - apply on_axisb_correct. reflexivity.
  - vm_compute. reflexivity.
  - split; [exact Hsig | apply Hpos].
Defined.

(** ** Two instruments *)

Section TwoInstruments.

Lemma three_chars c :
  String.length c = 3%nat ->
  exists x y z, c = String x (String y (String z EmptyString)).
Proof.
  destruct c as [|x [|y [|z [|u c]]]]; simpl; intros H; try discriminate.
  exists x, y, z. reflexivity.
Qed.

Lemma substring_all s : substring 0 (String.length s) s = s.
Proof. induction s as [|a s IH]; [reflexivity|]. simpl. rewrite IH. reflexivity. Qed.

(** The label of a pair of three-letter codes splits back into the two
    codes. *)
Lemma pair_keys_codes c1 c2 :
  String.length c1 = 3%nat ->
  pair_keys (c1 ++ c2) = (c1 ++ "USD", c2 ++ "USD").
Proof.
  intros H. destruct (three_chars c1 H) as [x [y [z ->]]].
  unfold pair_keys. cbn [append String.length substring].
  replace (S (S (S (String.length c2))) - 3)%nat with (String.length c2) by lia.
  rewrite substring_all.
  destruct c2; reflexivity.
Qed.

Lemma append_usd_inj c1 c2 :
  String.length c1 = 3%nat -> String.length c2 = 3%nat ->
  c1 ++ "USD" = c2 ++ "USD" -> c1 = c2.
Proof.
  intros H1 H2. destruct (three_chars c1 H1) as [x [y [z ->]]].
  destruct (three_chars c2 H2) as [x' [y' [z' ->]]].
  cbn [append]. intros E; inversion E; reflexivity.
Qed.

Lemma pair_label_not_threshold c1 c2 :
  String.length c1 = 3%nat -> String.length c2 = 3%nat ->
  c1 ++ c2 <> "threshold".
Proof.
  intros H1 H2 E. destruct (three_chars c1 H1) as [x [y [z ->]]].
  destruct (three_chars c2 H2) as [x' [y' [z' ->]]].
  cbn [append] in E. inversion E.
Qed.

Lemma subsignals_table_two T w sw c1 c2 s :
  String.length c1 = 3%nat -> String.length c2 = 3%nat ->
  pair_subsignal w sw c1 c2 = Ok s ->
  subsignals_table T w sw [c1; c2] =
  Ok [(c1 ++ c2, s);
      ("threshold", quantile_axis1 T (frame_abs [(c1 ++ c2, s)]))].
Proof.
  intros H1 H2 Hs. unfold subsignals_table.
  cbn [combinations2 map app fst snd full outer_loop inner_loop].
  rewrite Hs. cbn [bind setitem]. rewrite String.eqb_refl. cbn [bind].
  f_equal. cbn [setitem].
  destruct (String.eqb_spec (c1 ++ c2) "threshold") as [E|E];
    [exfalso; apply (pair_label_not_threshold c1 c2 H1 H2 E) | reflexivity].
Qed.

(** X14: with exactly two three-letter countries, [compute_signals] adds to
    the signal of the first one, at every row, the raw subsignal of the pair
    where that is exactly 1 or -1 and nothing elsewhere, and subtracts the
    same from the signal of the second one: the threshold of the single
    pair is never exceeded. *)
Theorem compute_signals_two_countries
    (fixing : Fixes) (self self' : Backtest) (c1 c2 : string)
    (s : column) (t : nat) (x : fval) :
  countries self = [c1; c2] ->
  String.length c1 = 3%nat -> String.length c2 = 3%nat -> c1 <> c2 ->
  pair_subsignal (ma_window self) (swaps_of fixing self) c1 c2 = Ok s ->
  compute_signals fixing self = Ok self' ->
  (t < nrows self)%nat ->
  nth_error s t = Some x ->
  at_ (signals_of fixing self') (c1 ++ "USD") t =~
    fadd (at_ (signals_of fixing self) (c1 ++ "USD") t)
         (if fneb (fabs x) fone then fzero else x) /\
  at_ (signals_of fixing self') (c2 ++ "USD") t =~
    fsub (at_ (signals_of fixing self) (c2 ++ "USD") t)
         (if fneb (fabs x) fone then fzero else x).
Proof.
  intros Hcs H1 H2 Hne Hs H Ht Hx.
  destruct (compute_signals_inv _ _ _ H) as [sub [s1 [Hsub [Hloop ->]]]].
  rewrite Hcs, (subsignals_table_two _ _ _ c1 c2 s H1 H2 Hs) in Hsub.
  inversion Hsub; subst sub; clear Hsub.
  rewrite !signals_of_set_signals.
  set (thr := quantile_axis1 (nrows self) (frame_abs [(c1 ++ c2, s)])) in *.
  change (composite_loop [(c1 ++ c2, s); ("threshold", thr)]
            (labels (drop "threshold" [(c1 ++ c2, s); ("threshold", thr)]))
            (signals_of fixing self) = Ok s1) in Hloop.
  assert (Hcols : labels (drop "threshold" [(c1 ++ c2, s); ("threshold", thr)])
                  = [c1 ++ c2]).
  { unfold drop, labels. cbn [filter fst map].
    destruct (String.eqb_spec (c1 ++ c2) "threshold") as [E|E];
      [exfalso; apply (pair_label_not_threshold c1 c2 H1 H2 E)|].
    reflexivity. }
  rewrite Hcols in Hloop.
  assert (Hd : cell (pair_data [(c1 ++ c2, s); ("threshold", thr)] (c1 ++ c2)) t
               = if fneb (fabs x) fone then fzero else x).
  { unfold pair_data, column_or_nan. cbn [get].
    rewrite String.eqb_refl.
    destruct (String.eqb_spec (c1 ++ c2) "threshold") as [E|E];
      [exfalso; apply (pair_label_not_threshold c1 c2 H1 H2 E)|].
    cbn [String.eqb Ascii.eqb Bool.eqb].
    rewrite discretize_cellwise. apply cell_nth_error.
    rewrite nth_error_map2, Hx. unfold thr, quantile_axis1.
    rewrite nth_error_seq_map. apply Nat.ltb_lt in Ht; rewrite Ht.
    unfold row, frame_abs, frame_map. cbn [map fst snd].
    rewrite cell_col_abs, (cell_nth_error _ _ _ Hx).
    rewrite single_pair_discretize. reflexivity. }
  assert (Hk : String.eqb (c2 ++ "USD") (c1 ++ "USD") = false).
  { apply String.eqb_neq. intros E. apply Hne. symmetry.
    apply (append_usd_inj c2 c1 H2 H1 E). }
  assert (Hk' : String.eqb (c1 ++ "USD") (c2 ++ "USD") = false).
  { apply String.eqb_neq. intros E. apply Hne.
    apply (append_usd_inj c1 c2 H1 H2 E). }
  split.
  - eapply feq_trans; [apply (composite_loop_effect _ _ _ _ Hloop)|].
    cbn [loop_delta]. unfold step_delta. rewrite Hd, (pair_keys_codes c1 c2 H1).
    cbn [fst snd]. rewrite String.eqb_refl, Hk.
    destruct (at_ (signals_of fixing self) (c1 ++ "USD") t),
             (if fneb (fabs x) fone then fzero else x); simpl; auto; ring.
  - eapply feq_trans; [apply (composite_loop_effect _ _ _ _ Hloop)|].
    cbn [loop_delta]. unfold step_delta. rewrite Hd, (pair_keys_codes c1 c2 H1).
    cbn [fst snd]. rewrite String.eqb_refl, Hk'.
    destruct (at_ (signals_of fixing self) (c2 ++ "USD") t),
             (if fneb (fabs x) fone then fzero else x); simpl; auto; ring.
Qed.

End TwoInstruments.

Lemma compute_signals_two_countries_witness :
  at_ (signals_lon Runs.two_signals) "EURUSD" 1 =~ Fin 1 /\
  at_ (signals_lon Runs.two_signals) "GBPUSD" 1 =~ Fin (-1).
Proof.
  destruct (compute_signals_two_countries LON Sample.two Runs.two_signals
              "EUR" "GBP" Runs.two_subsignal 1 (cell Runs.two_subsignal 1))
    as [Ha Hb]; try reflexivity.
  - discriminate.
  - vm_compute. lia.
  - split.
    + eapply feq_trans; [exact Ha|]. vm_compute. reflexivity.
    + eapply feq_trans; [exact Hb|]. vm_compute. reflexivity.
Defined.

(** ** The signals of a row sum to zero *)

Section ZeroSum.

Lemma fadd_interchange a b c d :
  fadd (fadd a b) (fadd c d) =~ fadd (fadd a c) (fadd b d).
Proof. destruct a, b, c, d; simpl; auto; ring. Qed.

Lemma fsum_add (A : Type) (x y : A -> fval) ls :
  fold_right fadd fzero (map (fun c => fadd (x c) (y c)) ls) =~
  fadd (fold_right fadd fzero (map x ls)) (fold_right fadd fzero (map y ls)).
Proof.
  induction ls as [|c ls IH]; [simpl; reflexivity|].
  cbn [map fold_right].
  eapply feq_trans; [apply fadd_feq; [apply feq_refl | exact IH]|].
  apply fadd_interchange.
Qed.

Lemma fsum_feq (A : Type) (x y : A -> fval) ls :
  (forall c, x c =~ y c) ->
  fold_right fadd fzero (map x ls) =~ fold_right fadd fzero (map y ls).
Proof.
  intros H. induction ls as [|c ls IH]; [simpl; reflexivity|].
  cbn [map fold_right]. apply fadd_feq; [apply H | exact IH].
Qed.

Lemma fsum_neg (A : Type) (x : A -> fval) ls :
  fold_right fadd fzero (map (fun c => fneg (x c)) ls) =~
  fneg (fold_right fadd fzero (map x ls)).
Proof.
  induction ls as [|c ls IH]; [simpl; reflexivity|].
  cbn [map fold_right].
  eapply feq_trans; [apply fadd_feq; [apply feq_refl | exact IH]|].
  destruct (x c), (fold_right fadd fzero (map x ls)); simpl; auto; ring.
Qed.

Lemma fsum_indicator_out k d ls :
  ~ In k ls ->
  fold_right fadd fzero
    (map (fun c => if String.eqb k c then d else fzero) ls) =~ fzero.
Proof.
  induction ls as [|c ls IH]; intros Hout; [simpl; reflexivity|].
  cbn [map fold_right].
  destruct (String.eqb_spec k c) as [E|E]; [exfalso; apply Hout; left; auto|].
  eapply feq_trans; [apply fadd_feq; [apply feq_refl | apply IH]|].
  - intros Hin. apply Hout. right. exact Hin.
  - simpl. reflexivity.
Qed.

(** Over distinct labels, the cells added to the column [k] sum to the
    cell added. *)
Lemma fsum_indicator k d ls :
  NoDup ls -> In k ls ->
  fold_right fadd fzero
    (map (fun c => if String.eqb k c then d else fzero) ls) =~ d.
Proof.
  induction ls as [|c ls IH]; intros Hnd Hin; [destruct Hin|].
  inversion Hnd as [|? ? Hc Hnd']; subst.
  cbn [map fold_right].
  destruct (String.eqb_spec k c) as [E|E].
  - subst c.
    eapply feq_trans;
      [apply fadd_feq; [apply feq_refl | apply fsum_indicator_out; exact Hc]|].
    destruct d; simpl; auto; ring.
  - destruct Hin as [Hin|Hin]; [congruence|].
    eapply feq_trans;
      [apply fadd_feq; [apply feq_refl | apply IH; assumption]|].
    destruct d; simpl; auto; ring.
Qed.

Lemma zero_or_nan_feq x y : x =~ y -> zero_or_nan y -> zero_or_nan x.
Proof.
  intros H [->|Hy].
  - left. destruct x; simpl in H; try contradiction. reflexivity.
  - right. eapply feq_trans; eassumption.
Qed.

Lemma zero_or_nan_cancel d : zero_or_nan (fadd d (fneg d)).
Proof.
  destruct d; [right; simpl; ring | left; reflexivity ..].
Qed.

(** What a pass adds to the table sums to zero over the columns. *)
Lemma step_delta_sum sub col ls t :
  NoDup ls ->
  In (fst (pair_keys col)) ls -> In (snd (pair_keys col)) ls ->
  zero_or_nan
    (fold_right fadd fzero (map (fun c => step_delta sub col c t) ls)).
Proof.
  intros Hnd H1 H2. unfold step_delta. cbv zeta.
  set (d := cell (pair_data sub col) t).
  eapply zero_or_nan_feq; [|apply (zero_or_nan_cancel d)].
  eapply feq_trans;
    [apply (fsum_add string
              (fun c => if String.eqb (fst (pair_keys col)) c then d else fzero)
              (fun c => fneg (if String.eqb (snd (pair_keys col)) c
                              then d else fzero)))|].
  apply fadd_feq.
  - apply fsum_indicator; assumption.
  - eapply feq_trans;
      [apply (fsum_neg string
                (fun c => if String.eqb (snd (pair_keys col)) c
                          then d else fzero))|].
    apply fneg_feq. apply fsum_indicator; assumption.
Qed.

Lemma loop_delta_sum sub cols ls t :
  NoDup ls ->
  (forall col, In col cols ->
     In (fst (pair_keys col)) ls /\ In (snd (pair_keys col)) ls) ->
  zero_or_nan
    (fold_right fadd fzero (map (fun c => loop_delta sub cols c t) ls)).
Proof.
  intros Hnd. induction cols as [|col cols IH]; intros Hkeys.
  - cbn [loop_delta]. clear Hnd Hkeys.
    induction ls as [|c ls IHl]; [apply zero_or_nan_zero|].
    cbn [map fold_right].
    apply zero_or_nan_add; [apply zero_or_nan_zero | exact IHl].
  - cbn [loop_delta].
    eapply zero_or_nan_feq;
      [apply (fsum_add string (fun c => step_delta sub col c t)
                (fun c => loop_delta sub cols c t))|].
    apply zero_or_nan_add.
    + destruct (Hkeys col (or_introl eq_refl)) as [H1 H2].
      apply step_delta_sum; assumption.
    + apply IH. intros col' Hin. apply Hkeys. right. exact Hin.
Qed.

Lemma get_some_in_labels c f : get c f <> None -> In c (labels f).
Proof.
  intros H. destruct (in_dec string_dec c (labels f)) as [Hin|Hout];
    [exact Hin|]. apply get_none_not_in in Hout. contradiction.
Qed.

(** A composite loop that does not raise has found both signal columns of
    every pair. *)
Lemma composite_loop_keys sub cols a a' :
  composite_loop sub cols a = Ok a' ->
  forall col, In col cols ->
    In (fst (pair_keys col)) (labels a) /\ In (snd (pair_keys col)) (labels a).
Proof.
  revert a; induction cols as [|col cols IH]; intros a H col' Hin;
    [destruct Hin|].
  cbn [composite_loop] in H.
  destruct (accumulate sub a col) as [a1|] eqn:E; [|discriminate].
  cbn [bind] in H.
  pose proof (accumulate_dom _ _ _ _ E) as Hdom.
  destruct Hin as [<-|Hin].
  - destruct (accumulate_inv _ _ _ _ E) as [s1 [s2 [H1 [H2 _]]]].
    split; apply get_some_in_labels.
    + rewrite H1. discriminate.
    + rewrite get_setitem in H2.
      destruct (String.eqb_spec (fst (pair_keys col)) (snd (pair_keys col)))
        as [Ek|Ek]; [rewrite <- Ek, H1 | rewrite H2]; discriminate.
  - destruct (IH a1 H col' Hin) as [H1 H2].
    split; apply get_some_in_labels; intros Hn; apply Hdom in Hn;
      apply get_none_not_in in Hn; contradiction.
Qed.

Lemma at_integral f c t :
  integral f -> at_ f c t <> NaN -> exists q, at_ f c t = Fin q.
Proof.
  intros Hi. unfold at_. destruct (get c f) as [col|] eqn:E; [|congruence].
  intros Hn. pose proof (integral_get f c col Hi E) as Hall.
  destruct (nth_error col t) as [x|] eqn:Ex.
  - rewrite (cell_nth_error _ _ _ Ex) in *.
    rewrite Forall_forall in Hall.
    destruct (Hall x (nth_error_In _ _ Ex)) as [z Hz].
    destruct x; simpl in Hz; try contradiction. eexists; reflexivity.
  - exfalso. apply Hn. apply cell_none. exact Ex.
Qed.

Lemma fsum_finite f ls t :
  (forall c, In c ls -> exists q, at_ f c t = Fin q) ->
  exists q, row_sum f ls t = Fin q.
Proof.
  unfold row_sum. induction ls as [|c ls IH]; intros H.
  - exists 0. reflexivity.
  - destruct (H c (or_introl eq_refl)) as [q Hq].
    destruct IH as [r Hr]; [intros c' Hc'; apply H; right; exact Hc'|].
    cbn [map fold_right]. rewrite Hq, Hr. eexists; reflexivity.
Qed.

(** The composite loop moves signal between the columns of a row without
    changing their sum. *)
Lemma composite_loop_row_sum (sub : frame) (cols : list string)
    (a s1 : frame) (t : nat) :
  NoDup (labels a) ->
  integral s1 ->
  composite_loop sub cols a = Ok s1 ->
  (forall c, In c (labels a) -> at_ s1 c t <> NaN) ->
  row_sum s1 (labels a) t =~ row_sum a (labels a) t.
Proof.
  intros Hnd Hint' Hloop Hpresent.
  assert (Hsum : row_sum s1 (labels a) t =~
                 fadd (row_sum a (labels a) t)
                      (fold_right fadd fzero
                         (map (fun c => loop_delta sub cols c t) (labels a)))).
  { unfold row_sum.
    eapply feq_trans;
      [apply (fsum_feq string (fun c => at_ s1 c t)
                (fun c => fadd (at_ a c t) (loop_delta sub cols c t)));
       intros c; apply (composite_loop_effect _ _ _ _ Hloop)|].
    apply (fsum_add string (fun c => at_ a c t)
             (fun c => loop_delta sub cols c t)). }
  destruct (fsum_finite s1 (labels a) t
              (fun c Hc => at_integral s1 c t Hint' (Hpresent c Hc)))
    as [q Hq].
  rewrite Hq in *.
  destruct (loop_delta_sum sub cols (labels a) t Hnd
              (composite_loop_keys _ _ _ _ Hloop)) as [Hd|Hd].
  - rewrite Hd, fadd_nan_r in Hsum. simpl in Hsum. contradiction.
  - eapply feq_trans; [exact Hsum|].
    destruct (row_sum a (labels a) t),
             (fold_right fadd fzero
                (map (fun c => loop_delta sub cols c t) (labels a)));
      simpl in *; try contradiction; auto. lra.
Qed.

(** X15: [compute_signals] is neutral across instruments: on an
    integer-valued signal table with distinct labels, at a row where every
    signal is present after the call, the signals of the row sum to what
    they summed to before - to zero on a fresh instance. *)
Theorem compute_signals_row_sum
    (fixing : Fixes) (self self' : Backtest) (t : nat) :
  NoDup (labels (signals_of fixing self)) ->
  integral (signals_of fixing self) ->
  compute_signals fixing self = Ok self' ->
  (forall c, In c (labels (signals_of fixing self)) ->
             at_ (signals_of fixing self') c t <> NaN) ->
  row_sum (signals_of fixing self') (labels (signals_of fixing self)) t =~
  row_sum (signals_of fixing self) (labels (signals_of fixing self)) t.
Proof.
  intros Hnd Hint H Hpresent.
  pose proof (compute_signals_integral fixing self self' Hint H) as Hint'.
  destruct (compute_signals_inv _ _ _ H) as [sub [s1 [_ [Hloop ->]]]].
  rewrite signals_of_set_signals in *.
  exact (composite_loop_row_sum sub _ _ s1 t Hnd Hint' Hloop Hpresent).
Qed.

End ZeroSum.

Lemma compute_signals_row_sum_witness :
  row_sum (signals_lon Sample.three_signals)
          ["AUDUSD"; "CADUSD"; "EURUSD"] 1 =~ Fin 0.
Proof.
  eapply feq_trans;
    [apply (compute_signals_row_sum LON Sample.three Sample.three_signals 1)|].
  - repeat constructor; simpl; intuition discriminate.
  - apply zero_table_integral. apply (init_zero_table LON).
  - vm_compute. reflexivity.
  - intros c Hc. simpl in Hc.
    repeat (destruct Hc as [<-|Hc]; [vm_compute; discriminate|]).
    destruct Hc.
  - vm_compute. reflexivity.
Defined.

(** ** When [compute_signals] returns *)

Section Returns.

Lemma In_labels_setitem x f k v :
  In x (labels (setitem f k v)) -> In x (labels f) \/ x = k.
Proof.
  induction f as [|[l old] f IH]; cbn [setitem labels map fst].
  - intros [<-|[]]. right; reflexivity.
  - destruct (String.eqb l k); cbn [map fst].
    + intros [<-|H]; [left; left; reflexivity | left; right; exact H].
    + intros [<-|H]; [left; left; reflexivity|].
      destruct (IH H) as [H'|H']; [left; right; exact H' | right; exact H'].
Qed.

Lemma pair_labelled_setitem cs f c1 c2 v :
  pair_labelled cs f -> In c1 cs -> In c2 cs ->
  pair_labelled cs (setitem f (c1 ++ c2) v).
Proof.
  intros Hf H1 H2 x Hx. destruct (In_labels_setitem _ _ _ _ Hx) as [H| ->].
  - apply Hf; exact H.
  - exists c1, c2. auto.
Qed.

Lemma inner_loop_returns cs w swaps c1 rest sub :
  (forall c, In c cs -> get (c ++ "USD") swaps <> None) ->
  In c1 cs -> incl rest cs -> pair_labelled cs sub ->
  exists sub', inner_loop w swaps c1 rest sub = Ok sub' /\ pair_labelled cs sub'.
Proof.
  intros Hsw H1. revert sub; induction rest as [|c2 rest IH]; intros sub Hin Hsub.
  - exists sub. split; [reflexivity | exact Hsub].
  - cbn [inner_loop].
    assert (H2 : In c2 cs) by (apply Hin; left; reflexivity).
    destruct (pair_subsignal_cases w swaps c1 c2)
      as [[s [Hs _]] | [c [Hc [Hnone _]]]].
    + rewrite Hs. cbn [bind]. apply IH.
      * intros c Hc. apply Hin. right. exact Hc.
      * apply pair_labelled_setitem; assumption.
    + exfalso. destruct Hc as [->| ->]; [apply (Hsw c1 H1) | apply (Hsw c2 H2)];
        exact Hnone.
Qed.

Lemma outer_loop_returns cs w swaps rest sub :
  (forall c, In c cs -> get (c ++ "USD") swaps <> None) ->
  incl rest cs -> pair_labelled cs sub ->
  exists sub', outer_loop w swaps rest sub = Ok sub' /\ pair_labelled cs sub'.
Proof.
  intros Hsw. revert sub; induction rest as [|c1 rest IH]; intros sub Hin Hsub.
  - exists sub. split; [reflexivity | exact Hsub].
  - cbn [outer_loop].
    destruct (inner_loop_returns cs w swaps c1 rest sub Hsw)
      as [sub1 [H1 Hl1]]; [apply Hin; left; reflexivity | | exact Hsub |].
    + intros c Hc. apply Hin. right. exact Hc.
    + rewrite H1. cbn [bind]. apply IH; [|exact Hl1].
      intros c Hc. apply Hin. right. exact Hc.
Qed.

Lemma pair_labelled_full cs T v :
  pair_labelled cs
    (full T (map (fun p => fst p ++ snd p) (combinations2 cs)) v).
Proof.
  assert (Hc : forall l a b, In (a, b) (combinations2 l) -> In a l /\ In b l).
  { induction l as [|x l IH]; intros a b H; [destruct H|].
    cbn [combinations2] in H. apply in_app_iff in H. destruct H as [H|H].
    - apply in_map_iff in H. destruct H as [y [E Hy]]. inversion E; subst.
      split; [left; reflexivity | right; exact Hy].
    - destruct (IH a b H) as [Ha Hb]. split; right; assumption. }
  intros x Hx. unfold full, labels in Hx. rewrite map_map in Hx. cbn [fst] in Hx.
  rewrite map_id in Hx. apply in_map_iff in Hx. destruct Hx as [[a b] [<- Hp]].
  destruct (Hc cs a b Hp) as [Ha Hb]. exists a, b. auto.
Qed.

Lemma In_labels_get c f : In c (labels f) -> get c f <> None.
Proof. intros H Hn. apply get_none_not_in in Hn. contradiction. Qed.

Lemma In_labels_drop_in col k f : In col (labels (drop k f)) -> In col (labels f).
Proof.
  unfold labels, drop. intros H. apply in_map_iff in H.
  destruct H as [p [<- Hp]]. apply filter_In in Hp. destruct Hp as [Hp _].
  apply in_map. exact Hp.
Qed.

(** A pass returns when the subsignal table has the threshold and the pair
    column and the signal table has the two columns of the pair. *)
Lemma accumulate_returns sub a col :
  get "threshold" sub <> None -> get col sub <> None ->
  get (fst (pair_keys col)) a <> None -> get (snd (pair_keys col)) a <> None ->
  exists a', accumulate sub a col = Ok a'.
Proof.
  intros Hth Hcol H1 H2. unfold accumulate, getitem. unfold pair_keys in *.
  cbn [fst snd] in *.
  destruct (get "threshold" sub) as [th|]; [|congruence].
  destruct (get col sub) as [cd|]; [|congruence].
  cbn [bind].
  destruct (get (substring 0 3 col ++ "USD") a) as [s1|]; [|congruence].
  cbn [bind]. rewrite get_setitem.
  destruct (String.eqb _ _); cbn [bind]; [eexists; reflexivity|].
  destruct (get (substring 3 (String.length col - 3) col ++ "USD") a) as [s2|];
    [|congruence].
  cbn [bind]. eexists; reflexivity.
Qed.

Lemma composite_loop_returns sub cols a :
  get "threshold" sub <> None ->
  (forall col, In col cols ->
     get col sub <> None /\
     get (fst (pair_keys col)) a <> None /\
     get (snd (pair_keys col)) a <> None) ->
  exists a', composite_loop sub cols a = Ok a'.
Proof.
  intros Hth. revert a; induction cols as [|col cols IH]; intros a Hall.
  - exists a. reflexivity.
  - cbn [composite_loop].
    destruct (Hall col (or_introl eq_refl)) as [Hc [H1 H2]].
    destruct (accumulate_returns sub a col Hth Hc H1 H2) as [a1 Ha1].
    rewrite Ha1. cbn [bind]. apply IH.
    intros col' Hin. destruct (Hall col' (or_intror Hin)) as [Hc' [H1' H2']].
    pose proof (accumulate_dom _ _ _ _ Ha1) as Hdom.
    split; [exact Hc'|].
    split; intros Hn; apply Hdom in Hn; contradiction.
Qed.

(** The pair loop and the composite loop both run to their end when every
    country is a three-letter code whose column is in both tables. *)
Lemma loops_return (T w : nat) (swaps_data signals : frame)
    (cs : list string) :
  (forall c, In c cs ->
     String.length c = 3%nat /\
     get (c ++ "USD") swaps_data <> None /\
     get (c ++ "USD") signals <> None) ->
  exists sub s1,
    subsignals_table T w swaps_data cs = Ok sub /\
    composite_loop sub (labels (drop "threshold" sub)) signals = Ok s1.
Proof.
  intros Hwf. unfold subsignals_table.
  destruct (outer_loop_returns cs w swaps_data cs
              (full T (map (fun p => fst p ++ snd p) (combinations2 cs)) NaN))
    as [sub0 [Hok Hlab]].
  - intros c Hc. apply (Hwf c Hc).
  - apply incl_refl.
  - apply pair_labelled_full.
  - rewrite Hok. cbn [bind].
    set (sub := setitem sub0 "threshold"
                  (quantile_axis1 T (frame_abs sub0))).
    destruct (composite_loop_returns sub (labels (drop "threshold" sub))
                signals) as [s1 Hs1].
    + unfold sub. rewrite get_setitem_eq. discriminate.
    + intros col Hin.
      pose proof (In_labels_drop col "threshold" sub Hin) as Hne.
      apply In_labels_drop_in in Hin.
      split; [apply In_labels_get; exact Hin|].
      unfold sub in Hin. destruct (In_labels_setitem _ _ _ _ Hin) as [Hin0|E];
        [|contradiction].
      destruct (Hlab col Hin0) as [c1 [c2 [H1 [H2 ->]]]].
      destruct (Hwf c1 H1) as [Hlen1 [_ Hs1]].
      destruct (Hwf c2 H2) as [_ [_ Hs2]].
      rewrite (pair_keys_codes c1 c2 Hlen1). cbn [fst snd].
      split; assumption.
    + exists sub, s1. split; [reflexivity | exact Hs1].
Qed.

(** X16: [compute_signals] returns (raises nothing) when the countries are
    two or more distinct three-letter codes, each with its column, the code
    followed by USD, in the swap table and in the signal table of the
    session. *)
Theorem compute_signals_returns (fixing : Fixes) (self : Backtest) :
  (2 <= List.length (countries self))%nat ->
  NoDup (countries self) ->
  (forall c, In c (countries self) ->
     String.length c = 3%nat /\
     get (c ++ "USD") (swaps_of fixing self) <> None /\
     get (c ++ "USD") (signals_of fixing self) <> None) ->
  exists self', compute_signals fixing self = Ok self'.
Proof.
  intros _ _ Hwf. unfold compute_signals.
  destruct (loops_return (nrows self) (ma_window self) (swaps_of fixing self)
              (signals_of fixing self) (countries self) Hwf)
    as [sub [s1 [Hsub Hloop]]].
  rewrite Hsub. cbn [bind]. rewrite Hloop. cbn [bind].
  eexists; reflexivity.
Qed.

End Returns.

Lemma compute_signals_returns_witness :
  exists self', compute_signals NY Sample.three = Ok self'.
Proof.
  apply compute_signals_returns.
  - vm_compute. lia.
  - repeat constructor; simpl; intuition discriminate.
  - intros c Hc. vm_compute in Hc.
  repeat (destruct Hc as [<-|Hc];
          [split; [reflexivity | split; vm_compute; discriminate]|]).
  destruct Hc.
Defined.

(** ** When [run] returns *)

Section RunReturns.

Lemma substring_code c :
  String.length c = 3%nat -> substring 0 3 (c ++ "USD") = c.
Proof.
  intros H. destruct (three_chars c H) as [x [y [z ->]]]. reflexivity.
Qed.

Lemma get_full_in T ls v c : In c ls -> get c (full T ls v) <> None.
Proof.
  intros H. unfold full. rewrite (get_map_label (fun _ => repeat v T)).
  destruct (in_dec string_dec c ls); [discriminate | contradiction].
Qed.

(** X17: on an instance as the constructor builds it, [run] returns when
    the LON spot table has two or more columns, with distinct labels, each
    labelled by a three-letter code followed by USD, and the LON swap table
    has a column of each of these labels. *)
Theorem run_returns
    (idx : list timestamp) (fx_lon fx_ny swaps_lon swaps_ny : frame) (w : nat) :
  (2 <= List.length (labels fx_lon))%nat ->
  NoDup (labels fx_lon) ->
  (forall l, In l (labels fx_lon) ->
     (exists c, String.length c = 3%nat /\ l = c ++ "USD") /\
     get l swaps_lon <> None) ->
  exists self', run (init idx fx_lon fx_ny swaps_lon swaps_ny w) = Ok self'.
Proof.
  intros _ _ Hwf. unfold run, compute_signals.
  destruct (loops_return
              (nrows (init idx fx_lon fx_ny swaps_lon swaps_ny w)) w swaps_lon
              (signals_of LON (init idx fx_lon fx_ny swaps_lon swaps_ny w))
              (countries (init idx fx_lon fx_ny swaps_lon swaps_ny w)))
    as [sub [s1 [Hsub Hloop]]].
  - cbn [countries init swaps_of signals_of swaps_lon_fixes signals_lon].
    intros c Hc. apply in_map_iff in Hc. destruct Hc as [l [<- Hl]].
    destruct (Hwf l Hl) as [[c [Hlen ->]] Hsw].
    rewrite (substring_code c Hlen).
    split; [exact Hlen|]. split; [exact Hsw|].
    apply get_full_in. exact Hl.
  - change (swaps_of LON (init idx fx_lon fx_ny swaps_lon swaps_ny w))
      with swaps_lon.
    change (ma_window (init idx fx_lon fx_ny swaps_lon swaps_ny w)) with w.
    rewrite Hsub. cbn [bind]. rewrite Hloop. cbn [bind].
    eexists; reflexivity.
Qed.

End RunReturns.

Lemma run_returns_witness :
  exists self',
    run (init (Sample.axis 3) Sample.fx3 Sample.fx3_ny Sample.swaps3
           Sample.swaps3 2) = Ok self'.
Proof.
  apply run_returns.
  1: vm_compute; lia.
  1: repeat constructor; simpl; intuition discriminate.
  intros l Hl. vm_compute in Hl.
  destruct Hl as [<-|[<-|[<-|[]]]].
  - split; [exists "AUD"; split; reflexivity | vm_compute; discriminate].
  - split; [exists "CAD"; split; reflexivity | vm_compute; discriminate].
  - split; [exists "EUR"; split; reflexivity | vm_compute; discriminate].
Defined.

(** ** Dollar neutrality of the signals *)

Section Neutral.

Lemma labels_setitem_present f k v :
  get k f <> None -> labels (setitem f k v) = labels f.
Proof.
  induction f as [|[l old] f IH]; cbn [get setitem]; [congruence|].
  destruct (String.eqb l k); [reflexivity|].
  intros H. cbn [labels map fst]. f_equal. apply IH. exact H.
Qed.

Lemma accumulate_labels sub a col a' :
  accumulate sub a col = Ok a' -> labels a' = labels a.
Proof.
  intros H. destruct (accumulate_inv _ _ _ _ H) as [s1 [s2 [H1 [H2 ->]]]].
  rewrite labels_setitem_present by (rewrite H2; discriminate).
  apply labels_setitem_present. rewrite H1. discriminate.
Qed.

Lemma composite_loop_labels sub cols a a' :
  composite_loop sub cols a = Ok a' -> labels a' = labels a.
Proof.
  revert a; induction cols as [|col cols IH]; intros a H.
  - inversion H; reflexivity.
  - cbn [composite_loop] in H.
    destruct (accumulate sub a col) as [a1|] eqn:E; [|discriminate].
    cbn [bind] in H. rewrite (IH a1 H). apply (accumulate_labels _ _ _ _ E).
Qed.

(** With distinct labels the sum over the labels is the sum of the row. *)
Lemma row_sum_row f t :
  NoDup (labels f) -> row_sum f (labels f) t = net_exposure f t.
Proof.
  unfold row_sum, net_exposure, row. intros Hnd. f_equal.
  induction f as [|[l col] f IH]; [reflexivity|].
  cbn [labels map fst snd] in *. inversion Hnd as [|? ? Hl Hnd']; subst.
  f_equal.
  - unfold at_. cbn [get]. rewrite String.eqb_refl. reflexivity.
  - rewrite <- (IH Hnd'). apply map_ext_in. intros c Hc.
    unfold at_. cbn [get].
    destruct (String.eqb_spec l c) as [E|E]; [subst; contradiction | reflexivity].
Qed.

Lemma zero_table_row_sum f ls t : zero_table f -> zero_or_nan (row_sum f ls t).
Proof.
  intros Hz. unfold row_sum. induction ls as [|c ls IH];
    [apply zero_or_nan_zero|].
  cbn [map fold_right]. apply zero_or_nan_add; [|exact IH].
  destruct (zero_table_cell f c t Hz) as [H|H]; rewrite H;
    [left; reflexivity | right; reflexivity].
Qed.

(** X18: the signals are dollar neutral: after [compute_signals] on a
    fresh signal table with distinct labels, at a row where every signal
    is a number, the signals of the instruments sum to zero - what the
    pairs add to the long side they take from the short side. *)
Theorem signals_are_dollar_neutral
    (fixing : Fixes) (self self' : Backtest) (t : nat) :
  NoDup (labels (signals_of fixing self)) ->
  zero_table (signals_of fixing self) ->
  compute_signals fixing self = Ok self' ->
  (forall p, In p (signals_of fixing self') -> exists q, cell (snd p) t = Fin q) ->
  net_exposure (signals_of fixing self') t =~ Fin 0.
Proof.
  intros Hnd Hz H Hfin.
  pose proof (compute_signals_integral fixing self self'
                (zero_table_integral _ Hz) H) as Hint'.
  destruct (compute_signals_inv _ _ _ H) as [sub [s1 [_ [Hloop Hself]]]].
  assert (Hs1 : signals_of fixing self' = s1)
    by (rewrite Hself; apply signals_of_set_signals).
  assert (Hlab : labels (signals_of fixing self') = labels (signals_of fixing self))
    by (rewrite Hs1; apply (composite_loop_labels _ _ _ _ Hloop)).
  assert (Hpresent : forall c, In c (labels (signals_of fixing self)) ->
                               at_ (signals_of fixing self') c t <> NaN).
  { intros c Hc. rewrite <- Hlab in Hc. apply In_labels_get in Hc.
    unfold at_. destruct (get c (signals_of fixing self')) as [col|] eqn:E;
      [|congruence].
    destruct (Hfin _ (get_in _ _ _ E)) as [q Hq]. cbn [snd] in Hq.
    rewrite Hq. discriminate. }
  rewrite Hs1 in Hint', Hpresent.
  pose proof (composite_loop_row_sum sub _ _ s1 t Hnd Hint' Hloop Hpresent)
    as Hsum.
  rewrite <- Hs1 in Hsum.
  rewrite <- Hlab in Hsum at 1. rewrite row_sum_row in Hsum
    by (rewrite Hlab; exact Hnd).
  destruct (row_finite _ t Hfin) as [qs Hqs].
  destruct (zero_table_row_sum (signals_of fixing self)
              (labels (signals_of fixing self)) t Hz) as [Hn|Hn].
  - rewrite Hn in Hsum. unfold net_exposure in Hsum.
    rewrite Hqs, fsum_fins in Hsum. simpl in Hsum. contradiction.
  - eapply feq_trans; eassumption.
Qed.

End Neutral.

Lemma signals_are_dollar_neutral_witness :
  row (signals_lon Sample.wide_signals) 1
    = [Fin 3; Fin (-1); Fin (-1); Fin (-1)] /\
  net_exposure (signals_lon Sample.wide_signals) 1 =~ Fin 0.
Proof.
  split; [vm_compute; reflexivity|].
  apply (signals_are_dollar_neutral LON Sample.wide Sample.wide_signals 1).
  - repeat constructor; simpl; intuition discriminate.
  - apply (init_zero_table LON).
  - vm_compute. reflexivity.
  - intros p Hp. vm_compute in Hp.
    repeat (destruct Hp as [<-|Hp]; [eexists; vm_compute; reflexivity|]).
    destruct Hp.
Defined.
